(** * Multi-file authentication state: a verification development

    Shallow embedding of [src/lib/Utils/use-multi-file-auth-state.js]:
    the name sanitizers, the record store ([writeData], [readData],
    [removeData]) over a model of the file system, the per-path file
    lock, and the session facade ([useMultiFileAuthState] with its
    [keys.get], [keys.set] and [saveCreds]).

    Conventions.  A JavaScript string is a [string]: each character is
    one code unit in the range 0..255.  A path is the list of its
    segments.  Numbers are the integers ([Z]); fractions and exponents
    are outside the modelled fragment. *)

From Stdlib Require Import Ascii String ZArith Lia Bool.
From Stdlib.Strings Require Import Byte.
From Stdlib Require Import Decimal DecimalN DecimalFacts.
From stdpp Require Import gmap strings list.

Local Open Scope Z_scope.

(** ** Strings *)

Module Str.

Definition code (c : ascii) : N := N_of_ascii c.

Fixpoint filter (f : ascii -> bool) (s : string) : string :=
  match s with
  | EmptyString => EmptyString
  | String c s' => if f c then String c (filter f s') else filter f s'
  end.

Fixpoint forallb (f : ascii -> bool) (s : string) : bool :=
  match s with
  | EmptyString => true
  | String c s' => f c && forallb f s'
  end.

Fixpoint take (n : nat) (s : string) : string :=
  match n, s with
  | O, _ => EmptyString
  | S n', String c s' => String c (take n' s')
  | S _, EmptyString => EmptyString
  end.

Definition is_empty (s : string) : bool :=
  match s with EmptyString => true | String _ _ => false end.

(** [s.replace(/c/g, by)] for a single character [c]. *)
Fixpoint replace_char (c : ascii) (by_ : string) (s : string) : string :=
  match s with
  | EmptyString => EmptyString
  | String x s' =>
      if Ascii.eqb x c then by_ +:+ replace_char c by_ s'
      else String x (replace_char c by_ s')
  end.

Fixpoint concat (sep : string) (l : list string) : string :=
  match l with
  | [] => EmptyString
  | [x] => x
  | x :: l' => x +:+ sep +:+ concat sep l'
  end.

End Str.

(** ** Path sanitizer *)

(** The characters matched by [\s] and removed by [String.prototype.trim]
    among the code units 0..255: TAB, LF, VT, FF, CR, SPACE and NBSP. *)
Definition is_space (c : ascii) : bool :=
  match Str.code c with
  | 9 | 10 | 11 | 12 | 13 | 32 | 160 => true
  | _ => false
  end%N.

(** The class [[A-Za-z0-9_]]. *)
Definition is_word (c : ascii) : bool :=
  let n := Str.code c in
  ((65 <=? n) && (n <=? 90) || (97 <=? n) && (n <=? 122)
   || (48 <=? n) && (n <=? 57) || (n =? 95))%N.

Fixpoint trimStart (s : string) : string :=
  match s with
  | EmptyString => EmptyString
  | String c s' => if is_space c then trimStart s' else s
  end.

Fixpoint trimEnd (s : string) : string :=
  match s with
  | EmptyString => EmptyString
  | String c s' =>
      let t := trimEnd s' in
      if is_space c && Str.is_empty t then EmptyString else String c t
  end.

Definition trim (s : string) : string := trimEnd (trimStart s).

(** [s.replace(/\s+/g, '_')]: every maximal run of white space becomes one
    underscore.  [in_run] tells that the previous character was white
    space, so that the run has been replaced already. *)
Fixpoint replace_ws_runs (in_run : bool) (s : string) : string :=
  match s with
  | EmptyString => EmptyString
  | String c s' =>
      if is_space c then
        if in_run then replace_ws_runs true s'
        else String "_" (replace_ws_runs true s')
      else String c (replace_ws_runs false s')
  end.

(** [x || d] on strings: the empty string is falsy. *)
Definition str_or (x d : string) : string :=
  if Str.is_empty x then d else x.

Definition sanitizeName (input : option string) : string :=
  let base := str_or (match input with Some i => trim i | None => EmptyString end) "auth" in
  let base := replace_ws_runs false base in
  let base := Str.filter is_word base in
  let base := if (8 <? String.length base)%nat then Str.take 8 base else base in
  str_or base "auth".

(** The words of a text: its maximal runs of characters that are not
    white space. *)
Fixpoint words (s : string) : list string :=
  match s with
  | EmptyString => []
  | String c s' =>
      if is_space c then words s'
      else
        match s' with
        | EmptyString => [String c EmptyString]
        | String c' _ =>
            if is_space c' then String c EmptyString :: words s'
            else
              match words s' with
              | w :: ws => String c w :: ws
              | [] => [String c EmptyString]
              end
        end
  end.

Definition starts_ws (s : string) : bool :=
  match s with
  | String c _ => is_space c
  | EmptyString => false
  end.

Fixpoint ends_ws (s : string) : bool :=
  match s with
  | EmptyString => false
  | String c EmptyString => is_space c
  | String _ s' => ends_ws s'
  end.

(** The contract [sanitizeBaseName] of the specification, in its words:
    trim; [auth] for an empty text; the words of the text joined by
    underscores; only letters, digits and underscores kept; at most 8
    characters; [auth] when nothing is left. *)
Definition sanitizeBaseName_spec (name : option string) : string :=
  let t := match name with Some n => trim n | None => EmptyString end in
  if Str.is_empty t then "auth"
  else
    let r := Str.take 8 (Str.filter is_word (Str.concat "_" (words t))) in
    if Str.is_empty r then "auth" else r.

Definition fixFileName (file : string) : string :=
  Str.replace_char ":" "-" (Str.replace_char "/" "__" file).

(** The record of [(category, id)] lives in the file
    [`${category}-${id}.json`]. *)
Definition key_file (category id : string) : string :=
  category +:+ "-" +:+ id +:+ ".json".

Definition cred_file (baseName : string) : string := baseName +:+ ".json".

(** ** JavaScript values *)

#[local] Unset Elimination Schemes.
Inductive value : Type :=
  | VUndefined
  | VNull
  | VBool (b : bool)
  | VNum (n : Z)
  | VStr (s : string)
  | VBuf (bytes : list byte)
  | VArr (elems : list value)
  | VObj (props : list (string * value)).
#[local] Set Elimination Schemes.

(** JavaScript truthiness, as tested by [x || y], [x ? a : b] and
    [if (x)]. *)
Definition truthy (v : value) : bool :=
  match v with
  | VUndefined | VNull => false
  | VBool b => b
  | VNum n => negb (n =? 0)
  | VStr s => negb (Str.is_empty s)
  | VBuf _ | VArr _ | VObj _ => true
  end.

Definition js_or (x y : value) : value := if truthy x then x else y.

(** Objects keep their properties in insertion order. *)
Fixpoint obj_get (k : string) (o : list (string * value)) : option value :=
  match o with
  | [] => None
  | (k', v) :: o' => if String.eqb k' k then Some v else obj_get k o'
  end.

(** [o[k] = v]: overwrite in place, or append a new property. *)
Fixpoint obj_set (o : list (string * value)) (k : string) (v : value)
  : list (string * value) :=
  match o with
  | [] => [(k, v)]
  | (k', v') :: o' =>
      if String.eqb k' k then (k', v) :: o' else (k', v') :: obj_set o' k v
  end.

Definition obj_of_pairs (l : list (string * value)) : list (string * value) :=
  fold_left (fun o kv => obj_set o (fst kv) (snd kv)) l [].

(** ** Base64 *)

Module Base64.

Definition alphabet : string :=
  "ABCDEFGHIJKLMNOPQRSTUVWXYZabcdefghijklmnopqrstuvwxyz0123456789+/".

Definition char_of_sextet (n : N) : ascii :=
  match String.get (N.to_nat n) alphabet with
  | Some c => c
  | None => "="%char
  end.

(** The decoder also accepts the URL-safe characters [-] and [_]. *)
Definition sextet_of_char (c : ascii) : option N :=
  let n := Str.code c in
  (if (65 <=? n) && (n <=? 90) then Some (n - 65)
   else if (97 <=? n) && (n <=? 122) then Some (n - 71)
   else if (48 <=? n) && (n <=? 57) then Some (n + 4)
   else if (n =? 43) || (n =? 45) then Some 62
   else if (n =? 47) || (n =? 95) then Some 63
   else None)%N.

Definition byte_of_N (n : N) : byte :=
  match Byte.of_N (n mod 256) with
  | Some b => b
  | None => x00
  end.

(** [buf.toString('base64')] *)
Fixpoint encode (bs : list byte) : string :=
  match bs with
  | [] => EmptyString
  | [a] =>
      let a := Byte.to_N a in
      String (char_of_sextet (a / 4))
        (String (char_of_sextet (a mod 4 * 16)) "==")
  | [a; b] =>
      let a := Byte.to_N a in
      let b := Byte.to_N b in
      String (char_of_sextet (a / 4))
        (String (char_of_sextet (a mod 4 * 16 + b / 16))
           (String (char_of_sextet (b mod 16 * 4)) "="))
  | a :: b :: c :: rest =>
      let a := Byte.to_N a in
      let b := Byte.to_N b in
      let c := Byte.to_N c in
      String (char_of_sextet (a / 4))
        (String (char_of_sextet (a mod 4 * 16 + b / 16))
           (String (char_of_sextet (b mod 16 * 4 + c / 64))
              (String (char_of_sextet (c mod 64)) (encode rest))))
  end%N.

(** The sextets of the text up to the first [=]; characters outside the
    alphabet are skipped. *)
Fixpoint sextets (s : string) : list N :=
  match s with
  | EmptyString => []
  | String c s' =>
      if Ascii.eqb c "=" then []
      else match sextet_of_char c with
           | Some n => n :: sextets s'
           | None => sextets s'
           end
  end.

Fixpoint bytes_of_sextets (l : list N) : list byte :=
  match l with
  | s1 :: s2 :: s3 :: s4 :: rest =>
      byte_of_N (s1 * 4 + s2 / 16)
        :: byte_of_N (s2 mod 16 * 16 + s3 / 4)
        :: byte_of_N (s3 mod 4 * 64 + s4)
        :: bytes_of_sextets rest
  | [s1; s2; s3] =>
      [byte_of_N (s1 * 4 + s2 / 16); byte_of_N (s2 mod 16 * 16 + s3 / 4)]
  | [s1; s2] => [byte_of_N (s1 * 4 + s2 / 16)]
  | _ => []
  end%N.

(** [Buffer.from(s, 'base64')] *)
Definition decode (s : string) : list byte := bytes_of_sextets (sextets s).

End Base64.

(** ** JSON text *)

Module JSON.

Definition dquote : ascii := "034"%char.
Definition backslash : ascii := "092"%char.

Definition hex_digit (n : N) : ascii :=
  match String.get (N.to_nat n) "0123456789abcdef" with
  | Some c => c
  | None => "0"%char
  end.

Definition hex_value (c : ascii) : option N :=
  let n := Str.code c in
  (if (48 <=? n) && (n <=? 57) then Some (n - 48)
   else if (97 <=? n) && (n <=? 102) then Some (n - 87)
   else if (65 <=? n) && (n <=? 70) then Some (n - 55)
   else None)%N.

(** *** Serialisation ([JSON.stringify]) *)

Definition escape (c : ascii) : string :=
  match Str.code c with
  | 8 => String backslash "b"
  | 9 => String backslash "t"
  | 10 => String backslash "n"
  | 12 => String backslash "f"
  | 13 => String backslash "r"
  | 34 => String backslash (String dquote EmptyString)
  | 92 => String backslash (String backslash EmptyString)
  | n =>
      if n <? 32 then
        String backslash
          (String "u" (String "0" (String "0"
             (String (hex_digit (n / 16))
                (String (hex_digit (n mod 16)) EmptyString)))))
      else String c EmptyString
  end%N.

Fixpoint escape_all (s : string) : string :=
  match s with
  | EmptyString => EmptyString
  | String c s' => escape c +:+ escape_all s'
  end.

Definition quote (s : string) : string :=
  String dquote (escape_all s +:+ String dquote EmptyString).

Fixpoint string_of_uint (d : Decimal.uint) : string :=
  match d with
  | Nil => EmptyString
  | D0 d => String "0" (string_of_uint d)
  | D1 d => String "1" (string_of_uint d)
  | D2 d => String "2" (string_of_uint d)
  | D3 d => String "3" (string_of_uint d)
  | D4 d => String "4" (string_of_uint d)
  | D5 d => String "5" (string_of_uint d)
  | D6 d => String "6" (string_of_uint d)
  | D7 d => String "7" (string_of_uint d)
  | D8 d => String "8" (string_of_uint d)
  | D9 d => String "9" (string_of_uint d)
  end.

Definition string_of_number (n : Z) : string :=
  let digits := string_of_uint (N.to_uint (Z.abs_N n)) in
  if n <? 0 then String "-" digits else digits.

(** [SerializeJSONProperty], after the replacer has been applied: [None]
    stands for the result [undefined].  An [undefined] array element is
    written [null]; a property whose value is [undefined] is left out. *)
Fixpoint serialize (v : value) : option string :=
  match v with
  | VUndefined => None
  | VNull => Some "null"
  | VBool true => Some "true"
  | VBool false => Some "false"
  | VNum n => Some (string_of_number n)
  | VStr s => Some (quote s)
  | VBuf bs =>
      Some ("{" +:+ quote "type" +:+ ":" +:+ quote "Buffer" +:+ ","
            +:+ quote "data" +:+ ":["
            +:+ Str.concat ","
                  (map (fun b => string_of_number (Z.of_N (Byte.to_N b))) bs)
            +:+ "]}")
  | VArr elems =>
      Some ("[" +:+
            Str.concat ","
              ((fix go (l : list value) : list string :=
                  match l with
                  | [] => []
                  | x :: l' =>
                      match serialize x with
                      | Some t => t
                      | None => "null"
                      end :: go l'
                  end) elems)
            +:+ "]")
  | VObj props =>
      Some ("{" +:+
            Str.concat ","
              ((fix go (l : list (string * value)) : list string :=
                  match l with
                  | [] => []
                  | (k, x) :: l' =>
                      match serialize x with
                      | Some t => (quote k +:+ ":" +:+ t) :: go l'
                      | None => go l'
                      end
                  end) props)
            +:+ "}")
  end.

(** *** Parsing ([JSON.parse]) *)

Definition is_json_ws (c : ascii) : bool :=
  match Str.code c with
  | 9 | 10 | 13 | 32 => true
  | _ => false
  end%N.

Fixpoint skip_ws (s : string) : string :=
  match s with
  | EmptyString => EmptyString
  | String c s' => if is_json_ws c then skip_ws s' else s
  end.

Definition is_digit (c : ascii) : bool :=
  let n := Str.code c in ((48 <=? n) && (n <=? 57))%N.

Definition digit_cons (c : ascii) (d : Decimal.uint) : Decimal.uint :=
  match Str.code c with
  | 48 => D0 d | 49 => D1 d | 50 => D2 d | 51 => D3 d | 52 => D4 d
  | 53 => D5 d | 54 => D6 d | 55 => D7 d | 56 => D8 d | _ => D9 d
  end%N.

(** The longest prefix of digits, and what follows it. *)
Fixpoint read_digits (s : string) : Decimal.uint * string :=
  match s with
  | EmptyString => (Nil, EmptyString)
  | String c s' =>
      if is_digit c then
        let '(d, rest) := read_digits s' in (digit_cons c d, rest)
      else (Nil, s)
  end.

(** A fraction or an exponent would start here. *)
Definition continues_number (s : string) : bool :=
  match s with
  | String c _ =>
      Ascii.eqb c "." || Ascii.eqb c "e" || Ascii.eqb c "E"
  | EmptyString => false
  end.

(** [int = "0" | digit1-9 digits]; numbers with a fraction or an exponent
    are outside the modelled fragment and are not accepted. *)
Definition parse_nat (s : string) : option (N * string) :=
  let '(d, rest) := read_digits s in
  if continues_number rest then None
  else
    match d with
    | Nil => None
    | D0 Nil => Some (0%N, rest)
    | D0 _ => None
    | _ => Some (N.of_uint d, rest)
    end.

Definition parse_number (s : string) : option (Z * string) :=
  match s with
  | String c s' =>
      if Ascii.eqb c "-" then
        match parse_nat s' with
        | Some (n, rest) => Some (- Z.of_N n, rest)
        | None => None
        end
      else
        match parse_nat s with
        | Some (n, rest) => Some (Z.of_N n, rest)
        | None => None
        end
  | EmptyString => None
  end.

(** The characters of a string literal after its opening quote, up to
    the closing quote.  An escape [\uXXXX] above [\u00ff] denotes a code
    unit outside the modelled fragment and is not accepted. *)
Fixpoint parse_string (s : string) : option (string * string) :=
  match s with
  | EmptyString => None
  | String c r =>
      if Ascii.eqb c dquote then Some (EmptyString, r)
      else if Ascii.eqb c backslash then
        match r with
        | String e r1 =>
            let continue (x : ascii) (tail : string) :=
              match parse_string tail with
              | Some (t, rest) => Some (String x t, rest)
              | None => None
              end in
            if Ascii.eqb e dquote then continue dquote r1
            else if Ascii.eqb e backslash then continue backslash r1
            else if Ascii.eqb e "/" then continue "/"%char r1
            else if Ascii.eqb e "b" then continue "008"%char r1
            else if Ascii.eqb e "f" then continue "012"%char r1
            else if Ascii.eqb e "n" then continue "010"%char r1
            else if Ascii.eqb e "r" then continue "013"%char r1
            else if Ascii.eqb e "t" then continue "009"%char r1
            else if Ascii.eqb e "u" then
              match r1 with
              | String h1 (String h2 (String h3 (String h4 r2))) =>
                  match hex_value h1, hex_value h2, hex_value h3, hex_value h4 with
                  | Some 0%N, Some 0%N, Some a, Some b =>
                      continue (ascii_of_N (a * 16 + b)) r2
                  | _, _, _, _ => None
                  end
              | _ => None
              end
            else None
        | EmptyString => None
        end
      else if (Str.code c <? 32)%N then None
      else
        match parse_string r with
        | Some (t, rest) => Some (String c t, rest)
        | None => None
        end
  end.

(** The text must go on with [lit]. *)
Fixpoint expect (lit : string) (s : string) : option string :=
  match lit with
  | EmptyString => Some s
  | String c lit' =>
      match s with
      | String c' s' => if Ascii.eqb c c' then expect lit' s' else None
      | EmptyString => None
      end
  end.

(** Recursive descent; [fuel] bounds the number of nested calls. *)
Fixpoint parse_value (fuel : nat) (s : string) {struct fuel}
  : option (value * string) :=
  match fuel with
  | O => None
  | S fuel' =>
      match skip_ws s with
      | EmptyString => None
      | String c r =>
          if Ascii.eqb c "n" then
            match expect "ull" r with Some r' => Some (VNull, r') | None => None end
          else if Ascii.eqb c "t" then
            match expect "rue" r with Some r' => Some (VBool true, r') | None => None end
          else if Ascii.eqb c "f" then
            match expect "alse" r with Some r' => Some (VBool false, r') | None => None end
          else if Ascii.eqb c dquote then
            match parse_string r with
            | Some (t, r') => Some (VStr t, r')
            | None => None
            end
          else if Ascii.eqb c "[" then
            match skip_ws r with
            | String c' r' =>
                if Ascii.eqb c' "]" then Some (VArr [], r')
                else
                  match parse_elements fuel' r with
                  | Some (l, r'') => Some (VArr l, r'')
                  | None => None
                  end
            | EmptyString => None
            end
          else if Ascii.eqb c "{" then
            match skip_ws r with
            | String c' r' =>
                if Ascii.eqb c' "}" then Some (VObj [], r')
                else
                  match parse_members fuel' r with
                  | Some (l, r'') => Some (VObj (obj_of_pairs l), r'')
                  | None => None
                  end
            | EmptyString => None
            end
          else
            match parse_number (String c r) with
            | Some (n, r') => Some (VNum n, r')
            | None => None
            end
      end
  end
with parse_elements (fuel : nat) (s : string) {struct fuel}
  : option (list value * string) :=
  match fuel with
  | O => None
  | S fuel' =>
      match parse_value fuel' s with
      | Some (v, r) =>
          match skip_ws r with
          | String c r' =>
              if Ascii.eqb c "," then
                match parse_elements fuel' r' with
                | Some (l, r'') => Some (v :: l, r'')
                | None => None
                end
              else if Ascii.eqb c "]" then Some ([v], r')
              else None
          | EmptyString => None
          end
      | None => None
      end
  end
with parse_members (fuel : nat) (s : string) {struct fuel}
  : option (list (string * value) * string) :=
  match fuel with
  | O => None
  | S fuel' =>
      match skip_ws s with
      | String c r =>
          if Ascii.eqb c dquote then
            match parse_string r with
            | Some (k, r1) =>
                match skip_ws r1 with
                | String c1 r2 =>
                    if Ascii.eqb c1 ":" then
                      match parse_value fuel' r2 with
                      | Some (v, r3) =>
                          match skip_ws r3 with
                          | String c3 r4 =>
                              if Ascii.eqb c3 "," then
                                match parse_members fuel' r4 with
                                | Some (l, r5) => Some ((k, v) :: l, r5)
                                | None => None
                                end
                              else if Ascii.eqb c3 "}" then Some ([(k, v)], r4)
                              else None
                          | EmptyString => None
                          end
                      | None => None
                      end
                    else None
                | EmptyString => None
                end
            | None => None
            end
          else None
      | EmptyString => None
      end
  end.

(** The whole text must be one value, white space apart. *)
Definition parse_text (s : string) : option value :=
  match parse_value (2 * String.length s + 2) s with
  | Some (v, rest) =>
      match skip_ws rest with
      | EmptyString => Some v
      | String _ _ => None
      end
  | None => None
  end.

Fixpoint height (v : value) : nat :=
  match v with
  | VArr elems => S (fold_right (fun x h => Nat.max (height x) h) O elems)
  | VObj props => S (fold_right (fun kx h => Nat.max (height (snd kx)) h) O props)
  | _ => O
  end.

(** The walk of [JSON.stringify(v, replacer)]: the replacer sees a value
    before its properties are visited, and the properties visited are
    those of the value it returns.  [fuel] bounds the depth of the walk. *)
Fixpoint replace_walk (replacer : value -> value) (fuel : nat) (v : value)
  : value :=
  match fuel with
  | O => replacer v
  | S fuel' =>
      match replacer v with
      | VArr elems => VArr (map (replace_walk replacer fuel') elems)
      | VObj props =>
          VObj (map (fun kx => (fst kx, replace_walk replacer fuel' (snd kx))) props)
      | v' => v'
      end
  end.

(** [JSON.stringify(v, replacer)]; [None] is the result [undefined]. *)
Definition stringify (v : value) (replacer : value -> value) : option string :=
  serialize (replace_walk replacer (S (height v)) v).

(** [InternalizeJSONProperty]: the reviver sees a value after its
    properties have been revived; a property revived to [undefined] is
    deleted. *)
Fixpoint internalize (reviver : value -> value) (v : value) : value :=
  reviver
    match v with
    | VArr elems => VArr (map (internalize reviver) elems)
    | VObj props =>
        VObj ((fix go (l : list (string * value)) : list (string * value) :=
                 match l with
                 | [] => []
                 | (k, x) :: l' =>
                     match internalize reviver x with
                     | VUndefined => go l'
                     | x' => (k, x') :: go l'
                     end
                 end) props)
    | _ => v
    end.

(** [JSON.parse(text, reviver)]; [None] is a thrown [SyntaxError]. *)
Definition parse (text : string) (reviver : value -> value) : option value :=
  match parse_text text with
  | Some v => Some (internalize reviver v)
  | None => None
  end.

End JSON.

(** The replacer and the reviver the record store passes to
    [JSON.stringify] and [JSON.parse].  [BufferJSON] lives in
    Utils/generics, which is not part of the source file. *)
Module BufferJSON.

(** Modelled from the spec: the tagged form of a binary payload, missing
    with [BufferJSON]: a marker field [type] with the value [Buffer], plus
    a field [data] with the base64 text of the bytes. *)
Definition tagged (bs : list byte) : value :=
  VObj [("type", VStr "Buffer"); ("data", VStr (Base64.encode bs))].

(** Modelled from the spec: [BufferJSON.replacer], missing from the
    source: a binary payload is written in its tagged form, every other
    value passes unchanged. *)
Definition replacer (v : value) : value :=
  match v with
  | VBuf bs => tagged bs
  | _ => v
  end.

Definition has_marker (props : list (string * value)) : bool :=
  match obj_get "type" props with
  | Some (VStr t) => String.eqb t "Buffer"
  | _ => false
  end.

(** Modelled from the spec: [BufferJSON.reviver], missing from the
    source: an object in the tagged form is decoded back to the bytes,
    every other value passes unchanged. *)
Definition reviver (v : value) : value :=
  match v with
  | VObj props =>
      if has_marker props then
        match obj_get "data" props with
        | Some (VStr text) => VBuf (Base64.decode text)
        | _ => v
        end
      else v
  | _ => v
  end.

End BufferJSON.

(** ** The file system *)

(** The calls of [fs/promises] the source makes, on a file system of
    files and directories with permissions to read and to write. *)

Inductive errno : Set := ENOENT | EACCES | EISDIR | ENOTDIR | EEXIST.

Record mode : Set := Mode { can_read : bool; can_write : bool }.

Inductive node : Type :=
  | File (content : string) (m : mode)
  | Dir (m : mode).

(** A path is the list of its segments; the file system maps the paths
    that exist to their nodes. *)
Abbreviation path := (list string).
Abbreviation FS := (gmap (list string) node).

Definition rw : mode := Mode true true.

Definition parent (p : path) : path := removelast p.

(** [path.join(folder, name)] for a name without separator, as the names
    [fixFileName] returns are. *)
Definition join (folder : path) (name : string) : path := folder ++ [name].

Definition path_string (p : path) : string := Str.concat "/" p.

Definition dir_writable (fs : FS) (d : path) : bool :=
  match fs !! d with
  | Some (Dir m) => can_write m
  | _ => false
  end.

Inductive syscall : Type :=
  | Stat (p : path)
  | Mkdir (p : path)
  | ReadFile (p : path)
  | WriteFile (p : path) (text : string)
  | Unlink (p : path).

Inductive sysret : Type :=
  | RDone
  | RText (text : string)
  | RStat (isDirectory : bool).

Definition target (c : syscall) : path :=
  match c with
  | Stat p | Mkdir p | ReadFile p | WriteFile p _ | Unlink p => p
  end.

(** [stat(p)] *)
Definition fs_stat (fs : FS) (p : path) : errno + sysret :=
  match fs !! p with
  | Some (Dir _) => inr (RStat true)
  | Some (File _ _) => inr (RStat false)
  | None => inl ENOENT
  end.

(** [readFile(p, { encoding: 'utf-8' })] *)
Definition fs_readFile (fs : FS) (p : path) : errno + sysret :=
  match fs !! p with
  | Some (File text m) => if can_read m then inr (RText text) else inl EACCES
  | Some (Dir _) => inl EISDIR
  | None => inl ENOENT
  end.

(** [writeFile(p, text)]: the file is replaced, or created in its
    directory. *)
Definition fs_writeFile (fs : FS) (p : path) (text : string) : errno + FS :=
  match fs !! p with
  | Some (File _ m) =>
      if can_write m then inr (<[p := File text m]> fs) else inl EACCES
  | Some (Dir _) => inl EISDIR
  | None =>
      match fs !! parent p with
      | Some (Dir m) =>
          if can_write m then inr (<[p := File text rw]> fs) else inl EACCES
      | Some (File _ _) => inl ENOTDIR
      | None => inl ENOENT
      end
  end.

(** [unlink(p)]: removing a file takes the right to write its
    directory. *)
Definition fs_unlink (fs : FS) (p : path) : errno + FS :=
  match fs !! p with
  | Some (File _ _) =>
      if dir_writable fs (parent p) then inr (delete p fs) else inl EACCES
  | Some (Dir _) => inl EISDIR
  | None => inl ENOENT
  end.

(** [mkdir(p, { recursive: true })]: every missing directory on the way
    to [done ++ todo] is created, starting below [done]. *)
Fixpoint fs_mkdir_from (fs : FS) (done todo : path) : errno + FS :=
  match todo with
  | [] => inr fs
  | seg :: todo' =>
      let d := done ++ [seg] in
      match fs !! d with
      | Some (Dir _) => fs_mkdir_from fs d todo'
      | Some (File _ _) =>
          inl match todo' with [] => EEXIST | _ :: _ => ENOTDIR end
      | None =>
          if dir_writable fs done
          then fs_mkdir_from (<[d := Dir rw]> fs) d todo'
          else inl EACCES
      end
  end.

Definition fs_mkdir (fs : FS) (p : path) : errno + FS := fs_mkdir_from fs [] p.

Definition sys_exec (c : syscall) (fs : FS) : (errno + sysret) * FS :=
  match c with
  | Stat p => (fs_stat fs p, fs)
  | ReadFile p => (fs_readFile fs p, fs)
  | Mkdir p =>
      match fs_mkdir fs p with
      | inr fs' => (inr RDone, fs')
      | inl e => (inl e, fs)
      end
  | WriteFile p text =>
      match fs_writeFile fs p text with
      | inr fs' => (inr RDone, fs')
      | inl e => (inl e, fs)
      end
  | Unlink p =>
      match fs_unlink fs p with
      | inr fs' => (inr RDone, fs')
      | inl e => (inl e, fs)
      end
  end.

(** ** Asynchronous programs *)

Inductive exn : Type :=
  | IOError (e : errno) (c : syscall)
  | TypeError
  | SyntaxError
  | Error (message : string).

(** An [async] function body: it returns, throws, asks for the lock of a
    path, gives it back, or awaits a file-system call.  [Acquire p k]
    stands for [getFileLock(p).acquire().then(...)] and [Release p k] for
    the call [release()]; what the lock does is told in [Sched]. *)
Inductive prog (A : Type) : Type :=
  | Ret (a : A)
  | Throw (e : exn)
  | Acquire (p : path) (k : prog A)
  | Release (p : path) (k : prog A)
  | Sys (c : syscall) (k : errno + sysret -> prog A).

Arguments Ret {A} a.
Arguments Throw {A} e.
Arguments Acquire {A} p k.
Arguments Release {A} p k.
Arguments Sys {A} c k.

Fixpoint bind {A B : Type} (m : prog A) (f : A -> prog B) : prog B :=
  match m with
  | Ret a => f a
  | Throw e => Throw e
  | Acquire p k => Acquire p (bind k f)
  | Release p k => Release p (bind k f)
  | Sys c k => Sys c (fun r => bind (k r) f)
  end.

Notation "x <- m ;; k" := (bind m (fun x => k))
  (at level 100, m at next level, right associativity).
Notation "m ;;; k" := (bind m (fun _ => k))
  (at level 100, right associativity).

(** [try { m } catch (e) { h e }] *)
Fixpoint try_catch {A : Type} (m : prog A) (h : exn -> prog A) : prog A :=
  match m with
  | Ret a => Ret a
  | Throw e => h e
  | Acquire p k => Acquire p (try_catch k h)
  | Release p k => Release p (try_catch k h)
  | Sys c k => Sys c (fun r => try_catch (k r) h)
  end.

(** [try { m } finally { fin }] *)
Fixpoint try_finally {A : Type} (m : prog A) (fin : prog unit) : prog A :=
  match m with
  | Ret a => fin ;;; Ret a
  | Throw e => fin ;;; Throw e
  | Acquire p k => Acquire p (try_finally k fin)
  | Release p k => Release p (try_finally k fin)
  | Sys c k => Sys c (fun r => try_finally (k r) fin)
  end.

(** [await call]: a failed call is thrown. *)
Definition await (c : syscall) : prog sysret :=
  Sys c (fun r => match r with
                  | inr v => Ret v
                  | inl e => Throw (IOError e c)
                  end).

Definition release (p : path) : prog unit := Release p (Ret tt).

(** *** Running one program to its end *)

Inductive outcome (A : Type) : Type :=
  | Done (a : A)
  | Raised (e : exn).

Arguments Done {A} a.
Arguments Raised {A} e.

Inductive event : Type :=
  | EvAcquire (p : path)
  | EvRelease (p : path)
  | EvSys (c : syscall) (r : errno + sysret).

(** The run of a program that never has to wait for a lock: what it
    does, how it ends, and the file system it leaves. *)
Fixpoint run {A : Type} (m : prog A) (fs : FS) : list event * outcome A * FS :=
  match m with
  | Ret a => ([], Done a, fs)
  | Throw e => ([], Raised e, fs)
  | Acquire p k =>
      let '(tr, o, fs') := run k fs in (EvAcquire p :: tr, o, fs')
  | Release p k =>
      let '(tr, o, fs') := run k fs in (EvRelease p :: tr, o, fs')
  | Sys c k =>
      let '(r, fs1) := sys_exec c fs in
      let '(tr, o, fs2) := run (k r) fs1 in
      (EvSys c r :: tr, o, fs2)
  end.

Definition result_of {A : Type} (x : list event * outcome A * FS) : outcome A :=
  snd (fst x).
Definition trace_of {A : Type} (x : list event * outcome A * FS) : list event :=
  fst (fst x).
Definition fs_of {A : Type} (x : list event * outcome A * FS) : FS := snd x.

(** The paths of the file-system calls of a run. *)
Definition touched (tr : list event) : list path :=
  omap (fun e => match e with EvSys c _ => Some (target c) | _ => None end) tr.

(** ** Record store *)

Section RecordStore.

Variable folder : path.

Definition writeData (data : value) (file : string) : prog value :=
  let filePath := join folder (fixFileName file) in
  Acquire filePath
    (try_finally
       (match JSON.stringify data BufferJSON.replacer with
        | Some text => await (WriteFile filePath text) ;;; Ret VUndefined
        | None => Throw TypeError
        end)
       (release filePath)).

Definition readData (file : string) : prog value :=
  try_catch
    (let filePath := join folder (fixFileName file) in
     Acquire filePath
       (try_finally
          (r <- await (ReadFile filePath) ;;
           match r with
           | RText data =>
               match JSON.parse data BufferJSON.reviver with
               | Some v => Ret v
               | None => Throw SyntaxError
               end
           | _ => Throw TypeError
           end)
          (release filePath)))
    (fun _ => Ret VNull).

(** The promise of the locked section is returned without [await], so
    the outer [catch] guards the synchronous prefix only, which does not
    throw here; the inner [catch] swallows whatever [unlink] throws. *)
Definition removeData (file : string) : prog value :=
  let filePath := join folder (fixFileName file) in
  Acquire filePath
    (try_finally
       (try_catch (await (Unlink filePath) ;;; Ret VUndefined)
          (fun _ => Ret VUndefined))
       (release filePath)).

End RecordStore.

(** What [readData] yields for the file at [p]. *)
Definition stored_value (fs : FS) (p : path) : value :=
  match fs_readFile fs p with
  | inr (RText data) =>
      match JSON.parse data BufferJSON.reviver with
      | Some v => v
      | None => VNull
      end
  | _ => VNull
  end.

(** ** Session facade *)

(** [Promise.all]: the result is the list of the values, or a rejection.
    The tasks are settled one after the other here, in the order they were
    started, which is the order the lock of a path serves them in; every
    task runs to its end, also after one has failed, and the rejection is
    that of the first task that failed.  The model does not tell the moment
    [Promise.all] rejects from the moment the last task ends. *)
Definition settle {A : Type} (m : prog A) : prog (exn + A) :=
  try_catch (a <- m ;; Ret (inr a)) (fun e => Ret (inl e)).

Fixpoint settle_all {A : Type} (ms : list (prog A)) : prog (list (exn + A)) :=
  match ms with
  | [] => Ret []
  | m :: ms' => r <- settle m ;; rs <- settle_all ms' ;; Ret (r :: rs)
  end.

Fixpoint collect {A : Type} (rs : list (exn + A)) : exn + list A :=
  match rs with
  | [] => inr []
  | inl e :: _ => inl e
  | inr a :: rs' =>
      match collect rs' with
      | inr l => inr (a :: l)
      | inl e => inl e
      end
  end.

Definition promise_all {A : Type} (ms : list (prog A)) : prog (list A) :=
  rs <- settle_all ms ;;
  match collect rs with
  | inr l => Ret l
  | inl e => Throw e
  end.

Record handle : Type := Handle {
  h_folder : path;
  h_credFileName : string;
  creds : value
}.

Section Facade.

(** The collaborators: the bundle [initAuthCreds()] returns, and
    [proto.Message.AppStateSyncKeyData.fromObject]. *)
Variable initAuthCreds : value.
Variable fromObject : value -> value.

Definition non_directory_message (folder : path) : string :=
  "Found non-directory at " +:+ path_string folder
    +:+ ", delete or specify a different location.".

Definition useMultiFileAuthState (folder : path) (name : option string)
  : prog handle :=
  let baseName := sanitizeName name in
  let credFileName := cred_file baseName in
  folderInfo <- Sys (Stat folder)
                  (fun r => Ret match r with
                                | inr (RStat d) => Some d
                                | _ => None
                                end) ;;
  match folderInfo with
  | Some isDirectory =>
      if negb isDirectory
      then Throw (Error (non_directory_message folder))
      else Ret tt
  | None => await (Mkdir folder) ;;; Ret tt
  end ;;;
  stored <- readData folder credFileName ;;
  Ret (Handle folder credFileName (js_or stored initAuthCreds)).

Definition keys_get (h : handle) (type : string) (ids : list string)
  : prog (list (string * value)) :=
  entries <-
    promise_all
      (map (fun id =>
              value <- readData (h_folder h) (key_file type id) ;;
              let value :=
                if String.eqb type "app-state-sync-key" && truthy value
                then fromObject value else value in
              Ret (id, value))
         ids) ;;
  Ret (fold_left (fun data e => obj_set data (fst e) (snd e)) entries []).

(** The entry [keys.get] stores in its result for [id]. *)
Definition get_entry (fs : FS) (h : handle) (type id : string) : string * value :=
  let value := stored_value fs (join (h_folder h) (fixFileName (key_file type id))) in
  (id, if String.eqb type "app-state-sync-key" && truthy value
       then fromObject value else value).

(** The tasks of [keys.set], in the order they are pushed. *)
Definition set_tasks (h : handle) (data : list (string * list (string * value)))
  : list (prog value) :=
  flat_map
    (fun cat =>
       map (fun e =>
              let value := snd e in
              let file := key_file (fst cat) (fst e) in
              if truthy value
              then writeData (h_folder h) value file
              else removeData (h_folder h) file)
         (snd cat))
    data.

Definition keys_set (h : handle) (data : list (string * list (string * value)))
  : prog unit :=
  promise_all (set_tasks h data) ;;; Ret tt.

Definition saveCreds (h : handle) : prog value :=
  writeData (h_folder h) (creds h) (h_credFileName h).

End Facade.

(** ** Operations in flight together *)

Inductive op : Type :=
  | OpWrite (data : value) (file : string)
  | OpRead (file : string)
  | OpRemove (file : string).

Definition perform (folder : path) (o : op) : prog value :=
  match o with
  | OpWrite data file => writeData folder data file
  | OpRead file => readData folder file
  | OpRemove file => removeData folder file
  end.

Definition op_path (folder : path) (o : op) : path :=
  match o with
  | OpWrite _ file | OpRead file | OpRemove file =>
      join folder (fixFileName file)
  end.

(** Cooperative scheduling on one thread: a task runs until it has to
    wait, for a lock or for a file-system call it has started. *)
Module Sched.

Inductive task : Type :=
  | Running (m : prog value)
  | Waiting (p : path) (k : prog value)
  | InFlight (c : syscall) (k : errno + sysret -> prog value)
  | Settled (o : outcome value).

(** Modelled from the spec: the lock [getFileLock] returns for a path;
    [getFileLock] and its mutex are missing from the source file.  A lock
    is free or held by one task, and keeps the tasks that wait for it in
    the order they asked. *)
Record lock : Type := Lock { holder : option nat; queue : list nat }.

Inductive note : Type :=
  | Requested (i : nat) (p : path)
  | Granted (i : nat) (p : path)
  | Began (i : nat) (c : syscall)
  | Ended (i : nat) (c : syscall).

Record state : Type := State {
  st_fs : FS;
  st_locks : gmap (list string) lock;
  st_tasks : list task;
  st_log : list note
}.

Definition init (fs : FS) (ms : list (prog value)) : state :=
  State fs ∅ (map Running ms) [].

Definition lock_of (st : state) (p : path) : lock :=
  match st_locks st !! p with
  | Some l => l
  | None => Lock None []
  end.

(** Modelled from the spec: the lock table and the two operations of
    the file lock manager, missing from the source file.  The table is
    [st_locks]: a path gets its lock at the first request and keeps it.
    [acquire] grants a free lock at once and otherwise puts the caller at
    the end of the queue; [release] hands the lock to the first of the
    queue, or frees it.

    Task [i] takes its next step, if it can take one: the step of its
    program, a file-system call being two steps, its start and its end. *)
Definition step (i : nat) (st : state) : state :=
  let '(State fs locks tasks log) := st in
  match tasks !! i with
  | Some (Running (Ret v)) =>
      State fs locks (<[i := Settled (Done v)]> tasks) log
  | Some (Running (Throw e)) =>
      State fs locks (<[i := Settled (Raised e)]> tasks) log
  | Some (Running (Acquire p k)) =>
      match lock_of st p with
      | Lock None q =>
          State fs (<[p := Lock (Some i) q]> locks)
            (<[i := Running k]> tasks)
            (log ++ [Requested i p; Granted i p])
      | Lock (Some j) q =>
          State fs (<[p := Lock (Some j) (q ++ [i])]> locks)
            (<[i := Waiting p k]> tasks)
            (log ++ [Requested i p])
      end
  | Some (Running (Release p k)) =>
      match lock_of st p with
      | Lock (Some j) q =>
          if Nat.eqb j i then
            match q with
            | next :: q' =>
                match tasks !! next with
                | Some (Waiting _ k') =>
                    State fs (<[p := Lock (Some next) q']> locks)
                      (<[i := Running k]> (<[next := Running k']> tasks))
                      (log ++ [Granted next p])
                | _ =>
                    (* no such case: the queue holds waiting tasks *)
                    State fs (<[p := Lock None q']> locks)
                      (<[i := Running k]> tasks) log
                end
            | [] =>
                State fs (<[p := Lock None []]> locks)
                  (<[i := Running k]> tasks) log
            end
          else State fs locks (<[i := Running k]> tasks) log
      | Lock None _ => State fs locks (<[i := Running k]> tasks) log
      end
  | Some (Running (Sys c k)) =>
      State fs locks (<[i := InFlight c k]> tasks) (log ++ [Began i c])
  | Some (InFlight c k) =>
      let '(r, fs') := sys_exec c fs in
      State fs' locks (<[i := Running (k r)]> tasks) (log ++ [Ended i c])
  | Some (Waiting _ _) | Some (Settled _) | None => st
  end.

(** A schedule names the task that moves at each turn. *)
Definition exec (schedule : list nat) (st : state) : state :=
  fold_left (fun st i => step i st) schedule st.

(** Task [i] has a file-system call on [p] under way. *)
Definition executing (st : state) (i : nat) (p : path) : Prop :=
  exists c k, st_tasks st !! i = Some (InFlight c k) /\ target c = p.

Definition requests (p : path) (log : list note) : list nat :=
  omap (fun n => match n with
                 | Requested i q => if decide (q = p) then Some i else None
                 | _ => None
                 end) log.

Definition grants (p : path) (log : list note) : list nat :=
  omap (fun n => match n with
                 | Granted i q => if decide (q = p) then Some i else None
                 | _ => None
                 end) log.

(** *** The discipline of the record store *)

(** [guarded h m]: started with the lock of [h] in hand (or none), the
    program [m] asks for a lock only when it has none, touches the file
    system only at the path whose lock it has, gives back only the lock it
    has, and ends with none. *)
Fixpoint guarded (h : option path) (m : prog value) : Prop :=
  match m with
  | Ret _ | Throw _ => h = None
  | Acquire p k => h = None /\ guarded (Some p) k
  | Release p k => h = Some p /\ guarded None k
  | Sys c k => h = Some (target c) /\ forall r, guarded h (k r)
  end.

Definition holds (st : state) (i : nat) (p : path) : Prop :=
  holder (lock_of st p) = Some i.

Definition waits (st : state) (i : nat) (p : path) : Prop :=
  i ∈ queue (lock_of st p).

Definition task_ok (st : state) (i : nat) (t : task) : Prop :=
  match t with
  | Running m =>
      exists h, guarded h m
                /\ (forall p, holds st i p <-> h = Some p)
                /\ (forall p, ~ waits st i p)
  | InFlight c k =>
      (forall r, guarded (Some (target c)) (k r))
      /\ (forall p, holds st i p <-> p = target c)
      /\ (forall p, ~ waits st i p)
  | Waiting q k =>
      guarded (Some q) k
      /\ (forall p, ~ holds st i p)
      /\ (forall p, waits st i p <-> p = q)
  | Settled _ => (forall p, ~ holds st i p) /\ (forall p, ~ waits st i p)
  end.

(** What every reachable state satisfies. *)
Record inv (st : state) : Prop := Inv {
  inv_tasks : forall i t, st_tasks st !! i = Some t -> task_ok st i t;
  inv_queue : forall p,
    NoDup (queue (lock_of st p))
    /\ (holder (lock_of st p) = None -> queue (lock_of st p) = []);
  inv_waiting : forall p j,
    waits st j p -> exists k, st_tasks st !! j = Some (Waiting p k);
  inv_fifo : forall p,
    requests p (st_log st) = grants p (st_log st) ++ queue (lock_of st p)
}.

End Sched.


(** The tasks of a [Promise.all], settled one after the other: their
    traces, how each ends, and the file system they leave. *)
Fixpoint run_each {A : Type} (ms : list (prog A)) (fs : FS)
  : list (list event) * list (exn + A) * FS :=
  match ms with
  | [] => ([], [], fs)
  | m :: ms' =>
      let '(tr, o, fs1) := run m fs in
      let '(trs, rs, fs2) := run_each ms' fs1 in
      (tr :: trs, match o with Done a => inr a | Raised e => inl e end :: rs, fs2)
  end.

(** The triples [(category, id, value)] of an update, in the order the
    two [for ... in] loops visit them. *)
Definition triples (data : list (string * list (string * value)))
  : list (string * string * value) :=
  flat_map (fun cat => map (fun e => (fst cat, fst e, snd e)) (snd cat)) data.

Definition is_dir (n : option node) : bool :=
  match n with
  | Some (Dir _) => true
  | _ => false
  end.

Definition is_file (n : option node) : bool :=
  match n with
  | Some (File _ _) => true
  | _ => false
  end.

(** ** Values that can be stored *)

(** What the walk of [JSON.stringify] with the replacer of [BufferJSON]
    makes of a value: every buffer, at any depth, becomes its tagged
    form. *)
Fixpoint encode_buffers (v : value) : value :=
  match v with
  | VBuf bs => BufferJSON.tagged bs
  | VArr elems => VArr (map encode_buffers elems)
  | VObj props => VObj (map (fun kx => (fst kx, encode_buffers (snd kx))) props)
  | _ => v
  end.

(** A value built from [null], booleans, integers, strings, buffers,
    arrays and objects, at any depth, in which no object has the same key
    twice and no plain object carries the marker of a buffer. *)
Fixpoint storable (v : value) : bool :=
  match v with
  | VUndefined => false
  | VArr elems => forallb storable elems
  | VObj props =>
      bool_decide (NoDup (map fst props))
      && negb (BufferJSON.has_marker props)
      && forallb (fun kx => storable (snd kx)) props
  | _ => true
  end.

(** A tree of JSON: no [undefined], no buffer, no key twice. *)
Fixpoint json_tree (v : value) : bool :=
  match v with
  | VUndefined | VBuf _ => false
  | VArr elems => forallb json_tree elems
  | VObj props =>
      bool_decide (NoDup (map fst props))
      && forallb (fun kx => json_tree (snd kx)) props
  | _ => true
  end.

(** The text [JSON.stringify] writes for a property value. *)
Definition text_of (v : value) : string :=
  match JSON.serialize v with
  | Some t => t
  | None => "null"
  end.

Definition member_text (kx : string * value) : string :=
  JSON.quote (fst kx) +:+ ":" +:+ text_of (snd kx).

(** The depth of calls the parser needs for the text of a value. *)
Fixpoint need (v : value) : nat :=
  match v with
  | VArr elems => S (fold_right (fun x n => S (Nat.max (need x) n)) O elems)
  | VObj props =>
      S (fold_right (fun kx n => S (Nat.max (need (snd kx)) n)) O props)
  | _ => 1%nat
  end.

(** What may follow a number in a text: not a digit, and neither a
    fraction nor an exponent. *)
Definition delimited (rest : string) : bool :=
  match rest with
  | EmptyString => true
  | String c _ => negb (JSON.is_digit c) && negb (JSON.continues_number rest)
  end.

(** The first character of the text of a value is neither white space
    nor a closing bracket. *)
Definition head_ok (t : string) : bool :=
  match t with
  | String c _ =>
      negb (JSON.is_json_ws c) && negb (Ascii.eqb c "]") && negb (Ascii.eqb c "}")
  | EmptyString => false
  end.

(** What the parser owes for the text of one value. *)
Definition parses_back (w : value) : Prop :=
  JSON.serialize w = Some (text_of w)
  /\ head_ok (text_of w) = true
  /\ forall fuel rest,
       (need w <= fuel)%nat -> delimited rest = true ->
       JSON.parse_value fuel (text_of w +:+ rest) = Some (w, rest).

(** Example states of the file system. *)
Definition fs_readonly_dir : FS :=
  {[ [] := Dir rw;
     ["s"] := Dir (Mode true false);
     ["s"; "k-1.json"] := File "1" rw ]}.

Definition fs_session_empty : FS :=
  {[ [] := Dir rw; ["s"] := Dir rw ]}.


Definition fs_root : FS := {[ [] := Dir rw ]}.

Definition fs_file_in_the_way : FS :=
  {[ [] := Dir rw; ["s"] := File "x" rw ]}.

(** The JSON texts of the falsy values [null], [false], [0] and the
    empty string. *)
Definition falsy_texts : list string :=
  ["null"; "false"; "0"; String JSON.dquote (String JSON.dquote EmptyString)].

Definition fs_falsy_creds : FS :=
  {[ [] := Dir rw; ["s"] := Dir rw; ["s"; "auth.json"] := File "0" rw ]}.


Definition nested_payload : value :=
  VObj [("keys", VArr [VBuf [x01; xff]; VNum (-3)]); ("name", VStr "x")].

(** Two operations on different files, and two on the same file. *)
Definition two_files : Sched.state :=
  Sched.init fs_session_empty
    (map (perform ["s"]) [OpWrite (VNum 1) "a.json"; OpWrite (VNum 2) "b.json"]).

Definition one_file : Sched.state :=
  Sched.init fs_session_empty
    (map (perform ["s"]) [OpWrite (VNum 1) "a.json"; OpWrite (VNum 2) "a.json"]).

(** Two writes to the same file that take no lock. *)
Definition unlocked : Sched.state :=
  Sched.init fs_session_empty
    [await (WriteFile ["s"; "a.json"] "1") ;;; Ret VUndefined;
     await (WriteFile ["s"; "a.json"] "2") ;;; Ret VUndefined].

(** The file-system calls of a log, in the order they began. *)
Definition began (log : list Sched.note) : list nat :=
  omap (fun n => match n with Sched.Began i _ => Some i | _ => None end) log.

Definition fs_odd_files : FS :=
  {[ [] := Dir rw;
     ["s"] := Dir rw;
     ["s"; "broken.json"] := File "{" rw;
     ["s"; "secret.json"] := File "1" (Mode false true);
     ["s"; "sub.json"] := Dir rw;
     ["s"; "good.json"] := File "[1, true]" rw ]}.

(** ** Names on disk *)

(** No character of the text is a separator or a colon. *)
Definition plain_name (s : string) : bool :=
  Str.forallb (fun x => negb (Ascii.eqb x "/") && negb (Ascii.eqb x ":")) s.

Definition has_hyphen (s : string) : bool :=
  negb (Str.forallb (fun x => negb (Ascii.eqb x "-")) s).

(** The path of the record of a category and an id, and the path of the
    credential file of a session name. *)
Definition key_path (folder : path) (category id : string) : path :=
  join folder (fixFileName (key_file category id)).

Definition cred_path (folder : path) (name : option string) : path :=
  join folder (fixFileName (cred_file (sanitizeName name))).

(** The operation [keys.set] starts for a triple. *)
Definition set_op (t : string * string * value) : op :=
  let '(category, id, value) := t in
  if truthy value then OpWrite value (key_file category id)
  else OpRemove (key_file category id).

Definition triple_path (folder : path) (t : string * string * value) : path :=
  key_path folder (fst (fst t)) (snd (fst t)).

(** Whatever file there is at [p] can be read. *)
Definition readable_at (fs : FS) (p : path) : Prop :=
  forall text m, fs !! p = Some (File text m) -> can_read m = true.


(** ** Tasks that can move *)

(** A task that can take a step, and a task that has come to its end. *)
Definition live (t : Sched.task) : bool :=
  match t with
  | Sched.Running _ | Sched.InFlight _ _ => true
  | _ => false
  end.

Definition settled (t : Sched.task) : bool :=
  match t with
  | Sched.Settled _ => true
  | _ => false
  end.

(** Whoever holds a lock is one of the tasks. *)
Definition held_by_tasks (st : Sched.state) : Prop :=
  forall p j, Sched.holder (Sched.lock_of st p) = Some j ->
              (j < length (Sched.st_tasks st))%nat.

(** [within n m]: the program [m] comes to its end in at most [n] steps,
    whatever the file system answers; a call is two steps, its start and
    its end. *)
Fixpoint within (n : nat) (m : prog value) : Prop :=
  match m with
  | Ret _ | Throw _ => (1 <= n)%nat
  | Acquire _ k | Release _ k => (1 <= n)%nat /\ within (n - 1) k
  | Sys _ k => (2 <= n)%nat /\ forall r, within (n - 2) (k r)
  end.

Definition task_within (n : nat) (t : Sched.task) : Prop :=
  match t with
  | Sched.Running m | Sched.Waiting _ m => within n m
  | Sched.InFlight _ k => (1 <= n)%nat /\ forall r, within (n - 1) (k r)
  | Sched.Settled _ => True
  end.

(** Task [i] can take a step. *)
Definition can_move (st : Sched.state) (i : nat) : bool :=
  match Sched.st_tasks st !! i with
  | Some t => live t
  | None => false
  end.

(** The number of turns of a schedule at which the task named moves. *)
Fixpoint moves (schedule : list nat) (st : Sched.state) : nat :=
  match schedule with
  | [] => 0
  | i :: s => ((if can_move st i then 1 else 0) + moves s (Sched.step i st))%nat
  end.

(** ** Tasks side by side *)

(** What a task yields, and the file system it leaves, when it is left
    to run to its end from here. *)
Definition finish (t : Sched.task) (fs : FS) : outcome value * FS :=
  match t with
  | Sched.Running m | Sched.Waiting _ m =>
      (result_of (run m fs), fs_of (run m fs))
  | Sched.InFlight c k =>
      let '(r, fs1) := sys_exec c fs in
      (result_of (run (k r) fs1), fs_of (run (k r) fs1))
  | Sched.Settled o => (o, fs)
  end.

(** A read, a write or a removal of the file at [p]. *)
Definition file_call (p : path) (c : syscall) : Prop :=
  match c with
  | ReadFile q | WriteFile q _ | Unlink q => q = p
  | Stat _ | Mkdir _ => False
  end.

(** Every call of the program is a call on the file at [p]. *)
Fixpoint confined (p : path) (m : prog value) : Prop :=
  match m with
  | Ret _ | Throw _ => True
  | Acquire _ k | Release _ k => confined p k
  | Sys c k => file_call p c /\ forall r, confined p (k r)
  end.

Definition task_confined (p : path) (t : Sched.task) : Prop :=
  match t with
  | Sched.Running m | Sched.Waiting _ m => confined p m
  | Sched.InFlight c k => file_call p c /\ forall r, confined p (k r)
  | Sched.Settled _ => True
  end.

(** Two file systems with the same file at [p], in the same directory. *)
Definition agree (p : path) (fs1 fs2 : FS) : Prop :=
  fs1 !! p = fs2 !! p /\ fs1 !! parent p = fs2 !! parent p.

(** The tasks of the operations [ops], started on [fs0], are on their
    course: each is about to end as it would have ended alone on [fs0],
    leaving its file as it would have left it, and no other path has
    changed. *)
Definition on_course (folder : path) (fs0 : FS) (ops : list op)
  (st : Sched.state) : Prop :=
  (forall i o t,
     ops !! i = Some o -> Sched.st_tasks st !! i = Some t ->
     task_confined (op_path folder o) t
     /\ fst (finish t (Sched.st_fs st)) = result_of (run (perform folder o) fs0)
     /\ snd (finish t (Sched.st_fs st)) !! op_path folder o
        = fs_of (run (perform folder o) fs0) !! op_path folder o)
  /\ (forall q, q ∉ map (op_path folder) ops -> Sched.st_fs st !! q = fs0 !! q)
  /\ length (Sched.st_tasks st) = length ops.

Definition as_result (o : outcome value) : exn + value :=
  match o with
  | Done a => inr a
  | Raised e => inl e
  end.

(** * Properties *)

(** ** Strings *)

Lemma append_cons (c : ascii) (a b : string) :
  String c a +:+ b = String c (a +:+ b).
Proof. reflexivity. Qed.

Lemma append_nil_l (s : string) : EmptyString +:+ s = s.
Proof. reflexivity. Qed.

Lemma append_nil_r (s : string) : s +:+ EmptyString = s.
Proof.
  induction s as [|c s IH]; [reflexivity|]. by rewrite append_cons, IH.
Qed.

Lemma append_assoc (a b c : string) : (a +:+ b) +:+ c = a +:+ b +:+ c.
Proof.
  induction a as [|x a IH]; [reflexivity|]. by rewrite !append_cons, IH.
Qed.

Lemma length_append (a b : string) :
  String.length (a +:+ b) = (String.length a + String.length b)%nat.
Proof.
  induction a as [|x a IH]; [reflexivity|]. rewrite append_cons. cbn.
  by rewrite IH.
Qed.

Lemma forallb_append f (a b : string) :
  Str.forallb f (a +:+ b) = Str.forallb f a && Str.forallb f b.
Proof.
  induction a as [|x a IH]; [reflexivity|]. rewrite append_cons. cbn.
  rewrite IH. by rewrite andb_assoc.
Qed.

Lemma replace_char_append c r (a b : string) :
  Str.replace_char c r (a +:+ b) = Str.replace_char c r a +:+ Str.replace_char c r b.
Proof.
  induction a as [|x a IH]; [reflexivity|]. rewrite append_cons. cbn.
  destruct (Ascii.eqb x c); rewrite IH; [by rewrite append_assoc | reflexivity].
Qed.

Lemma fixFileName_append (a b : string) :
  fixFileName (a +:+ b) = fixFileName a +:+ fixFileName b.
Proof. unfold fixFileName. by rewrite !replace_char_append. Qed.

Lemma replace_char_absent c r (s : string) :
  Str.forallb (fun x => negb (Ascii.eqb x c)) r = true ->
  Str.forallb (fun x => negb (Ascii.eqb x c)) (Str.replace_char c r s) = true.
Proof.
  intros Hr. induction s as [|x s IH]; [reflexivity|]. cbn.
  destruct (Ascii.eqb x c) eqn:E.
  - by rewrite forallb_append, Hr, IH.
  - cbn. by rewrite E, IH.
Qed.

Lemma replace_char_keeps c d r (s : string) :
  Str.forallb (fun x => negb (Ascii.eqb x d)) s = true ->
  Str.forallb (fun x => negb (Ascii.eqb x d)) r = true ->
  Str.forallb (fun x => negb (Ascii.eqb x d)) (Str.replace_char c r s) = true.
Proof.
  intros Hs Hr. induction s as [|x s IH]; [reflexivity|].
  cbn in Hs. apply andb_prop in Hs as [Hx Hs]. cbn.
  destruct (Ascii.eqb x c).
  - by rewrite forallb_append, Hr, IH.
  - cbn. by rewrite Hx, IH.
Qed.

(** The name on disk holds neither a separator nor a colon. *)
Lemma fixFileName_clean (file : string) :
  Str.forallb (fun x => negb (Ascii.eqb x "/") && negb (Ascii.eqb x ":"))
    (fixFileName file) = true.
Proof.
  assert (H1 : Str.forallb (fun x => negb (Ascii.eqb x "/")) (fixFileName file) = true).
  { unfold fixFileName. apply replace_char_keeps; [|reflexivity].
    by apply replace_char_absent. }
  assert (H2 : Str.forallb (fun x => negb (Ascii.eqb x ":")) (fixFileName file) = true).
  { unfold fixFileName. by apply replace_char_absent. }
  revert H1 H2. generalize (fixFileName file) as s.
  induction s as [|x s IH]; [reflexivity|]. cbn.
  intros [-> ?]%andb_prop [-> ?]%andb_prop. cbn. by apply IH.
Qed.

(** ** The base name *)

Lemma trimStart_no_leading (s : string) : starts_ws (trimStart s) = false.
Proof.
  induction s as [|c s IH]; [reflexivity|]. cbn.
  destruct (is_space c) eqn:E; [done|]. cbn. by rewrite E.
Qed.

Lemma trimEnd_no_trailing (s : string) : ends_ws (trimEnd s) = false.
Proof.
  induction s as [|c s IH]; [reflexivity|]. cbn.
  destruct (trimEnd s) as [|d t] eqn:Et.
  - destruct (is_space c) eqn:E; cbn; [done|]. by rewrite E.
  - rewrite andb_false_r. cbn. exact IH.
Qed.

Lemma trimEnd_keeps_start (s : string) :
  starts_ws s = false -> starts_ws (trimEnd s) = false.
Proof.
  destruct s as [|c s]; [done|]. cbn. intros H. rewrite H. cbn. exact H.
Qed.

Lemma trim_no_edges (s : string) :
  starts_ws (trim s) = false /\ ends_ws (trim s) = false.
Proof.
  unfold trim. split.
  - apply trimEnd_keeps_start, trimStart_no_leading.
  - apply trimEnd_no_trailing.
Qed.

Lemma trimStart_split (s : string) :
  exists l, s = l +:+ trimStart s /\ Str.forallb is_space l = true.
Proof.
  induction s as [|c s (l & Hl & Hsp)]; [by exists EmptyString|]. cbn.
  destruct (is_space c) eqn:E.
  - exists (String c l). rewrite append_cons, <- Hl. cbn. by rewrite E, Hsp.
  - by exists EmptyString.
Qed.

Lemma trimEnd_split (s : string) :
  exists r, s = trimEnd s +:+ r /\ Str.forallb is_space r = true.
Proof.
  induction s as [|c s (r & Hr & Hsp)]; [by exists EmptyString|]. cbn.
  destruct (is_space c && Str.is_empty (trimEnd s)) eqn:E.
  - apply andb_prop in E as [Ec Ee].
    destruct (trimEnd s); [|done]. rewrite append_nil_l in Hr. subst r.
    exists (String c s). cbn. by rewrite Ec, Hsp.
  - exists r. by rewrite append_cons, <- Hr.
Qed.

(** Trimming removes white space at both ends and nothing else. *)
Lemma trim_split (s : string) :
  exists l r, s = l +:+ trim s +:+ r
              /\ Str.forallb is_space l = true
              /\ Str.forallb is_space r = true.
Proof.
  destruct (trimStart_split s) as (l & Hl & Hls).
  destruct (trimEnd_split (trimStart s)) as (r & Hr & Hrs).
  exists l, r. unfold trim. by rewrite <- Hr.
Qed.

Lemma words_nil (s : string) :
  words s = [] -> s = EmptyString \/ ends_ws s = true.
Proof.
  induction s as [|c s IH]; [by left|]. cbn.
  destruct (is_space c) eqn:E.
  - intros [->|Hs]%IH; right; [done|]. by destruct s.
  - destruct s as [|d s]; [done|].
    destruct (is_space d); [done|]. by destruct (words (String d s)).
Qed.

Lemma concat_cons_word (c : ascii) (w : string) (ws : list string) :
  Str.concat "_" (String c w :: ws) = String c (Str.concat "_" (w :: ws)).
Proof. by destruct ws. Qed.

Lemma replace_ws_runs_words (s : string) :
  ends_ws s = false -> replace_ws_runs true s = Str.concat "_" (words s).
Proof.
  induction s as [|c s IH]; [reflexivity|]. intros He.
  assert (Hs : s = EmptyString \/ ends_ws s = false).
  { destruct s; [by left|by right]. }
  cbn [replace_ws_runs words]. destruct (is_space c) eqn:E.
  - destruct Hs as [->|Hs]; [cbn in He; congruence|]. by apply IH.
  - destruct Hs as [->|Hs]; [reflexivity|]. specialize (IH Hs).
    destruct s as [|d s]; [reflexivity|].
    cbn [replace_ws_runs] in IH |- *. destruct (is_space d) eqn:Ed.
    + f_equal. rewrite IH.
      destruct (words (String d s)) as [|w ws] eqn:Ew; [|reflexivity].
      apply words_nil in Ew as [?|?]; congruence.
    + rewrite IH. destruct (words (String d s)) as [|w ws] eqn:Ew.
      * cbn in Ew. rewrite Ed in Ew.
        destruct s as [|x s]; [done|].
        destruct (is_space x); [done|]. by destruct (words (String x s)).
      * by rewrite concat_cons_word.
Qed.

Lemma replace_ws_runs_trimmed (s : string) :
  starts_ws s = false -> ends_ws s = false ->
  replace_ws_runs false s = Str.concat "_" (words s).
Proof.
  intros Hs He. rewrite <- (replace_ws_runs_words s He).
  destruct s as [|c s]; [reflexivity|]. cbn in Hs |- *. by rewrite Hs.
Qed.

Lemma filter_forallb f (s : string) : Str.forallb f (Str.filter f s) = true.
Proof.
  induction s as [|c s IH]; [reflexivity|]. cbn.
  destruct (f c) eqn:E; [|done]. cbn. by rewrite E.
Qed.

Lemma take_forallb f n (s : string) :
  Str.forallb f s = true -> Str.forallb f (Str.take n s) = true.
Proof.
  revert s. induction n as [|n IH]; intros [|c s]; try done. cbn.
  intros [-> ?]%andb_prop. cbn. by apply IH.
Qed.

Lemma take_length n (s : string) : (String.length (Str.take n s) <= n)%nat.
Proof.
  revert s. induction n as [|n IH]; intros [|c s]; cbn; try lia.
  specialize (IH s). lia.
Qed.

Lemma take_all n (s : string) : (String.length s <= n)%nat -> Str.take n s = s.
Proof.
  revert s. induction n as [|n IH]; intros [|c s]; cbn; try done; try lia.
  intros H. f_equal. apply IH. lia.
Qed.

Lemma trimStart_all_space (s : string) :
  Str.forallb is_space s = true -> trimStart s = EmptyString.
Proof.
  induction s as [|c s IH]; [done|]. cbn.
  intros [-> Hs]%andb_prop. by apply IH.
Qed.

Lemma str_or_nonempty (x d : string) :
  d <> EmptyString -> str_or x d <> EmptyString.
Proof. by destruct x. Qed.

(** C7: the base name is the trimmed input, or [auth] when that is empty,
    with each run of white space turned into one underscore, every
    character outside [A-Za-z0-9_] removed, cut after 8 characters, and
    [auth] when nothing is left; it has at most 8 characters, all of them
    in [A-Za-z0-9_], and is not empty. *)
Theorem C7_sanitizeName (input : option string) :
  sanitizeName input = sanitizeBaseName_spec input
  /\ (String.length (sanitizeName input) <= 8)%nat
  /\ Str.forallb is_word (sanitizeName input) = true
  /\ sanitizeName input <> EmptyString
  /\ (match input with
      | Some i => Str.forallb is_space i = true
      | None => True
      end -> sanitizeName input = "auth").
Proof.
  assert (Hshape : forall base,
    let r := Str.filter is_word (replace_ws_runs false base) in
    let r := if (8 <? String.length r)%nat then Str.take 8 r else r in
    (String.length (str_or r "auth") <= 8)%nat
    /\ Str.forallb is_word (str_or r "auth") = true
    /\ str_or r "auth" <> EmptyString
    /\ str_or r "auth" =
         str_or (Str.take 8 (Str.filter is_word (replace_ws_runs false base))) "auth").
  { intros base. cbn zeta.
    set (f := Str.filter is_word (replace_ws_runs false base)).
    assert (Hf : Str.forallb is_word f = true) by apply filter_forallb.
    destruct (8 <? String.length f)%nat eqn:E.
    - split; [|split; [|split]]; try reflexivity.
      + pose proof (take_length 8 f). unfold str_or.
        destruct (Str.take 8 f); cbn in *; lia.
      + unfold str_or. pose proof (take_forallb is_word 8 f Hf).
        by destruct (Str.take 8 f).
      + by apply str_or_nonempty.
    - apply Nat.ltb_ge in E.
      split; [|split; [|split]].
      + unfold str_or. destruct f; cbn in *; lia.
      + unfold str_or. by destruct f.
      + by apply str_or_nonempty.
      + by rewrite take_all. }
  split.
  { unfold sanitizeName, sanitizeBaseName_spec.
    set (t := match input with Some i => trim i | None => EmptyString end).
    destruct (Hshape (str_or t "auth")) as (_ & _ & _ & ->).
    assert (Ht : starts_ws t = false /\ ends_ws t = false).
    { subst t. destruct input; [apply trim_no_edges|done]. }
    destruct t as [|c t]; [reflexivity|].
    unfold str_or at 2. cbn [Str.is_empty].
    by rewrite replace_ws_runs_trimmed by apply Ht. }
  unfold sanitizeName.
  destruct (Hshape (str_or match input with Some i => trim i | None => EmptyString end "auth"))
    as (H1 & H2 & H3 & H4).
  repeat split; try done.
  intros Hi.
  assert (Ht : match input with Some i => trim i | None => EmptyString end = EmptyString).
  { destruct input as [i|]; [|done].
    unfold trim.
    by rewrite trimStart_all_space. }
  by rewrite Ht.
Qed.

(** ** The three operations of the record store, run alone *)

#[local] Arguments fs_writeFile : simpl never.
#[local] Arguments fs_readFile : simpl never.
#[local] Arguments fs_unlink : simpl never.
#[local] Arguments fs_mkdir : simpl never.
#[local] Arguments fs_stat : simpl never.
#[local] Arguments JSON.stringify : simpl never.
#[local] Arguments JSON.parse : simpl never.
#[local] Arguments fixFileName : simpl never.
#[local] Arguments join : simpl never.

Lemma run_writeData (folder : path) (data : value) (file : string) (fs : FS) :
  let p := join folder (fixFileName file) in
  run (writeData folder data file) fs =
    match JSON.stringify data BufferJSON.replacer with
    | None => ([EvAcquire p; EvRelease p], Raised TypeError, fs)
    | Some text =>
        match fs_writeFile fs p text with
        | inr fs' =>
            ([EvAcquire p; EvSys (WriteFile p text) (inr RDone); EvRelease p],
             Done VUndefined, fs')
        | inl e =>
            ([EvAcquire p; EvSys (WriteFile p text) (inl e); EvRelease p],
             Raised (IOError e (WriteFile p text)), fs)
        end
    end.
Proof.
  cbn. unfold writeData.
  destruct (JSON.stringify data BufferJSON.replacer) as [text|]; cbn; [|done].
  by destruct (fs_writeFile fs _ text).
Qed.

Lemma run_readData (folder : path) (file : string) (fs : FS) :
  let p := join folder (fixFileName file) in
  run (readData folder file) fs =
    ([EvAcquire p; EvSys (ReadFile p) (fs_readFile fs p); EvRelease p],
     Done match fs_readFile fs p with
          | inr (RText data) =>
              match JSON.parse data BufferJSON.reviver with
              | Some v => v
              | None => VNull
              end
          | _ => VNull
          end,
     fs).
Proof.
  cbn. unfold readData. cbn.
  destruct (fs_readFile fs _) as [e|[|data|d]]; cbn; try done.
  by destruct (JSON.parse data BufferJSON.reviver).
Qed.

Lemma run_removeData (folder : path) (file : string) (fs : FS) :
  let p := join folder (fixFileName file) in
  run (removeData folder file) fs =
    match fs_unlink fs p with
    | inr fs' =>
        ([EvAcquire p; EvSys (Unlink p) (inr RDone); EvRelease p],
         Done VUndefined, fs')
    | inl e =>
        ([EvAcquire p; EvSys (Unlink p) (inl e); EvRelease p],
         Done VUndefined, fs)
    end.
Proof.
  cbn. unfold removeData. cbn. by destruct (fs_unlink fs _).
Qed.

Lemma run_bind {A B : Type} (m : prog A) (f : A -> prog B) (fs : FS) :
  run (x <- m ;; f x) fs =
    let '(tr, o, fs1) := run m fs in
    match o with
    | Done a => let '(tr', o', fs2) := run (f a) fs1 in (tr ++ tr', o', fs2)
    | Raised e => (tr, Raised e, fs1)
    end.
Proof.
  revert fs. induction m as [a|e|p k IH|p k IH|c k IH]; intros fs; cbn.
  - by destruct (run (f a) fs) as [[tr o] fs'].
  - done.
  - rewrite IH. destruct (run k fs) as [[tr o] fs1].
    destruct o; [|done]. by destruct (run (f a) fs1) as [[tr' o'] fs2].
  - rewrite IH. destruct (run k fs) as [[tr o] fs1].
    destruct o; [|done]. by destruct (run (f a) fs1) as [[tr' o'] fs2].
  - destruct (sys_exec c fs) as [r fs1]. rewrite IH.
    destruct (run (k r) fs1) as [[tr o] fs2].
    destruct o; [|done]. by destruct (run (f a) fs2) as [[tr' o'] fs3].
Qed.

Lemma run_try_catch {A : Type} (m : prog A) (h : exn -> prog A) (fs : FS) :
  run (try_catch m h) fs =
    let '(tr, o, fs1) := run m fs in
    match o with
    | Done a => (tr, Done a, fs1)
    | Raised e => let '(tr', o', fs2) := run (h e) fs1 in (tr ++ tr', o', fs2)
    end.
Proof.
  revert fs. induction m as [a|e|p k IH|p k IH|c k IH]; intros fs; cbn.
  - done.
  - by destruct (run (h e) fs) as [[tr o] fs'].
  - rewrite IH. destruct (run k fs) as [[tr o] fs1].
    destruct o; [done|]. by destruct (run (h e) fs1) as [[tr' o'] fs2].
  - rewrite IH. destruct (run k fs) as [[tr o] fs1].
    destruct o; [done|]. by destruct (run (h e) fs1) as [[tr' o'] fs2].
  - destruct (sys_exec c fs) as [r fs1]. rewrite IH.
    destruct (run (k r) fs1) as [[tr o] fs2].
    destruct o; [done|]. by destruct (run (h e) fs2) as [[tr' o'] fs3].
Qed.

Lemma touched_writeData (folder : path) (data : value) (file : string) (fs : FS) :
  touched (trace_of (run (writeData folder data file) fs)) =
    match JSON.stringify data BufferJSON.replacer with
    | Some _ => [join folder (fixFileName file)]
    | None => []
    end.
Proof.
  rewrite run_writeData.
  destruct (JSON.stringify data BufferJSON.replacer) as [text|]; [|done].
  by destruct (fs_writeFile fs _ text).
Qed.

Lemma touched_readData (folder : path) (file : string) (fs : FS) :
  touched (trace_of (run (readData folder file) fs))
    = [join folder (fixFileName file)].
Proof. by rewrite run_readData. Qed.

Lemma touched_removeData (folder : path) (file : string) (fs : FS) :
  touched (trace_of (run (removeData folder file) fs))
    = [join folder (fixFileName file)].
Proof. rewrite run_removeData. by destruct (fs_unlink fs _). Qed.

(** C9: the record of a category and an id is kept under the name that
    [fixFileName] gives for the whole composed name: every [/] has become
    [__] and every [:] has become [-], so an id [a/b] gives the segment
    [a__b]; substituting in the category and in the id separately gives
    the same name. *)
Theorem C9_file_name_substitution (folder : path) (category id : string)
  (data : value) (fs : FS) :
  let name :=
    Str.replace_char ":" "-"
      (Str.replace_char "/" "__" (category +:+ "-" +:+ id +:+ ".json")) in
  touched (trace_of (run (writeData folder data (key_file category id)) fs))
    = match JSON.stringify data BufferJSON.replacer with
      | Some _ => [folder ++ [name]]
      | None => []
      end
  /\ touched (trace_of (run (readData folder (key_file category id)) fs))
     = [folder ++ [name]]
  /\ touched (trace_of (run (removeData folder (key_file category id)) fs))
     = [folder ++ [name]]
  /\ name = fixFileName category +:+ "-" +:+ fixFileName id +:+ ".json"
  /\ Str.forallb (fun x => negb (Ascii.eqb x "/") && negb (Ascii.eqb x ":"))
       name = true
  /\ fixFileName "a/b" = "a__b"
  /\ fixFileName "a:b" = "a-b".
Proof.
  intros name.
  split; [apply touched_writeData|].
  split; [apply touched_readData|].
  split; [apply touched_removeData|].
  split.
  { change name with (fixFileName (key_file category id)).
    unfold key_file. by rewrite !fixFileName_append. }
  split; [apply fixFileName_clean|].
  split; reflexivity.
Qed.

(** ** Reading *)

#[local] Arguments run : simpl never.

(** C3: [readData] never throws: it yields [null] when the file is
    missing, when reading it fails for any other reason, and when its text
    does not parse; it yields the parsed value otherwise. *)
Theorem C3_readData_soft_miss (folder : path) (file : string) (fs : FS) :
  let p := join folder (fixFileName file) in
  let res := result_of (run (readData folder file) fs) in
  (exists v, res = Done v)
  /\ fs_of (run (readData folder file) fs) = fs
  /\ (fs !! p = None -> res = Done VNull)
  /\ (forall e, fs_readFile fs p = inl e -> res = Done VNull)
  /\ (forall text m, fs !! p = Some (File text m) -> can_read m = false ->
        res = Done VNull)
  /\ (forall text, fs_readFile fs p = inr (RText text) ->
        JSON.parse text BufferJSON.reviver = None -> res = Done VNull)
  /\ (forall text v, fs_readFile fs p = inr (RText text) ->
        JSON.parse text BufferJSON.reviver = Some v -> res = Done v).
Proof.
  intros p res. subst res. rewrite run_readData. fold p. cbn.
  split; [eauto|]. split; [done|].
  split. { intros H. unfold fs_readFile. by rewrite H. }
  split. { by intros e ->. }
  split. { intros text m H Hm. unfold fs_readFile. by rewrite H, Hm. }
  split; [by intros text -> ->|by intros text v -> ->].
Qed.

(** A missing file, a text that is no JSON, a file that may not be read
    and a directory all read as [null]. *)
Example read_soft_misses :
  result_of (run (readData ["s"] "missing.json") fs_odd_files) = Done VNull
  /\ result_of (run (readData ["s"] "broken.json") fs_odd_files) = Done VNull
  /\ result_of (run (readData ["s"] "secret.json") fs_odd_files) = Done VNull
  /\ result_of (run (readData ["s"] "sub.json") fs_odd_files) = Done VNull
  /\ result_of (run (readData ["s"] "good.json") fs_odd_files)
     = Done (VArr [VNum 1; VBool true]).
Proof. rewrite !run_readData. repeat split; vm_compute; reflexivity. Qed.

(** ** Writing and removing *)

(** A write into a directory that may not be written is thrown. *)
Example write_failure_is_thrown :
  run (writeData ["s"] (VNum 2) "k-2.json") fs_readonly_dir
  = ([EvAcquire ["s"; "k-2.json"];
      EvSys (WriteFile ["s"; "k-2.json"] "2") (inl EACCES);
      EvRelease ["s"; "k-2.json"]],
     Raised (IOError EACCES (WriteFile ["s"; "k-2.json"] "2")),
     fs_readonly_dir).
Proof. rewrite run_writeData. reflexivity. Qed.

(** [unlink] fails for want of permission, the file stays, and
    [removeData] returns as if nothing had happened. *)
Lemma C4_remove_failure_swallowed :
  fs_unlink fs_readonly_dir ["s"; "k-1.json"] = inl EACCES
  /\ run (removeData ["s"] "k-1.json") fs_readonly_dir
     = ([EvAcquire ["s"; "k-1.json"];
         EvSys (Unlink ["s"; "k-1.json"]) (inl EACCES);
         EvRelease ["s"; "k-1.json"]],
        Done VUndefined, fs_readonly_dir).
Proof. split; [reflexivity|]. rewrite run_removeData. reflexivity. Qed.

(** C4, amended: a failed write is thrown to the caller of [writeData],
    with the error of the file system, and leaves the file system as it
    was; [removeData] returns normally whatever [unlink] does, a failure of
    any kind is swallowed and leaves the file system as it was. *)
Theorem C4_write_failure_propagates (folder : path) (data : value)
  (file : string) (fs : FS) :
  let p := join folder (fixFileName file) in
  (forall text e,
     JSON.stringify data BufferJSON.replacer = Some text ->
     fs_writeFile fs p text = inl e ->
     run (writeData folder data file) fs
       = ([EvAcquire p; EvSys (WriteFile p text) (inl e); EvRelease p],
          Raised (IOError e (WriteFile p text)), fs))
  /\ (forall text fs',
       JSON.stringify data BufferJSON.replacer = Some text ->
       fs_writeFile fs p text = inr fs' ->
       result_of (run (writeData folder data file) fs) = Done VUndefined)
  /\ result_of (run (removeData folder file) fs) = Done VUndefined
  /\ (forall e, fs_unlink fs p = inl e ->
       fs_of (run (removeData folder file) fs) = fs).
Proof.
  intros p. rewrite run_writeData, run_removeData. fold p.
  split. { by intros text e -> ->. }
  split. { by intros text fs' -> ->. }
  split. { by destruct (fs_unlink fs p). }
  by intros e ->.
Qed.

(** ** Batches *)

Lemma run_ret {A : Type} (a : A) (fs : FS) : run (Ret a) fs = ([], Done a, fs).
Proof. reflexivity. Qed.

Lemma run_throw {A : Type} (e : exn) (fs : FS) :
  run (Throw e : prog A) fs = ([], Raised e, fs).
Proof. reflexivity. Qed.

Lemma run_settle {A : Type} (m : prog A) (fs : FS) :
  run (settle m) fs =
    let '(tr, o, fs1) := run m fs in
    (tr, Done match o with Done a => inr a | Raised e => inl e end, fs1).
Proof.
  unfold settle. rewrite run_try_catch, run_bind.
  destruct (run m fs) as [[tr o] fs1]. destruct o as [a|e].
  - rewrite run_ret. by rewrite app_nil_r.
  - rewrite run_ret. by rewrite app_nil_r.
Qed.

Lemma run_settle_all {A : Type} (ms : list (prog A)) (fs : FS) :
  run (settle_all ms) fs =
    let '(trs, rs, fs') := run_each ms fs in (concat trs, Done rs, fs').
Proof.
  revert fs. induction ms as [|m ms IH]; intros fs; [reflexivity|].
  cbn [settle_all run_each]. rewrite run_bind, run_settle.
  destruct (run m fs) as [[tr o] fs1]. rewrite run_bind, IH.
  destruct (run_each ms fs1) as [[trs rs] fs2]. rewrite run_ret.
  cbn. by rewrite app_nil_r.
Qed.

(** [Promise.all] lets every task run to its end, whether or not one of
    them fails. *)
Lemma run_promise_all {A : Type} (ms : list (prog A)) (fs : FS) :
  run (promise_all ms) fs =
    let '(trs, rs, fs') := run_each ms fs in
    (concat trs,
     match collect rs with inr l => Done l | inl e => Raised e end,
     fs').
Proof.
  unfold promise_all. rewrite run_bind, run_settle_all.
  destruct (run_each ms fs) as [[trs rs] fs'].
  destruct (collect rs); [rewrite run_throw|rewrite run_ret]; by rewrite app_nil_r.
Qed.

Lemma set_tasks_triples (h : handle) (data : list (string * list (string * value))) :
  set_tasks h data =
    map (fun t =>
           let '(category, id, value) := t in
           if truthy value
           then writeData (h_folder h) value (key_file category id)
           else removeData (h_folder h) (key_file category id))
      (triples data).
Proof.
  unfold set_tasks, triples.
  induction data as [|[category ids] data IH]; [reflexivity|].
  cbn [flat_map]. rewrite map_app, <- IH. f_equal.
  cbn [fst snd]. by rewrite map_map.
Qed.



(** ** Reading back *)

Lemma run_readData_stored (folder : path) (file : string) (fs : FS) :
  let p := join folder (fixFileName file) in
  run (readData folder file) fs =
    ([EvAcquire p; EvSys (ReadFile p) (fs_readFile fs p); EvRelease p],
     Done (stored_value fs p), fs).
Proof. apply run_readData. Qed.

Section Reading.

Variable fromObject : value -> value.

Lemma run_keys_get (h : handle) (type : string) (ids : list string) (fs : FS) :
  result_of (run (keys_get fromObject h type ids) fs)
    = Done (fold_left (fun data e => obj_set data (fst e) (snd e))
              (map (get_entry fromObject fs h type) ids) [])
  /\ fs_of (run (keys_get fromObject h type ids) fs) = fs.
Proof.
  unfold keys_get. rewrite run_bind, run_promise_all.
  match goal with |- context [run_each ?l fs] => set (tasks := l) end.
  assert (H : exists trs,
    run_each tasks fs = (trs, map inr (map (get_entry fromObject fs h type) ids), fs)).
  { subst tasks. induction ids as [|id ids [trs IH]]; [by eexists|].
    cbn [map run_each]. rewrite run_bind, run_readData_stored, run_ret, IH.
    by eexists. }
  destruct H as [trs ->].
  assert (Hc : forall (l : list (string * value)),
            collect (map inr l) = (inr l : exn + _)).
  { induction l as [|x l IH]; [done|]. cbn. by rewrite IH. }
  rewrite Hc, run_ret. done.
Qed.

End Reading.

Lemma parent_join (folder : path) (name : string) :
  parent (join folder name) = folder.
Proof. apply removelast_last. Qed.





(** ** Opening a session *)

Lemma mkdir_from_spec (todo done : path) (fs fs' : FS) :
  fs_mkdir_from fs done todo = inr fs' ->
  (forall k, (1 <= k <= length todo)%nat ->
             is_dir (fs' !! (done ++ take k todo)) = true)
  /\ (forall q, is_Some (fs !! q) -> fs' !! q = fs !! q).
Proof.
  revert done fs. induction todo as [|seg todo IH]; intros done fs H.
  - cbn in H. injection H as <-. split; [cbn; lia|done].
  - cbn [fs_mkdir_from] in H.
    assert (Hstep : forall fs1,
      fs_mkdir_from fs1 (done ++ [seg]) todo = inr fs' ->
      is_dir (fs1 !! (done ++ [seg])) = true ->
      (forall q, is_Some (fs !! q) -> fs1 !! q = fs !! q) ->
      (forall k, (1 <= k <= length (seg :: todo))%nat ->
                 is_dir (fs' !! (done ++ take k (seg :: todo))) = true)
      /\ (forall q, is_Some (fs !! q) -> fs' !! q = fs !! q)).
    { intros fs1 H1 Hd Hkeep. destruct (IH _ _ H1) as [Hdirs Hsame].
      assert (Hd' : fs' !! (done ++ [seg]) = fs1 !! (done ++ [seg])).
      { apply Hsame. by destruct (fs1 !! (done ++ [seg])). }
      split.
      - intros [|[|k]] Hk; [lia| |].
        + change (take 1 (seg :: todo)) with [seg]. by rewrite Hd'.
        + change (take (S (S k)) (seg :: todo)) with (seg :: take (S k) todo).
          cbn [length] in Hk.
          replace (done ++ seg :: take (S k) todo)
            with ((done ++ [seg]) ++ take (S k) todo) by by rewrite <- app_assoc.
          apply Hdirs. lia.
      - intros q Hq. rewrite Hsame; [by apply Hkeep|].
        rewrite Hkeep by done. done. }
    destruct (fs !! (done ++ [seg])) as [[text m|m]|] eqn:E; [done| |].
    + apply (Hstep fs H); [by rewrite E|done].
    + destruct (dir_writable fs done); [|done].
      apply (Hstep _ H); [by rewrite lookup_insert_eq|].
      intros q Hq. rewrite lookup_insert_ne; [done|].
      intros <-. rewrite E in Hq. by destruct Hq.
Qed.

Section Opening.

Variable initAuthCreds : value.

Lemma run_open (folder : path) (name : option string) (fs : FS) :
  let credFileName := cred_file (sanitizeName name) in
  let credPath := join folder (fixFileName credFileName) in
  let reading (fs1 : FS) :=
    [EvAcquire credPath; EvSys (ReadFile credPath) (fs_readFile fs1 credPath);
     EvRelease credPath] in
  let opened (fs1 : FS) :=
    Done (Handle folder credFileName (js_or (stored_value fs1 credPath) initAuthCreds)) in
  run (useMultiFileAuthState initAuthCreds folder name) fs =
    match fs !! folder with
    | Some (File _ _) =>
        ([EvSys (Stat folder) (inr (RStat false))],
         Raised (Error (non_directory_message folder)), fs)
    | Some (Dir _) =>
        (EvSys (Stat folder) (inr (RStat true)) :: reading fs, opened fs, fs)
    | None =>
        match fs_mkdir fs folder with
        | inr fs' =>
            (EvSys (Stat folder) (inl ENOENT)
               :: EvSys (Mkdir folder) (inr RDone) :: reading fs',
             opened fs', fs')
        | inl e =>
            ([EvSys (Stat folder) (inl ENOENT); EvSys (Mkdir folder) (inl e)],
             Raised (IOError e (Mkdir folder)), fs)
        end
    end.
Proof.
  intros credFileName credPath reading opened.
  unfold useMultiFileAuthState. fold credFileName.
  rewrite run_bind.
  replace (run (Sys (Stat folder)
                  (fun r => Ret match r with inr (RStat d) => Some d | _ => None end)) fs)
    with ([EvSys (Stat folder) (fs_stat fs folder)],
          Done match fs_stat fs folder with inr (RStat d) => Some d | _ => None end, fs)
    by reflexivity.
  unfold fs_stat. destruct (fs !! folder) as [[text m|m]|] eqn:E.
  - rewrite run_bind. cbn [negb]. by rewrite run_throw.
  - rewrite run_bind. cbn [negb]. rewrite run_ret, run_bind, run_readData_stored.
    fold credPath. by rewrite run_ret.
  - rewrite run_bind, run_bind.
    replace (run (await (Mkdir folder)) fs)
      with (match fs_mkdir fs folder with
            | inr fs' => ([EvSys (Mkdir folder) (inr RDone)], Done RDone, fs')
            | inl e => ([EvSys (Mkdir folder) (inl e)],
                        Raised (IOError e (Mkdir folder)), fs)
            end : list event * outcome sysret * FS).
    2: { unfold await, run, sys_exec. by destruct (fs_mkdir fs folder). }
    destruct (fs_mkdir fs folder) as [e|fs']; [done|].
    rewrite run_ret, run_bind, run_readData_stored. fold credPath.
    by rewrite run_ret.
Qed.

End Opening.


(** Opening a session below the root: both directories are made. *)
Example open_creates_parents :
  run (useMultiFileAuthState (VObj []) ["tmp"; "sess"] None) fs_root
  = ([EvSys (Stat ["tmp"; "sess"]) (inl ENOENT);
      EvSys (Mkdir ["tmp"; "sess"]) (inr RDone);
      EvAcquire ["tmp"; "sess"; "auth.json"];
      EvSys (ReadFile ["tmp"; "sess"; "auth.json"]) (inl ENOENT);
      EvRelease ["tmp"; "sess"; "auth.json"]],
     Done (Handle ["tmp"; "sess"] "auth.json" (VObj [])),
     <[ ["tmp"; "sess"] := Dir rw ]> (<[ ["tmp"] := Dir rw ]> fs_root)).
Proof. rewrite run_open. vm_compute. reflexivity. Qed.

Example open_on_a_file :
  run (useMultiFileAuthState (VObj []) ["s"] None) fs_file_in_the_way
  = ([EvSys (Stat ["s"]) (inr (RStat false))],
     Raised (Error "Found non-directory at s, delete or specify a different location."),
     fs_file_in_the_way).
Proof. rewrite run_open. vm_compute. reflexivity. Qed.

Lemma falsy_texts_parse (text : string) :
  text ∈ falsy_texts ->
  exists v, JSON.parse text BufferJSON.reviver = Some v /\ truthy v = false.
Proof.
  unfold falsy_texts. rewrite !elem_of_cons, elem_of_nil.
  intros [->|[->|[->|[->|[]]]]].
  - by exists VNull.
  - by exists (VBool false).
  - by exists (VNum 0).
  - by exists (VStr EmptyString).
Qed.

(** C10: when the credential file exists and holds the JSON text of a
    falsy value, as [null], [false], [0] and the empty string are, the
    session opens, without an error, with the default bundle and not with
    the stored value. *)
Theorem C10_falsy_creds_replaced (initAuthCreds : value) (folder : path)
  (name : option string) (fs : FS) (text : string) (m : mode) (v : value) :
  let credFileName := cred_file (sanitizeName name) in
  let credPath := join folder (fixFileName credFileName) in
  is_dir (fs !! folder) = true ->
  fs !! credPath = Some (File text m) ->
  JSON.parse text BufferJSON.reviver = Some v ->
  truthy v = false ->
  result_of (run (useMultiFileAuthState initAuthCreds folder name) fs)
    = Done (Handle folder credFileName initAuthCreds)
  /\ fs_of (run (useMultiFileAuthState initAuthCreds folder name) fs) = fs
  /\ Forall (fun t => exists w, JSON.parse t BufferJSON.reviver = Some w
                                /\ truthy w = false) falsy_texts.
Proof.
  intros credFileName credPath Hdir Hfile Hparse Hfalsy.
  rewrite run_open. fold credFileName. fold credPath.
  destruct (fs !! folder) as [[? ?|?]|]; try done.
  split; [|split; [done|]].
  - cbn. unfold stored_value, fs_readFile, js_or. rewrite Hfile.
    destruct (can_read m); [|done]. by rewrite Hparse, Hfalsy.
  - apply Forall_forall. intros t Ht. by apply falsy_texts_parse.
Qed.

Lemma C10_falsy_creds_replaced_witness :
  is_dir (fs_falsy_creds !! ["s"]) = true
  /\ fs_falsy_creds !! join ["s"] (fixFileName (cred_file (sanitizeName None)))
     = Some (File "0" rw)
  /\ JSON.parse "0" BufferJSON.reviver = Some (VNum 0)
  /\ result_of (run (useMultiFileAuthState (VObj [("fresh", VBool true)]) ["s"] None)
                  fs_falsy_creds)
     = Done (Handle ["s"] "auth.json" (VObj [("fresh", VBool true)])).
Proof.
  split; [reflexivity|]. split; [reflexivity|]. split; [reflexivity|].
  exact (proj1 (C10_falsy_creds_replaced (VObj [("fresh", VBool true)]) ["s"] None
                  fs_falsy_creds "0" rw (VNum 0)
                  eq_refl eq_refl eq_refl eq_refl)).
Defined.

(** ** Base64 is a round trip *)

Lemma list_ind3 {A : Type} (P : list A -> Prop) :
  P [] -> (forall a, P [a]) -> (forall a b, P [a; b]) ->
  (forall a b c l, P l -> P (a :: b :: c :: l)) ->
  forall l, P l.
Proof.
  intros H0 H1 H2 H3.
  fix rec 1. intros [|a [|b [|c l]]].
  - exact H0.
  - apply H1.
  - apply H2.
  - apply H3, rec.
Qed.

Lemma sextet_char_table :
  forallb
    (fun n => match Base64.sextet_of_char (Base64.char_of_sextet n) with
              | Some m => N.eqb m n
              | None => false
              end && negb (Ascii.eqb (Base64.char_of_sextet n) "="))
    (map N.of_nat (seq 0 64)) = true.
Proof. vm_compute. reflexivity. Qed.

Lemma sextet_of_char_of_sextet (n : N) :
  (n < 64)%N ->
  Base64.sextet_of_char (Base64.char_of_sextet n) = Some n
  /\ Ascii.eqb (Base64.char_of_sextet n) "=" = false.
Proof.
  intros Hn. pose proof sextet_char_table as H.
  rewrite forallb_forall in H. specialize (H n).
  destruct (Base64.sextet_of_char (Base64.char_of_sextet n)) as [m|].
  - assert (Hin : In n (map N.of_nat (seq 0 64))).
    { apply in_map_iff. exists (N.to_nat n). split; [lia|].
      apply in_seq. lia. }
    apply H in Hin. apply andb_prop in Hin as [Hm Hq].
    apply N.eqb_eq in Hm. subst m. split; [done|].
    by apply negb_true_iff.
  - assert (Hin : In n (map N.of_nat (seq 0 64))).
    { apply in_map_iff. exists (N.to_nat n). split; [lia|].
      apply in_seq. lia. }
    apply H in Hin. done.
Qed.

Lemma sextets_cons (n : N) (s : string) :
  (n < 64)%N ->
  Base64.sextets (String (Base64.char_of_sextet n) s) = n :: Base64.sextets s.
Proof.
  intros Hn. destruct (sextet_of_char_of_sextet n Hn) as [H1 H2].
  cbn. by rewrite H2, H1.
Qed.

Lemma byte_of_N_to_N (b : byte) : Base64.byte_of_N (Byte.to_N b) = b.
Proof.
  unfold Base64.byte_of_N. pose proof (Byte.to_N_bounded b).
  rewrite N.mod_small by lia. by rewrite Byte.of_to_N.
Qed.

Lemma byte_of_N_congr (n : N) (b : byte) :
  n = Byte.to_N b -> Base64.byte_of_N n = b.
Proof. intros ->. apply byte_of_N_to_N. Qed.

Lemma sextets_padding (s : string) : Base64.sextets (String "=" s) = [].
Proof. reflexivity. Qed.

Ltac div_lia := zify; Z.to_euclidean_division_equations; lia.

(** The decoder undoes the encoder on every sequence of bytes. *)
Lemma base64_round_trip (bs : list byte) : Base64.decode (Base64.encode bs) = bs.
Proof.
  unfold Base64.decode. induction bs as [|a|a b|a b c l IH] using list_ind3.
  - reflexivity.
  - cbn [Base64.encode]. pose proof (Byte.to_N_bounded a).
    set (x := Byte.to_N a) in *.
    rewrite !sextets_cons, sextets_padding by (clearbody x; div_lia).
    cbn [Base64.bytes_of_sextets]. f_equal.
    apply byte_of_N_congr. fold x. clearbody x. div_lia.
  - cbn [Base64.encode].
    pose proof (Byte.to_N_bounded a). pose proof (Byte.to_N_bounded b).
    set (x := Byte.to_N a) in *. set (y := Byte.to_N b) in *.
    rewrite !sextets_cons, sextets_padding by (clearbody x y; div_lia).
    cbn [Base64.bytes_of_sextets].
    f_equal; [|f_equal]; apply byte_of_N_congr; fold x; fold y; clearbody x y; div_lia.
  - cbn [Base64.encode].
    pose proof (Byte.to_N_bounded a). pose proof (Byte.to_N_bounded b).
    pose proof (Byte.to_N_bounded c).
    set (x := Byte.to_N a) in *. set (y := Byte.to_N b) in *.
    set (z := Byte.to_N c) in *.
    rewrite !sextets_cons by (clearbody x y z; div_lia).
    cbn [Base64.bytes_of_sextets]. rewrite IH.
    f_equal; [|f_equal; [|f_equal]]; apply byte_of_N_congr;
      fold x; fold y; fold z; clearbody x y z; div_lia.
Qed.

(** ** JSON text is a round trip *)

Lemma value_ind_deep (P : value -> Prop) :
  P VUndefined -> P VNull -> (forall b, P (VBool b)) -> (forall n, P (VNum n)) ->
  (forall s, P (VStr s)) -> (forall bs, P (VBuf bs)) ->
  (forall elems, Forall P elems -> P (VArr elems)) ->
  (forall props, Forall (fun kx => P (snd kx)) props -> P (VObj props)) ->
  forall v, P v.
Proof.
  intros Hu Hn Hb Hz Hs Hbuf Harr Hobj.
  fix rec 1. intros [| |b|n|s|bs|elems|props].
  - exact Hu.
  - exact Hn.
  - apply Hb.
  - apply Hz.
  - apply Hs.
  - apply Hbuf.
  - apply Harr. induction elems as [|x l IH]; constructor; [apply rec|apply IH].
  - apply Hobj. induction props as [|[k x] l IH]; constructor; [apply rec|apply IH].
Qed.

Lemma parse_string_escape (c : ascii) (tail : string) :
  JSON.parse_string (JSON.escape c +:+ tail) =
    match JSON.parse_string tail with
    | Some (t, rest) => Some (String c t, rest)
    | None => None
    end.
Proof. destruct c as [[] [] [] [] [] [] [] []]; reflexivity. Qed.

Lemma parse_string_quoted (s rest : string) :
  JSON.parse_string (JSON.escape_all s +:+ String JSON.dquote rest) = Some (s, rest).
Proof.
  induction s as [|c s IH]; [reflexivity|].
  cbn [JSON.escape_all]. by rewrite append_assoc, parse_string_escape, IH.
Qed.

Lemma read_digits_uint (d : Decimal.uint) (rest : string) :
  match rest with String c _ => JSON.is_digit c = false | EmptyString => True end ->
  JSON.read_digits (JSON.string_of_uint d +:+ rest) = (d, rest).
Proof.
  intros Hrest. induction d as [|d IH|d IH|d IH|d IH|d IH|d IH|d IH|d IH|d IH|d IH];
    cbn [JSON.string_of_uint]; rewrite ?append_cons; cbn [JSON.read_digits];
    try (change (JSON.is_digit _) with true; cbn match; rewrite IH; reflexivity).
  rewrite append_nil_l. destruct rest as [|c rest]; [reflexivity|].
  cbn. by rewrite Hrest.
Qed.

(** The digits of a number have no leading zero. *)
Lemma to_uint_canonical (n : N) :
  match N.to_uint n with
  | Nil => False
  | D0 Nil => True
  | D0 _ => False
  | _ => True
  end.
Proof.
  rewrite <- (DecimalN.Unsigned.of_to n), DecimalN.Unsigned.to_of.
  generalize (N.to_uint n) as d. induction d; try exact I.
  by rewrite DecimalFacts.unorm_D0.
Qed.

Lemma delimited_digit (rest : string) :
  delimited rest = true ->
  match rest with String c _ => JSON.is_digit c = false | EmptyString => True end.
Proof.
  destruct rest as [|c rest]; [done|]. unfold delimited.
  intros [H _]%andb_prop. by apply negb_true_iff.
Qed.

Lemma delimited_continues (rest : string) :
  delimited rest = true -> JSON.continues_number rest = false.
Proof.
  destruct rest as [|c rest]; [done|]. unfold delimited.
  intros [_ H]%andb_prop. by apply negb_true_iff.
Qed.

Lemma parse_nat_digits (n : N) (rest : string) :
  delimited rest = true ->
  JSON.parse_nat (JSON.string_of_uint (N.to_uint n) +:+ rest) = Some (n, rest).
Proof.
  intros Hrest. unfold JSON.parse_nat.
  rewrite read_digits_uint by by apply delimited_digit.
  rewrite delimited_continues by done.
  pose proof (to_uint_canonical n) as Hc.
  pose proof (DecimalN.Unsigned.of_to n) as Hn.
  destruct (N.to_uint n) as [|d|d|d|d|d|d|d|d|d|d]; try done;
    try (by rewrite Hn).
  destruct d; try done. cbn in Hn. by subst n.
Qed.

Lemma parse_number_text (n : Z) (rest : string) :
  delimited rest = true ->
  JSON.parse_number (JSON.string_of_number n +:+ rest) = Some (n, rest).
Proof.
  intros Hrest. unfold JSON.string_of_number.
  destruct (n <? 0) eqn:E.
  - rewrite append_cons. cbn [JSON.parse_number].
    change (Ascii.eqb "-" "-") with true. cbn match.
    rewrite parse_nat_digits by done. f_equal. f_equal. lia.
  - pose proof (parse_nat_digits (Z.abs_N n) rest Hrest) as Hp.
    pose proof (to_uint_canonical (Z.abs_N n)) as Hc.
    assert (Hz : Z.of_N (Z.abs_N n) = n) by lia.
    destruct (N.to_uint (Z.abs_N n)) as [|d|d|d|d|d|d|d|d|d|d]; try done;
      cbn [JSON.string_of_uint] in *; rewrite append_cons in *;
      cbn [JSON.parse_number];
      match goal with |- context [Ascii.eqb ?c "-"] =>
        change (Ascii.eqb c "-") with false end;
      cbn match; rewrite Hp; by rewrite Hz.
Qed.

(** The first character of a number is a sign or a digit. *)
Lemma string_of_number_head (n : Z) :
  exists c t,
    JSON.string_of_number n = String c t
    /\ (Ascii.eqb c "-" || JSON.is_digit c) = true.
Proof.
  unfold JSON.string_of_number. destruct (n <? 0); [by eexists _, _|].
  pose proof (to_uint_canonical (Z.abs_N n)) as Hc.
  destruct (N.to_uint (Z.abs_N n)); try done; by eexists _, _.
Qed.

Ltac norm_append :=
  repeat (rewrite append_assoc || rewrite append_cons || rewrite append_nil_l).

Lemma skip_ws_head (c : ascii) (r : string) :
  JSON.is_json_ws c = false -> JSON.skip_ws (String c r) = String c r.
Proof. intros H. cbn. by rewrite H. Qed.

Lemma parse_value_number (c : ascii) (r : string) (fuel : nat) :
  (Ascii.eqb c "-" || JSON.is_digit c) = true ->
  JSON.parse_value (S fuel) (String c r) =
    match JSON.parse_number (String c r) with
    | Some (n, r') => Some (VNum n, r')
    | None => None
    end
  /\ head_ok (String c r) = true.
Proof.
  intros H. destruct c as [[] [] [] [] [] [] [] []]; try discriminate H;
    split; reflexivity.
Qed.

Lemma serialize_array (elems : list value) :
  JSON.serialize (VArr elems)
    = Some ("[" +:+ Str.concat "," (map text_of elems) +:+ "]").
Proof.
  reflexivity.
Qed.

Lemma serialize_object (props : list (string * value)) :
  Forall (fun kx => JSON.serialize (snd kx) = Some (text_of (snd kx))) props ->
  JSON.serialize (VObj props)
    = Some ("{" +:+ Str.concat "," (map member_text props) +:+ "}").
Proof.
  intros H. simpl JSON.serialize. do 4 f_equal.
  induction H as [|[k x] l Hx Hl IH]; [reflexivity|]. cbn [map snd] in *.
  rewrite Hx, IH. reflexivity.
Qed.

Lemma head_ok_cons (t : string) :
  head_ok t = true ->
  exists c r, t = String c r /\ JSON.is_json_ws c = false
              /\ Ascii.eqb c "]" = false /\ Ascii.eqb c "}" = false.
Proof.
  destruct t as [|c r]; [done|]. unfold head_ok.
  intros [[H1 H2]%andb_prop H3]%andb_prop.
  exists c, r. by rewrite <- !negb_true_iff.
Qed.

Lemma parse_elements_text (l : list value) :
  l <> [] -> Forall parses_back l ->
  forall fuel rest,
    (fold_right (fun x n => S (Nat.max (need x) n)) O l <= fuel)%nat ->
    JSON.parse_elements fuel (Str.concat "," (map text_of l) +:+ String "]" rest)
      = Some (l, rest).
Proof.
  intros Hne H. induction H as [|x l (_ & _ & Hx) Hl IH]; [done|].
  intros fuel rest Hfuel. cbn [fold_right] in Hfuel.
  destruct fuel as [|fuel]; [lia|]. cbn [JSON.parse_elements].
  destruct l as [|y l].
  - cbn [map Str.concat]. rewrite Hx by (done || lia).
    rewrite skip_ws_head by done. reflexivity.
  - change (Str.concat "," (map text_of (x :: y :: l)))
      with (text_of x +:+ "," +:+ Str.concat "," (map text_of (y :: l))).
    rewrite !append_assoc, append_cons, append_nil_l.
    rewrite Hx by (done || lia). rewrite skip_ws_head by done.
    change (Ascii.eqb "," ",") with true. cbn match.
    rewrite IH by (done || lia). reflexivity.
Qed.

Lemma parse_members_text (l : list (string * value)) :
  l <> [] -> Forall (fun kx => parses_back (snd kx)) l ->
  forall fuel rest,
    (fold_right (fun kx n => S (Nat.max (need (snd kx)) n)) O l <= fuel)%nat ->
    JSON.parse_members fuel (Str.concat "," (map member_text l) +:+ String "}" rest)
      = Some (l, rest).
Proof.
  intros Hne H. induction H as [|[k x] l (_ & _ & Hx) Hl IH]; [done|].
  intros fuel rest Hfuel. cbn [fold_right snd] in Hfuel, Hx.
  destruct fuel as [|fuel]; [lia|]. cbn [JSON.parse_members].
  assert (Hmember : forall tail,
    member_text (k, x) +:+ tail
      = String JSON.dquote
          (JSON.escape_all k +:+ String JSON.dquote (String ":" (text_of x +:+ tail)))).
  { intros tail. unfold member_text, JSON.quote. cbn [fst snd].
    norm_append. reflexivity. }
  destruct l as [|y l].
  - cbn [map Str.concat]. rewrite Hmember, skip_ws_head by done.
    change (Ascii.eqb JSON.dquote JSON.dquote) with true. cbn match.
    rewrite parse_string_quoted, skip_ws_head by done.
    change (Ascii.eqb ":" ":") with true. cbn match.
    rewrite Hx by (done || lia). rewrite skip_ws_head by done. reflexivity.
  - change (Str.concat "," (map member_text ((k, x) :: y :: l)))
      with (member_text (k, x) +:+ "," +:+ Str.concat "," (map member_text (y :: l))).
    rewrite append_assoc, Hmember, skip_ws_head by done.
    change (Ascii.eqb JSON.dquote JSON.dquote) with true. cbn match.
    rewrite parse_string_quoted, skip_ws_head by done.
    change (Ascii.eqb ":" ":") with true. cbn match.
    rewrite append_assoc, append_cons, append_nil_l.
    rewrite Hx by (done || lia). rewrite skip_ws_head by done.
    change (Ascii.eqb "," ",") with true. cbn match.
    rewrite IH by (done || lia). reflexivity.
Qed.

Lemma parse_value_array (fuel : nat) (r : string) :
  JSON.parse_value (S fuel) (String "[" r) =
    match JSON.skip_ws r with
    | String c' r' =>
        if Ascii.eqb c' "]" then Some (VArr [], r')
        else match JSON.parse_elements fuel r with
             | Some (l, r'') => Some (VArr l, r'')
             | None => None
             end
    | EmptyString => None
    end.
Proof. reflexivity. Qed.

Lemma parse_value_object (fuel : nat) (r : string) :
  JSON.parse_value (S fuel) (String "{" r) =
    match JSON.skip_ws r with
    | String c' r' =>
        if Ascii.eqb c' "}" then Some (VObj [], r')
        else match JSON.parse_members fuel r with
             | Some (l, r'') => Some (VObj (obj_of_pairs l), r'')
             | None => None
             end
    | EmptyString => None
    end.
Proof. reflexivity. Qed.

Lemma parse_value_string (fuel : nat) (r : string) :
  JSON.parse_value (S fuel) (String JSON.dquote r) =
    match JSON.parse_string r with
    | Some (t, r') => Some (VStr t, r')
    | None => None
    end.
Proof. reflexivity. Qed.

Lemma concat_head (sep : string) (c : ascii) (r : string) (l : list string) :
  exists r', Str.concat sep (String c r :: l) = String c r'.
Proof. destruct l; [by eexists|]. cbn [Str.concat]. by eexists. Qed.

Lemma obj_set_fresh (o : list (string * value)) (k : string) (v : value) :
  k ∉ map fst o -> obj_set o k v = o ++ [(k, v)].
Proof.
  induction o as [|[k' v'] o IH]; [done|]. cbn [map fst obj_set].
  rewrite not_elem_of_cons. intros [Hk Ho].
  destruct (String.eqb_spec k' k) as [->|_]; [done|]. by rewrite IH.
Qed.

Lemma obj_of_pairs_distinct (l : list (string * value)) :
  NoDup (map fst l) -> obj_of_pairs l = l.
Proof.
  unfold obj_of_pairs.
  assert (H : forall acc,
    NoDup (map fst (acc ++ l)) ->
    fold_left (fun o kv => obj_set o (fst kv) (snd kv)) l acc = acc ++ l).
  { induction l as [|[k v] l IH]; intros acc Hnd; [by rewrite app_nil_r|].
    cbn [fold_left fst snd]. rewrite obj_set_fresh.
    - rewrite IH; rewrite <- app_assoc; done.
    - rewrite map_app in Hnd. apply NoDup_app in Hnd as (_ & Hd & _).
      intros Hin. apply (Hd k Hin). cbn. by left. }
  intros Hnd. by rewrite (H []).
Qed.

Lemma json_tree_parses_back (w : value) : json_tree w = true -> parses_back w.
Proof.
  induction w as [| |b|n|s|bs|elems IH|props IH] using value_ind_deep;
    intros Hj; try discriminate Hj.
  - repeat split. intros [|fuel] rest Hfuel _; [cbn in Hfuel; lia|reflexivity].
  - destruct b; repeat split;
      intros [|fuel] rest Hfuel _; try (cbn in Hfuel; lia); reflexivity.
  - destruct (string_of_number_head n) as (c & t & Ht & Hc).
    unfold parses_back, text_of. cbn [JSON.serialize]. rewrite Ht.
    split; [done|]. split; [by apply (parse_value_number c t O)|].
    intros [|fuel] rest Hfuel Hrest; [cbn in Hfuel; lia|].
    rewrite append_cons, (proj1 (parse_value_number _ _ _ Hc)).
    rewrite <- append_cons, <- Ht. by rewrite parse_number_text.
  - unfold parses_back, text_of. cbn [JSON.serialize]. split; [done|].
    split; [reflexivity|].
    intros [|fuel] rest Hfuel _; [cbn in Hfuel; lia|].
    unfold JSON.quote. rewrite append_cons, parse_value_string, append_assoc.
    rewrite append_cons, append_nil_l. by rewrite parse_string_quoted.
  - cbn [json_tree] in Hj. rewrite forallb_forall in Hj.
    assert (Hall : Forall parses_back elems).
    { rewrite Forall_forall in IH |- *. intros x Hx. apply IH; [done|].
      apply Hj. by apply list_elem_of_In. }
    unfold parses_back, text_of. rewrite serialize_array. split; [done|].
    split; [reflexivity|].
    intros [|fuel] rest Hfuel _; [cbn in Hfuel; lia|].
    cbn [need] in Hfuel.
    norm_append. rewrite parse_value_array.
    destruct elems as [|x l]; [reflexivity|].
    pose proof (Forall_inv Hall) as (_ & Hhead & _).
    apply head_ok_cons in Hhead as (c & r & Hx & Hws & Hb & _).
    destruct (concat_head "," c r (map text_of l)) as [r' Hr'].
    cbn [map]. rewrite Hx, Hr', append_cons, skip_ws_head, Hb by done.
    rewrite <- append_cons, <- Hr', <- Hx.
    change (text_of x :: map text_of l) with (map text_of (x :: l)).
    rewrite parse_elements_text by (done || lia). reflexivity.
  - cbn [json_tree] in Hj. apply andb_prop in Hj as [Hnd Hj].
    apply bool_decide_eq_true in Hnd. rewrite forallb_forall in Hj.
    assert (Hall : Forall (fun kx => parses_back (snd kx)) props).
    { rewrite Forall_forall in IH |- *. intros x Hx. apply IH; [done|].
      apply Hj. by apply list_elem_of_In. }
    assert (Hser : Forall (fun kx => JSON.serialize (snd kx) = Some (text_of (snd kx))) props).
    { eapply Forall_impl; [exact Hall|]. by intros kx (H & _). }
    unfold parses_back, text_of. rewrite serialize_object by done. split; [done|].
    split; [reflexivity|].
    intros [|fuel] rest Hfuel _; [cbn in Hfuel; lia|].
    cbn [need] in Hfuel.
    norm_append. rewrite parse_value_object.
    destruct props as [|[k x] l]; [reflexivity|].
    assert (Hm : exists r', Str.concat "," (map member_text ((k, x) :: l))
                            = String JSON.dquote r').
    { cbn [map]. unfold member_text at 1, JSON.quote. cbn [fst].
      rewrite append_cons. apply concat_head. }
    destruct Hm as [r' Hr']. rewrite Hr', append_cons, skip_ws_head by done.
    change (Ascii.eqb JSON.dquote "}") with false. cbn match.
    rewrite <- append_cons, <- Hr'.
    rewrite parse_members_text by (done || lia).
    by rewrite obj_of_pairs_distinct.
Qed.

Lemma concat_length_cons (sep x : string) (l : list string) :
  (String.length x <= String.length (Str.concat sep (x :: l)))%nat
  /\ (l <> [] ->
      String.length (Str.concat sep (x :: l))
        = String.length x + String.length sep + String.length (Str.concat sep l))%nat.
Proof.
  destruct l as [|y l]; [split; [cbn; lia|done]|].
  cbn [Str.concat]. rewrite !length_append. split; [lia|]. intros _. lia.
Qed.

Lemma need_list_bound {A : Type} (f : A -> nat) (t : A -> string) (l : list A) :
  Forall (fun a => (f a <= 2 * String.length (t a))%nat) l ->
  (fold_right (fun a n => S (Nat.max (f a) n)) O l
     <= 2 * String.length (Str.concat "," (map t l)) + 1)%nat.
Proof.
  induction 1 as [|a l Ha Hl IH]; [cbn; lia|].
  cbn [fold_right map].
  destruct (concat_length_cons "," (t a) (map t l)) as [H1 H2].
  destruct l as [|b l]; [cbn in *; lia|].
  rewrite H2 by done. change (String.length ",") with 1%nat. lia.
Qed.

Lemma text_of_length (w : value) :
  json_tree w = true ->
  (1 <= String.length (text_of w))%nat /\ (need w <= 2 * String.length (text_of w))%nat.
Proof.
  induction w as [| |b|n|s|bs|elems IH|props IH] using value_ind_deep;
    intros Hj; try discriminate Hj.
  - cbn. lia.
  - destruct b; cbn; lia.
  - destruct (string_of_number_head n) as (c & t & Ht & _).
    unfold text_of. cbn [JSON.serialize need]. rewrite Ht. cbn. lia.
  - unfold text_of. cbn [JSON.serialize need]. unfold JSON.quote.
    cbn [String.length]. lia.
  - cbn [json_tree] in Hj. rewrite forallb_forall in Hj.
    unfold text_of. rewrite serialize_array. cbn [need].
    rewrite !length_append. cbn [String.length].
    assert (Hall : Forall (fun x => (need x <= 2 * String.length (text_of x))%nat) elems).
    { rewrite Forall_forall in IH |- *. intros x Hx. apply IH; [done|].
      apply Hj. by apply list_elem_of_In. }
    pose proof (need_list_bound need text_of elems Hall). lia.
  - cbn [json_tree] in Hj. apply andb_prop in Hj as [_ Hj].
    rewrite forallb_forall in Hj.
    assert (Hall : Forall (fun kx => parses_back (snd kx)) props).
    { rewrite Forall_forall in IH |- *. intros x Hx.
      apply json_tree_parses_back, Hj. by apply list_elem_of_In. }
    assert (Hser : Forall (fun kx => JSON.serialize (snd kx) = Some (text_of (snd kx))) props).
    { eapply Forall_impl; [exact Hall|]. by intros kx (H & _). }
    unfold text_of. rewrite serialize_object by done. cbn [need].
    rewrite !length_append. cbn [String.length].
    assert (Hlen : Forall (fun kx => (need (snd kx) <= 2 * String.length (member_text kx))%nat) props).
    { rewrite Forall_forall in IH |- *. intros x Hx.
      assert (Hjx : json_tree (snd x) = true) by (apply Hj; by apply list_elem_of_In).
      specialize (IH x Hx Hjx). unfold member_text.
      rewrite !length_append. lia. }
    pose proof (need_list_bound (fun kx => need (snd kx)) member_text props Hlen). lia.
Qed.

Lemma parse_text_of (w : value) :
  json_tree w = true -> JSON.parse_text (text_of w) = Some w.
Proof.
  intros Hj. destruct (json_tree_parses_back w Hj) as (_ & _ & Hp).
  destruct (text_of_length w Hj) as [_ Hn].
  unfold JSON.parse_text.
  rewrite <- (append_nil_r (text_of w)) at 2.
  rewrite Hp by (done || lia). reflexivity.
Qed.

(** ** Buffers through the replacer and the reviver *)

Lemma replace_walk_string (fuel : nat) (s : string) :
  JSON.replace_walk BufferJSON.replacer fuel (VStr s) = VStr s.
Proof. by destruct fuel. Qed.

Lemma height_elem (x : value) (l : list value) :
  x ∈ l ->
  (JSON.height x <= fold_right (fun x h => Nat.max (JSON.height x) h) O l)%nat.
Proof.
  induction 1 as [x l|x y l _ IH]; cbn [fold_right]; lia.
Qed.

Lemma height_prop (kx : string * value) (l : list (string * value)) :
  kx ∈ l ->
  (JSON.height (snd kx)
     <= fold_right (fun kx h => Nat.max (JSON.height (snd kx)) h) O l)%nat.
Proof.
  induction 1 as [x l|x y l _ IH]; cbn [fold_right]; lia.
Qed.

Lemma replace_walk_encode (v : value) (fuel : nat) :
  (JSON.height v < fuel)%nat ->
  JSON.replace_walk BufferJSON.replacer fuel v = encode_buffers v.
Proof.
  revert fuel.
  induction v as [| |b|n|s|bs|elems IH|props IH] using value_ind_deep;
    intros [|fuel] Hfuel; try (cbn in Hfuel; lia); try reflexivity.
  - cbn [JSON.replace_walk BufferJSON.replacer BufferJSON.tagged map fst snd].
    by rewrite !replace_walk_string.
  - cbn [JSON.replace_walk BufferJSON.replacer encode_buffers]. f_equal.
    cbn [JSON.height] in Hfuel. apply map_ext_in. intros x Hx.
    apply list_elem_of_In in Hx. rewrite Forall_forall in IH.
    apply IH; [done|]. pose proof (height_elem x elems Hx). lia.
  - cbn [JSON.replace_walk BufferJSON.replacer encode_buffers]. f_equal.
    cbn [JSON.height] in Hfuel. apply map_ext_in. intros x Hx.
    apply list_elem_of_In in Hx. rewrite Forall_forall in IH. f_equal.
    apply IH; [done|]. pose proof (height_prop x props Hx). lia.
Qed.

Lemma storable_json_tree (v : value) :
  storable v = true -> json_tree (encode_buffers v) = true.
Proof.
  induction v as [| |b|n|s|bs|elems IH|props IH] using value_ind_deep;
    intros Hs; try done.
  - cbn [storable encode_buffers json_tree] in *.
    rewrite forallb_forall in Hs |- *. intros y [x [<- Hx]]%in_map_iff.
    rewrite Forall_forall in IH. apply IH; [by apply list_elem_of_In|by apply Hs].
  - cbn [storable encode_buffers json_tree] in *.
    apply andb_prop in Hs as [[Hnd _]%andb_prop Hs].
    apply andb_true_intro. split.
    + rewrite map_map. cbn [fst]. exact Hnd.
    + rewrite forallb_forall in Hs |- *. intros y [x [<- Hx]]%in_map_iff.
      cbn [snd]. rewrite Forall_forall in IH.
      apply IH; [by apply list_elem_of_In|by apply Hs].
Qed.

Lemma internalize_encode (v : value) :
  storable v = true ->
  JSON.internalize BufferJSON.reviver (encode_buffers v) = v.
Proof.
  induction v as [| |b|n|s|bs|elems IH|props IH] using value_ind_deep;
    intros Hs; try done.
  - cbn. by rewrite base64_round_trip.
  - cbn [storable] in Hs. rewrite forallb_forall in Hs.
    cbn [encode_buffers JSON.internalize BufferJSON.reviver]. f_equal.
    rewrite map_map. rewrite <- (map_id elems) at 2. apply map_ext_in.
    intros x Hx. rewrite Forall_forall in IH.
    apply IH; [by apply list_elem_of_In|by apply Hs].
  - cbn [storable] in Hs. apply andb_prop in Hs as [[_ Hm]%andb_prop Hs].
    apply negb_true_iff in Hm.
    assert (Hgo :
      (fix go (l : list (string * value)) : list (string * value) :=
         match l with
         | [] => []
         | (k, x) :: l' =>
             match JSON.internalize BufferJSON.reviver x with
             | VUndefined => go l'
             | x' => (k, x') :: go l'
             end
         end) (map (fun kx => (fst kx, encode_buffers (snd kx))) props) = props).
    { clear Hm. induction props as [|[k x] l IHl]; [reflexivity|].
      cbn [forallb snd] in Hs. apply andb_prop in Hs as [Hx Hl].
      apply Forall_cons in IH as [IHx IHrest]. cbn [snd] in IHx.
      cbn [map fst snd]. rewrite (IHx Hx), (IHl IHrest Hl).
      by destruct x. }
    cbn [encode_buffers].
    change (JSON.internalize BufferJSON.reviver (VObj ?l))
      with (BufferJSON.reviver
              (VObj ((fix go (l0 : list (string * value)) : list (string * value) :=
                        match l0 with
                        | [] => []
                        | (k, x) :: l' =>
                            match JSON.internalize BufferJSON.reviver x with
                            | VUndefined => go l'
                            | x' => (k, x') :: go l'
                            end
                        end) l))).
    rewrite Hgo. cbn [BufferJSON.reviver]. by rewrite Hm.
Qed.

(** What [JSON.stringify] with the replacer writes, [JSON.parse] with the
    reviver reads back. *)
Lemma stringify_parse (v : value) :
  storable v = true ->
  JSON.stringify v BufferJSON.replacer = Some (text_of (encode_buffers v))
  /\ JSON.parse (text_of (encode_buffers v)) BufferJSON.reviver = Some v.
Proof.
  intros Hs. pose proof (storable_json_tree v Hs) as Hj.
  destruct (json_tree_parses_back _ Hj) as (Hser & _ & _).
  split.
  - unfold JSON.stringify. rewrite replace_walk_encode by lia. exact Hser.
  - unfold JSON.parse. rewrite parse_text_of by done.
    by rewrite internalize_encode.
Qed.

(** ** Writing, then reading *)




(** ** Operations in flight together *)

Import Sched.


Lemma guarded_perform (folder : path) (o : op) : guarded None (perform folder o).
Proof.
  destruct o as [data file|file|file]; unfold perform.
  - unfold writeData. cbn.
    destruct (JSON.stringify data BufferJSON.replacer) as [text|]; cbn; [|done].
    split; [done|]. split; [done|]. by intros [e|r].
  - unfold readData. cbn. split; [done|]. split; [done|].
    intros [e|[|data|d]]; cbn; try done.
    by destruct (JSON.parse data BufferJSON.reviver).
  - unfold removeData. cbn. split; [done|]. split; [done|]. by intros [e|r].
Qed.

Lemma lock_of_insert (st : state) fs' locks' tasks' log' (p q : path) (l : lock) :
  locks' = <[p := l]> (st_locks st) ->
  lock_of (State fs' locks' tasks' log') q
    = if decide (p = q) then l else lock_of st q.
Proof.
  intros ->. unfold lock_of. cbn. rewrite lookup_insert. by case_decide.
Qed.

Lemma task_ok_frame (st st' : state) (j : nat) (t : task) :
  (forall p, holds st' j p <-> holds st j p) ->
  (forall p, waits st' j p <-> waits st j p) ->
  task_ok st j t -> task_ok st' j t.
Proof.
  intros Hh Hw. destruct t as [m|q k|c k|o]; cbn.
  - intros (h & Hg & H1 & H2). exists h. split; [done|].
    split; intros p; [by rewrite Hh|by rewrite Hw].
  - intros (Hg & H1 & H2). split; [done|].
    split; intros p; [by rewrite Hh|by rewrite Hw].
  - intros (Hg & H1 & H2). split; [done|].
    split; intros p; [by rewrite Hh|by rewrite Hw].
  - intros (H1 & H2). split; intros p; [by rewrite Hh|by rewrite Hw].
Qed.

Lemma requests_app (p : path) (l1 l2 : list note) :
  requests p (l1 ++ l2) = requests p l1 ++ requests p l2.
Proof. apply omap_app. Qed.

Lemma grants_app (p : path) (l1 l2 : list note) :
  grants p (l1 ++ l2) = grants p l1 ++ grants p l2.
Proof. apply omap_app. Qed.

(** A step that changes one task and no lock. *)
Lemma inv_local (st : state) (i : nat) (t t' : task) (fs' : FS) (extra : list note) :
  inv st ->
  st_tasks st !! i = Some t ->
  (forall p k, t <> Waiting p k) ->
  (forall p k, t' <> Waiting p k) ->
  task_ok st i t' ->
  (forall p, requests p extra = [] /\ grants p extra = []) ->
  inv (State fs' (st_locks st) (<[i := t']> (st_tasks st)) (st_log st ++ extra)).
Proof.
  intros [Ht Hq Hw Hf] Hi Hnw Hnw' Hok Hextra.
  set (st' := State fs' (st_locks st) (<[i := t']> (st_tasks st)) (st_log st ++ extra)).
  assert (Hlock : forall p, lock_of st' p = lock_of st p) by done.
  assert (Hframe : forall j u, task_ok st j u -> task_ok st' j u).
  { intros j u. apply task_ok_frame; intros p; unfold holds, waits; by rewrite Hlock. }
  split.
  - intros j u Hj. cbn in Hj. destruct (decide (i = j)) as [<-|Hne].
    + rewrite list_lookup_insert_eq in Hj by by eapply lookup_lt_Some.
      injection Hj as <-. by apply Hframe.
    + rewrite list_lookup_insert_ne in Hj by done. by apply Hframe, Ht.
  - intros p. rewrite Hlock. apply Hq.
  - intros p j Hj. unfold waits in Hj. rewrite Hlock in Hj.
    destruct (Hw p j Hj) as [k Hk]. exists k. cbn.
    rewrite list_lookup_insert_ne; [done|]. intros <-.
    rewrite Hi in Hk. injection Hk as ->. by eapply Hnw.
  - intros p. rewrite Hlock. subst st'. cbn [st_log].
    rewrite requests_app, grants_app.
    destruct (Hextra p) as [-> ->]. rewrite !app_nil_r. apply Hf.
Qed.

Lemma requests_cons (p : path) (n : note) (l : list note) :
  requests p (n :: l) =
    match n with
    | Requested i q => if decide (q = p) then i :: requests p l else requests p l
    | _ => requests p l
    end.
Proof. destruct n; try done. unfold requests. cbn. by case_decide. Qed.

Lemma grants_cons (p : path) (n : note) (l : list note) :
  grants p (n :: l) =
    match n with
    | Granted i q => if decide (q = p) then i :: grants p l else grants p l
    | _ => grants p l
    end.
Proof. destruct n; try done. unfold grants. cbn. by case_decide. Qed.

Lemma inv_acquire_free (st : state) (i : nat) (p : path) (k : prog value)
  (q : list nat) :
  inv st ->
  st_tasks st !! i = Some (Running (Acquire p k)) ->
  lock_of st p = Lock None q ->
  inv (State (st_fs st) (<[p := Lock (Some i) q]> (st_locks st))
         (<[i := Running k]> (st_tasks st))
         (st_log st ++ [Requested i p; Granted i p])).
Proof.
  intros [Ht Hq Hw Hf] Hi Hp.
  set (st' := State _ _ _ _).
  assert (Hlock : forall r, lock_of st' r
            = if decide (p = r) then Lock (Some i) q else lock_of st r)
    by (intros r; by apply lock_of_insert).
  destruct (Ht i _ Hi) as (h & [-> Hg] & Hh & Hnw).
  assert (Hq0 : q = []).
  { destruct (Hq p) as [_ H]. rewrite Hp in H. by apply H. }
  subst q.
  split.
  - intros j u Hj. cbn in Hj. destruct (decide (i = j)) as [<-|Hne].
    + rewrite list_lookup_insert_eq in Hj by by eapply lookup_lt_Some.
      injection Hj as <-. exists (Some p). split; [done|].
      split; intros r; unfold holds, waits; rewrite Hlock;
        destruct (decide (p = r)) as [<-|Hpr]; cbn.
      * done.
      * fold (holds st i r). rewrite (Hh r). split; [done|congruence].
      * apply not_elem_of_nil.
      * apply Hnw.
    + rewrite list_lookup_insert_ne in Hj by done.
      apply (task_ok_frame st); [| |by apply Ht];
        intros r; unfold holds, waits; rewrite Hlock;
        destruct (decide (p = r)) as [<-|Hpr]; try done; rewrite Hp; cbn.
      * split; congruence.
      * done.
  - intros r. rewrite Hlock. destruct (decide (p = r)) as [<-|Hpr]; [|apply Hq].
    cbn. split; [apply NoDup_nil_2|done].
  - intros r j Hj. unfold waits in Hj. rewrite Hlock in Hj.
    destruct (decide (p = r)) as [<-|Hpr]; [by apply elem_of_nil in Hj|].
    destruct (Hw r j Hj) as [k' Hk']. exists k'. cbn.
    rewrite list_lookup_insert_ne; [done|]. intros <-. congruence.
  - intros r. rewrite Hlock. subst st'. cbn [st_log].
    rewrite requests_app, grants_app, !requests_cons, !grants_cons.
    specialize (Hf r). destruct (decide (p = r)) as [<-|Hpr].
    + rewrite Hp in Hf. cbn in *. rewrite app_nil_r in *. by rewrite Hf.
    + cbn. by rewrite !app_nil_r.
Qed.

Lemma inv_acquire_held (st : state) (i j : nat) (p : path) (k : prog value)
  (q : list nat) :
  inv st ->
  st_tasks st !! i = Some (Running (Acquire p k)) ->
  lock_of st p = Lock (Some j) q ->
  inv (State (st_fs st) (<[p := Lock (Some j) (q ++ [i])]> (st_locks st))
         (<[i := Waiting p k]> (st_tasks st))
         (st_log st ++ [Requested i p])).
Proof.
  intros [Ht Hq Hw Hf] Hi Hp.
  set (st' := State _ _ _ _).
  assert (Hlock : forall r, lock_of st' r
            = if decide (p = r) then Lock (Some j) (q ++ [i]) else lock_of st r)
    by (intros r; by apply lock_of_insert).
  destruct (Ht i _ Hi) as (h & [-> Hg] & Hh & Hnw).
  assert (Hiq : i ∉ q).
  { intros Hin. apply (Hnw p). unfold waits. by rewrite Hp. }
  split.
  - intros j' u Hj. cbn in Hj. destruct (decide (i = j')) as [<-|Hne].
    + rewrite list_lookup_insert_eq in Hj by by eapply lookup_lt_Some.
      injection Hj as <-. split; [done|].
      split; intros r; unfold holds, waits; rewrite Hlock;
        destruct (decide (p = r)) as [<-|Hpr]; cbn.
      * intros [= ->]. assert (H : holds st i p) by (unfold holds; by rewrite Hp).
        apply Hh in H. done.
      * fold (holds st i r). rewrite (Hh r). done.
      * rewrite elem_of_app, list_elem_of_singleton. split; [done|by right].
      * fold (waits st i r). split; [by intros ?%Hnw|congruence].
    + rewrite list_lookup_insert_ne in Hj by done.
      apply (task_ok_frame st); [| |by apply Ht];
        intros r; unfold holds, waits; rewrite Hlock;
        destruct (decide (p = r)) as [<-|Hpr]; try done; rewrite Hp; cbn.
      * done.
      * rewrite elem_of_app, list_elem_of_singleton.
        split; [intros [?|?]; [done|congruence]|by left].
  - intros r. rewrite Hlock. destruct (decide (p = r)) as [<-|Hpr]; [|apply Hq].
    cbn. split; [|done]. destruct (Hq p) as [Hnd _]. rewrite Hp in Hnd.
    apply NoDup_app. split; [done|]. split; [|apply NoDup_singleton].
    intros x Hx ->%list_elem_of_singleton. done.
  - intros r j' Hj. unfold waits in Hj. rewrite Hlock in Hj. cbn.
    destruct (decide (p = r)) as [<-|Hpr].
    + cbn in Hj. apply elem_of_app in Hj as [Hj| ->%list_elem_of_singleton].
      * assert (Hj' : waits st j' p) by (unfold waits; by rewrite Hp).
        destruct (Hw p j' Hj') as [k' Hk']. exists k'.
        rewrite list_lookup_insert_ne; [done|]. intros <-. congruence.
      * exists k. apply list_lookup_insert_eq. by eapply lookup_lt_Some.
    + destruct (Hw r j' Hj) as [k' Hk']. exists k'.
      rewrite list_lookup_insert_ne; [done|]. intros <-. congruence.
  - intros r. rewrite Hlock. subst st'. cbn [st_log].
    rewrite requests_app, grants_app, !requests_cons, !grants_cons.
    specialize (Hf r). destruct (decide (p = r)) as [<-|Hpr].
    + rewrite Hp in Hf. cbn in *. rewrite app_nil_r, Hf. by rewrite app_assoc.
    + cbn. by rewrite !app_nil_r.
Qed.

Lemma inv_release_last (st : state) (i : nat) (p : path) (k : prog value) :
  inv st ->
  st_tasks st !! i = Some (Running (Release p k)) ->
  lock_of st p = Lock (Some i) [] ->
  inv (State (st_fs st) (<[p := Lock None []]> (st_locks st))
         (<[i := Running k]> (st_tasks st)) (st_log st)).
Proof.
  intros [Ht Hq Hw Hf] Hi Hp.
  set (st' := State _ _ _ _).
  assert (Hlock : forall r, lock_of st' r
            = if decide (p = r) then Lock None [] else lock_of st r)
    by (intros r; by apply lock_of_insert).
  destruct (Ht i _ Hi) as (h & [-> Hg] & Hh & Hnw).
  split.
  - intros j u Hj. cbn in Hj. destruct (decide (i = j)) as [<-|Hne].
    + rewrite list_lookup_insert_eq in Hj by by eapply lookup_lt_Some.
      injection Hj as <-. exists None. split; [done|].
      split; intros r; unfold holds, waits; rewrite Hlock;
        destruct (decide (p = r)) as [<-|Hpr]; cbn.
      * done.
      * fold (holds st i r). rewrite (Hh r). split; [congruence|done].
      * apply not_elem_of_nil.
      * apply Hnw.
    + rewrite list_lookup_insert_ne in Hj by done.
      apply (task_ok_frame st); [| |by apply Ht];
        intros r; unfold holds, waits; rewrite Hlock;
        destruct (decide (p = r)) as [<-|Hpr]; try done; rewrite Hp; cbn.
      * split; [done|congruence].
      * done.
  - intros r. rewrite Hlock. destruct (decide (p = r)) as [<-|Hpr]; [|apply Hq].
    cbn. split; [apply NoDup_nil_2|done].
  - intros r j Hj. unfold waits in Hj. rewrite Hlock in Hj.
    destruct (decide (p = r)) as [<-|Hpr]; [by apply elem_of_nil in Hj|].
    destruct (Hw r j Hj) as [k' Hk']. exists k'. cbn.
    rewrite list_lookup_insert_ne; [done|]. intros <-. congruence.
  - intros r. rewrite Hlock. subst st'. cbn [st_log].
    specialize (Hf r). destruct (decide (p = r)) as [<-|Hpr]; [|done].
    rewrite Hp in Hf. done.
Qed.

Lemma inv_release_next (st : state) (i next : nat) (p p0 : path)
  (k k' : prog value) (q : list nat) :
  inv st ->
  st_tasks st !! i = Some (Running (Release p k)) ->
  lock_of st p = Lock (Some i) (next :: q) ->
  st_tasks st !! next = Some (Waiting p0 k') ->
  inv (State (st_fs st) (<[p := Lock (Some next) q]> (st_locks st))
         (<[i := Running k]> (<[next := Running k']> (st_tasks st)))
         (st_log st ++ [Granted next p])).
Proof.
  intros [Ht Hq Hw Hf] Hi Hp Hnext.
  set (st' := State _ _ _ _).
  assert (Hlock : forall r, lock_of st' r
            = if decide (p = r) then Lock (Some next) q else lock_of st r)
    by (intros r; by apply lock_of_insert).
  destruct (Ht i _ Hi) as (h & [-> Hg] & Hh & Hnw).
  assert (Hne : i <> next) by congruence.
  assert (Hwn : waits st next p).
  { unfold waits. rewrite Hp. cbn. by left. }
  destruct (Hw p next Hwn) as [k'' Hk'']. rewrite Hnext in Hk''.
  injection Hk'' as -> <-.
  destruct (Ht next _ Hnext) as (Hg' & Hnh & Hwq). cbn in Hg'.
  destruct (Hq p) as [Hnd _]. rewrite Hp in Hnd. cbn in Hnd.
  apply NoDup_cons in Hnd as [Hnq Hnd].
  assert (Hlen : (i < length (st_tasks st))%nat) by by eapply lookup_lt_Some.
  assert (Hlen' : (next < length (st_tasks st))%nat) by by eapply lookup_lt_Some.
  split.
  - intros j u Hj. cbn in Hj. destruct (decide (i = j)) as [<-|Hij].
    + rewrite list_lookup_insert_eq in Hj by by rewrite length_insert.
      injection Hj as <-. exists None. split; [done|].
      split; intros r; unfold holds, waits; rewrite Hlock;
        destruct (decide (p = r)) as [<-|Hpr]; cbn.
      * split; congruence.
      * fold (holds st i r). rewrite (Hh r). split; [congruence|done].
      * intros Hin. apply (Hnw p). unfold waits. rewrite Hp. cbn. by right.
      * apply Hnw.
    + rewrite list_lookup_insert_ne in Hj by done.
      destruct (decide (next = j)) as [<-|Hnj].
      * rewrite list_lookup_insert_eq in Hj by done. injection Hj as <-.
        exists (Some p). split; [done|].
        split; intros r; unfold holds, waits; rewrite Hlock;
          destruct (decide (p = r)) as [<-|Hpr]; cbn.
        -- done.
        -- fold (holds st next r). split; [by intros ?%Hnh|congruence].
        -- done.
        -- fold (waits st next r). rewrite (Hwq r). congruence.
      * rewrite list_lookup_insert_ne in Hj by done.
        apply (task_ok_frame st); [| |by apply Ht];
          intros r; unfold holds, waits; rewrite Hlock;
          destruct (decide (p = r)) as [<-|Hpr]; try done; rewrite Hp; cbn.
        -- split; congruence.
        -- rewrite elem_of_cons.
           split; [by right|intros [?|?]; [congruence|done]].
  - intros r. rewrite Hlock. destruct (decide (p = r)) as [<-|Hpr]; [|apply Hq].
    cbn. split; [done|done].
  - intros r j Hj. unfold waits in Hj. rewrite Hlock in Hj. cbn.
    assert (Hj' : waits st j r).
    { unfold waits. destruct (decide (p = r)) as [<-|Hpr]; [|done].
      rewrite Hp. cbn. by right. }
    destruct (Hw r j Hj') as [kj Hkj]. exists kj.
    rewrite !list_lookup_insert_ne; [done| |].
    + intros <-. destruct (decide (p = r)) as [<-|Hpr]; [done|].
      apply Hpr. symmetry. by apply Hwq.
    + intros <-. congruence.
  - intros r. rewrite Hlock. subst st'. cbn [st_log].
    rewrite requests_app, grants_app, !requests_cons, !grants_cons.
    specialize (Hf r). destruct (decide (p = r)) as [<-|Hpr].
    + rewrite Hp in Hf. cbn in *. rewrite app_nil_r, Hf.
      by rewrite <- app_assoc.
    + cbn. by rewrite !app_nil_r.
Qed.

Lemma inv_step (i : nat) (st : state) : inv st -> inv (step i st).
Proof.
  intros Hinv. destruct st as [fs locks tasks log]. unfold step.
  set (st := State fs locks tasks log) in *.
  destruct (tasks !! i) as [[m|p k|c k|o]|] eqn:Hi; try done.
  - pose proof (inv_tasks st Hinv i _ Hi) as (h & Hg & Hh & Hnw).
    destruct m as [a|e|p k|p k|c k].
    + rewrite <- (app_nil_r log).
      apply (inv_local st i (Running (Ret a))); try done.
      cbn in Hg. subst h. split; [|done]. intros p. by rewrite (Hh p).
    + rewrite <- (app_nil_r log).
      apply (inv_local st i (Running (Throw e))); try done.
      cbn in Hg. subst h. split; [|done]. intros p. by rewrite (Hh p).
    + destruct (lock_of st p) as [[j|] q] eqn:Hp.
      * by apply (inv_acquire_held st).
      * by apply (inv_acquire_free st).
    + destruct Hg as [-> Hg].
      assert (Hhold : holds st i p) by by apply Hh.
      unfold holds in Hhold.
      destruct (lock_of st p) as [[j|] q] eqn:Hp; cbn in Hhold; [|done].
      injection Hhold as ->. rewrite Nat.eqb_refl.
      destruct q as [|next q]; [by apply (inv_release_last st)|].
      assert (Hwn : waits st next p).
      { unfold waits. rewrite Hp. cbn. by left. }
      destruct (inv_waiting st Hinv p next Hwn) as [k' Hk'].
      cbn in Hk'. rewrite Hk'.
      by apply (inv_release_next st i next p p).
    + destruct Hg as [-> Hg].
      apply (inv_local st i (Running (Sys c k))); try done.
      split; [done|]. split; [|done].
      intros p. rewrite (Hh p). split; congruence.
  - pose proof (inv_tasks st Hinv i _ Hi) as (Hg & Hh & Hnw).
    destruct (sys_exec c fs) as [r fs'].
    apply (inv_local st i (InFlight c k)); try done.
    exists (Some (target c)). split; [done|]. split; [|done].
    intros p. rewrite (Hh p). split; congruence.
Qed.

Lemma inv_init (fs : FS) (ms : list (prog value)) :
  Forall (guarded None) ms -> inv (init fs ms).
Proof.
  intros Hms. unfold init. split; cbn.
  - intros i t Hi. rewrite list_lookup_fmap in Hi.
    destruct (ms !! i) as [m|] eqn:Hm; [|done]. injection Hi as <-.
    exists None. split.
    + rewrite Forall_forall in Hms. apply Hms. by eapply list_elem_of_lookup_2.
    + split; [|intros p; apply not_elem_of_nil]. by intros p.
  - intros p. split; [apply NoDup_nil_2|done].
  - intros p j Hj. by apply elem_of_nil in Hj.
  - done.
Qed.

Lemma inv_exec (schedule : list nat) (st : state) :
  inv st -> inv (exec schedule st).
Proof.
  revert st. induction schedule as [|i schedule IH]; intros st Hst; [done|].
  apply IH. by apply inv_step.
Qed.

Lemma inv_operations (fs : FS) (folder : path) (ops : list op) (schedule : list nat) :
  inv (exec schedule (init fs (map (perform folder) ops))).
Proof.
  apply inv_exec, inv_init. apply Forall_forall.
  intros m [o [-> _]]%list_elem_of_fmap. apply guarded_perform.
Qed.

(** Without the lock, the two writes of the same file are under way at the
    same time. *)
Example unlocked_writes_overlap :
  st_tasks (exec [0; 1]%nat unlocked) !! 0%nat
    = Some (InFlight (WriteFile ["s"; "a.json"] "1")
              (fun r => (match r with
                         | inr v => Ret v
                         | inl e => Throw (IOError e (WriteFile ["s"; "a.json"] "1"))
                         end) ;;; Ret VUndefined))
  /\ executing (exec [0; 1]%nat unlocked) 0 ["s"; "a.json"]
  /\ executing (exec [0; 1]%nat unlocked) 1 ["s"; "a.json"].
Proof.
  split; [reflexivity|]. split; eexists _, _; split; reflexivity.
Qed.

(** C1: whatever the schedule of a set of read, write and remove
    operations, no two of them have a file-system call on the same path
    under way at the same time, and the one that has holds the lock of the
    path; each operation takes the lock of its path, makes its call on that
    path and gives the lock back; the locks of a path are granted in the
    order they were asked for; and operations on different paths may
    complete in either order. *)
Theorem C1_per_path_mutual_exclusion (fs : FS) (folder : path) (ops : list op)
  (schedule : list nat) :
  let st := exec schedule (init fs (map (perform folder) ops)) in
  (forall i j p, executing st i p -> executing st j p -> i = j)
  /\ (forall i p, executing st i p -> holder (lock_of st p) = Some i)
  /\ (forall o fs1,
        let p := op_path folder o in
        exists calls,
          trace_of (run (perform folder o) fs1)
            = EvAcquire p :: calls ++ [EvRelease p]
          /\ (length calls <= 1)%nat
          /\ Forall (fun e => exists c r, e = EvSys c r /\ target c = p) calls)
  /\ (forall p,
        requests p (st_log st) = grants p (st_log st) ++ queue (lock_of st p))
  /\ (forall p j, j ∈ queue (lock_of st p) ->
        exists k, st_tasks st !! j = Some (Waiting p k))
  /\ began (st_log (exec [0; 1; 0; 0; 1; 1]%nat two_files)) = [0; 1]%nat
  /\ began (st_log (exec [0; 1; 1; 1; 0; 0]%nat two_files)) = [1; 0]%nat
  /\ began (st_log (exec [0; 1; 1; 1; 0; 0; 0; 1; 1]%nat one_file)) = [0; 1]%nat.
Proof.
  intros st. pose proof (inv_operations fs folder ops schedule) as Hinv.
  fold st in Hinv.
  assert (Hhold : forall i p, executing st i p -> holder (lock_of st p) = Some i).
  { intros i p (c & k & Hi & <-).
    destruct (inv_tasks st Hinv i _ Hi) as (_ & Hh & _). by apply Hh. }
  split.
  { intros i j p Hi Hj. apply Hhold in Hi, Hj. congruence. }
  split; [exact Hhold|]. split.
  { intros o fs1 p. subst p. destruct o as [data file|file|file]; unfold perform, op_path.
    - rewrite run_writeData.
      destruct (JSON.stringify data BufferJSON.replacer) as [text|].
      + destruct (fs_writeFile fs1 _ text); eexists [_]; cbn;
          (split; [reflexivity|]); (split; [lia|]); repeat constructor; by eexists _, _.
      + exists []. cbn. split; [reflexivity|]. split; [lia|constructor].
    - rewrite run_readData. eexists [_]. cbn.
      split; [reflexivity|]. split; [lia|]. repeat constructor. by eexists _, _.
    - rewrite run_removeData.
      destruct (fs_unlink fs1 _); eexists [_]; cbn;
        (split; [reflexivity|]); (split; [lia|]); repeat constructor; by eexists _, _. }
  split; [apply (inv_fifo st Hinv)|].
  split; [apply (inv_waiting st Hinv)|].
  split; [|split]; vm_compute; reflexivity.
Qed.

(** * Laws of the store and of the session *)

(** ** Names on disk *)

Lemma replace_char_none c r (s : string) :
  Str.forallb (fun x => negb (Ascii.eqb x c)) s = true ->
  Str.replace_char c r s = s.
Proof.
  induction s as [|x s IH]; [done|]. cbn.
  intros [Hx Hs]%andb_prop. apply negb_true_iff in Hx. rewrite Hx.
  by rewrite IH.
Qed.

Lemma forallb_impl (f g : ascii -> bool) (s : string) :
  (forall c, f c = true -> g c = true) ->
  Str.forallb f s = true -> Str.forallb g s = true.
Proof.
  intros Hfg. induction s as [|x s IH]; [done|]. cbn.
  intros [Hx Hs]%andb_prop. by rewrite (Hfg x Hx), IH.
Qed.

Lemma fixFileName_plain (s : string) : plain_name s = true -> fixFileName s = s.
Proof.
  intros Hs. unfold fixFileName.
  rewrite (replace_char_none "/" "__" s).
  - apply replace_char_none. revert Hs. apply forallb_impl.
    intros c [_ H]%andb_prop. exact H.
  - revert Hs. apply forallb_impl. intros c [H _]%andb_prop. exact H.
Qed.

Lemma fixFileName_idempotent (s : string) :
  fixFileName (fixFileName s) = fixFileName s.
Proof. apply fixFileName_plain, fixFileName_clean. Qed.

Lemma is_word_facts (c : ascii) :
  is_word c = true ->
  is_space c = false /\ Ascii.eqb c "/" = false /\ Ascii.eqb c ":" = false
  /\ Ascii.eqb c "-" = false.
Proof.
  destruct c as [[] [] [] [] [] [] [] []]; intros H; try discriminate H;
    repeat split; reflexivity.
Qed.

Lemma sanitizeName_word (input : option string) :
  Str.forallb is_word (sanitizeName input) = true
  /\ (String.length (sanitizeName input) <= 8)%nat
  /\ sanitizeName input <> EmptyString.
Proof.
  unfold sanitizeName.
  set (f := Str.filter is_word _).
  assert (Hf : Str.forallb is_word f = true) by apply filter_forallb.
  assert (H : let r := if (8 <? String.length f)%nat then Str.take 8 f else f in
              Str.forallb is_word r = true /\ (String.length r <= 8)%nat).
  { cbn zeta. destruct (8 <? String.length f)%nat eqn:E.
    - split; [by apply take_forallb|apply take_length].
    - apply Nat.ltb_ge in E. done. }
  cbn zeta in H. destruct H as [H1 H2].
  destruct (if (8 <? String.length f)%nat then Str.take 8 f else f) as [|c r];
    cbn in *; repeat split; try done; lia.
Qed.

Lemma trimEnd_no_space (s : string) :
  Str.forallb (fun c => negb (is_space c)) s = true -> trimEnd s = s.
Proof.
  induction s as [|c s IH]; [done|]. cbn.
  intros [Hc Hs]%andb_prop. apply negb_true_iff in Hc. by rewrite Hc, IH.
Qed.

Lemma replace_ws_runs_no_space (b : bool) (s : string) :
  Str.forallb (fun c => negb (is_space c)) s = true -> replace_ws_runs b s = s.
Proof.
  revert b. induction s as [|c s IH]; intros b; [done|]. cbn.
  intros [Hc Hs]%andb_prop. apply negb_true_iff in Hc. by rewrite Hc, IH.
Qed.

Lemma filter_all f (s : string) :
  Str.forallb f s = true -> Str.filter f s = s.
Proof.
  induction s as [|c s IH]; [done|]. cbn.
  intros [-> Hs]%andb_prop. by rewrite IH.
Qed.

(** X1: a base name is a fixed point of [sanitizeName], and the credential
    file is the base name followed by [.json], which [fixFileName] leaves
    as it is. *)
Theorem X1_base_name_is_stable (input : option string) (folder : path) :
  sanitizeName (Some (sanitizeName input)) = sanitizeName input
  /\ fixFileName (cred_file (sanitizeName input)) = sanitizeName input +:+ ".json"
  /\ cred_path folder input = folder ++ [sanitizeName input +:+ ".json"].
Proof.
  destruct (sanitizeName_word input) as (Hw & Hlen & Hne).
  set (b := sanitizeName input) in *.
  assert (Hns : Str.forallb (fun c => negb (is_space c)) b = true).
  { revert Hw. apply forallb_impl. intros c Hc.
    destruct (is_word_facts c Hc) as [-> _]. done. }
  assert (Hplain : fixFileName (cred_file b) = b +:+ ".json").
  { apply fixFileName_plain. unfold plain_name, cred_file.
    rewrite forallb_append. apply andb_true_intro. split; [|done].
    revert Hw. apply forallb_impl. intros c Hc.
    destruct (is_word_facts c Hc) as (_ & -> & -> & _). done. }
  split; [|split; [done|]].
  - unfold sanitizeName at 1. unfold trim.
    assert (Hts : trimStart b = b).
    { destruct b as [|c r]; [done|]. cbn in Hns |- *.
      apply andb_prop in Hns as [Hc _]. apply negb_true_iff in Hc. by rewrite Hc. }
    rewrite Hts, trimEnd_no_space by done.
    assert (Hor : str_or b "auth" = b) by (destruct b; done).
    rewrite Hor, replace_ws_runs_no_space, filter_all by done.
    apply Nat.ltb_ge in Hlen. rewrite Hlen. exact Hor.
  - unfold cred_path. fold b. by rewrite Hplain.
Qed.

(** X2: [fixFileName] is idempotent and leaves a name without [/] and [:]
    as it is; so a category and an id, and what [fixFileName] makes of
    them, name the same file, and the three operations on the one record go
    to the file of the other. *)
Theorem X2_names_alias (folder : path) (category id : string) :
  fixFileName (fixFileName id) = fixFileName id
  /\ (plain_name id = true -> fixFileName id = id)
  /\ key_path folder (fixFileName category) (fixFileName id)
     = key_path folder category id
  /\ (forall data,
        op_path folder (OpWrite data (key_file (fixFileName category) (fixFileName id)))
          = op_path folder (OpRead (key_file category id)))
  /\ (fixFileName id = id <-> plain_name id = true).
Proof.
  assert (Hk : fixFileName (key_file (fixFileName category) (fixFileName id))
               = fixFileName (key_file category id)).
  { unfold key_file. by rewrite !fixFileName_append, !fixFileName_idempotent. }
  split; [apply fixFileName_idempotent|].
  split; [apply fixFileName_plain|].
  split; [unfold key_path; by rewrite Hk|].
  split; [intros data; unfold op_path; by rewrite Hk|].
  split; [|apply fixFileName_plain].
  intros <-. apply fixFileName_clean.
Qed.

(** ** What an operation leaves alone *)

Lemma fs_writeFile_frame (fs fs' : FS) (p q : path) (text : string) :
  fs_writeFile fs p text = inr fs' -> q <> p -> fs' !! q = fs !! q.
Proof.
  unfold fs_writeFile. intros H Hq.
  destruct (fs !! p) as [[old m|m]|]; try done.
  - destruct (can_write m); [|done]. injection H as <-.
    by rewrite lookup_insert_ne.
  - destruct (fs !! parent p) as [[? ?|m]|]; try done.
    destruct (can_write m); [|done]. injection H as <-.
    by rewrite lookup_insert_ne.
Qed.

Lemma fs_unlink_frame (fs fs' : FS) (p q : path) :
  fs_unlink fs p = inr fs' -> q <> p -> fs' !! q = fs !! q.
Proof.
  unfold fs_unlink. intros H Hq.
  destruct (fs !! p) as [[old m|m]|]; try done.
  destruct (dir_writable fs (parent p)); [|done]. injection H as <-.
  by rewrite lookup_delete_ne.
Qed.

Lemma perform_frame (folder : path) (o : op) (fs : FS) (q : path) :
  q <> op_path folder o ->
  fs_of (run (perform folder o) fs) !! q = fs !! q.
Proof.
  intros Hq. destruct o as [data file|file|file]; unfold perform, op_path in *.
  - rewrite run_writeData.
    destruct (JSON.stringify data BufferJSON.replacer) as [text|]; [|done].
    destruct (fs_writeFile fs _ text) eqn:E; [done|].
    by eapply fs_writeFile_frame.
  - by rewrite run_readData.
  - rewrite run_removeData. destruct (fs_unlink fs _) eqn:E; [done|].
    by eapply fs_unlink_frame.
Qed.

Lemma run_each_frame {A : Type} (ms : list (prog A)) (q : path) :
  Forall (fun m => forall fs, fs_of (run m fs) !! q = fs !! q) ms ->
  forall fs, snd (run_each ms fs) !! q = fs !! q.
Proof.
  induction 1 as [|m ms Hm Hms IH]; intros fs; [done|]. cbn [run_each].
  specialize (Hm fs). destruct (run m fs) as [[tr o] fs1].
  specialize (IH fs1). destruct (run_each ms fs1) as [[trs rs] fs2].
  cbn in *. by rewrite IH.
Qed.

Lemma set_tasks_ops (h : handle) (data : list (string * list (string * value))) :
  set_tasks h data = map (perform (h_folder h)) (map set_op (triples data)).
Proof.
  rewrite set_tasks_triples, map_map. apply map_ext.
  intros [[category id] value]. cbn. by destruct (truthy value).
Qed.

Lemma set_op_path (folder : path) (t : string * string * value) :
  op_path folder (set_op t) = triple_path folder t.
Proof. destruct t as [[c i] v]. cbn. by destruct (truthy v). Qed.

Lemma fs_of_keys_set (h : handle) (data : list (string * list (string * value)))
  (fs : FS) :
  fs_of (run (keys_set h data) fs) = snd (run_each (set_tasks h data) fs).
Proof.
  unfold keys_set. rewrite run_bind, run_promise_all.
  destruct (run_each (set_tasks h data) fs) as [[trs rs] fs'].
  destruct (collect rs); [done|]. by rewrite run_ret.
Qed.

Lemma keys_set_frame (h : handle) (data : list (string * list (string * value)))
  (fs : FS) (q : path) :
  q ∉ map (triple_path (h_folder h)) (triples data) ->
  fs_of (run (keys_set h data) fs) !! q = fs !! q.
Proof.
  intros Hq. rewrite fs_of_keys_set, set_tasks_ops.
  apply run_each_frame. rewrite Forall_forall.
  intros m [o [-> [t [-> Ht]]%list_elem_of_fmap]]%list_elem_of_fmap fs1.
  apply perform_frame. rewrite set_op_path. intros ->.
  apply Hq. apply list_elem_of_fmap. by exists t.
Qed.

(** X4: an operation of the record store changes no path but its own, a
    read changes nothing, and [keys.set] changes no path but those of the
    triples of its update, whether it succeeds or fails. *)
Theorem X4_operations_touch_their_file_only (h : handle) (fs : FS) :
  (forall o q, q <> op_path (h_folder h) o ->
     fs_of (run (perform (h_folder h) o) fs) !! q = fs !! q)
  /\ (forall file, fs_of (run (readData (h_folder h) file) fs) = fs)
  /\ (forall data q,
        q ∉ map (triple_path (h_folder h)) (triples data) ->
        fs_of (run (keys_set h data) fs) !! q = fs !! q)
  /\ (forall fromObject type ids,
        fs_of (run (keys_get fromObject h type ids) fs) = fs)
  /\ (forall q, q <> join (h_folder h) (fixFileName (h_credFileName h)) ->
        fs_of (run (saveCreds h) fs) !! q = fs !! q).
Proof.
  split; [intros o q; apply perform_frame|].
  split; [intros file; by rewrite run_readData|].
  split; [intros data q; apply keys_set_frame|].
  split; [intros fromObject type ids; apply run_keys_get|].
  intros q Hq. unfold saveCreds.
  by apply (perform_frame (h_folder h) (OpWrite (creds h) (h_credFileName h))).
Qed.

(** ** The credential file and the records *)

Lemma key_file_has_hyphen (category id : string) :
  has_hyphen (fixFileName (key_file category id)) = true.
Proof.
  unfold has_hyphen, key_file. rewrite !fixFileName_append, !forallb_append.
  change (fixFileName "-") with "-"%string. cbn.
  by rewrite andb_false_r.
Qed.

Lemma cred_file_has_no_hyphen (name : option string) :
  has_hyphen (fixFileName (cred_file (sanitizeName name))) = false.
Proof.
  destruct (sanitizeName_word name) as (Hw & _ & _).
  rewrite fixFileName_plain.
  - unfold has_hyphen, cred_file. rewrite forallb_append.
    apply negb_false_iff, andb_true_intro. split; [|done].
    revert Hw. apply forallb_impl. intros c Hc.
    destruct (is_word_facts c Hc) as (_ & _ & _ & ->). done.
  - unfold plain_name, cred_file. rewrite forallb_append.
    apply andb_true_intro. split; [|done].
    revert Hw. apply forallb_impl. intros c Hc.
    destruct (is_word_facts c Hc) as (_ & -> & -> & _). done.
Qed.

Lemma join_inj (folder : path) (a b : string) :
  join folder a = join folder b -> a = b.
Proof. unfold join. intros H%app_inv_head. by injection H. Qed.

Lemma cred_path_not_key_path (folder : path) (name : option string)
  (category id : string) :
  cred_path folder name <> key_path folder category id.
Proof.
  unfold cred_path, key_path. intros H%join_inj.
  pose proof (cred_file_has_no_hyphen name) as Hc.
  rewrite H, key_file_has_hyphen in Hc. done.
Qed.

(** X3: the credential file of a session is the file of no record, whatever
    the category and the id; so no update of the key store touches the
    credential file, and saving the credentials touches no record. *)
Theorem X3_credentials_apart_from_records (folder : path) (name : option string)
  (c : value) (fs : FS) :
  let h := Handle folder (cred_file (sanitizeName name)) c in
  (forall category id, cred_path folder name <> key_path folder category id)
  /\ (forall data,
        fs_of (run (keys_set h data) fs) !! cred_path folder name
          = fs !! cred_path folder name)
  /\ (forall category id,
        fs_of (run (saveCreds h) fs) !! key_path folder category id
          = fs !! key_path folder category id).
Proof.
  cbn zeta. split; [intros; apply cred_path_not_key_path|]. split.
  - intros data. apply keys_set_frame. cbn.
    intros [t [Ht _]]%list_elem_of_fmap.
    by apply cred_path_not_key_path in Ht.
  - intros category id. unfold saveCreds. cbn.
    apply (perform_frame folder (OpWrite c (cred_file (sanitizeName name)))).
    intros H. symmetry in H. by apply cred_path_not_key_path in H.
Qed.

(** ** Round trips through the store *)



Lemma result_of_keys_set (h : handle) (data : list (string * list (string * value)))
  (fs : FS) :
  result_of (run (keys_set h data) fs) =
    match collect (snd (fst (run_each (set_tasks h data) fs))) with
    | inr _ => Done tt
    | inl e => Raised e
    end.
Proof.
  unfold keys_set. rewrite run_bind, run_promise_all.
  destruct (run_each (set_tasks h data) fs) as [[trs rs] fs'].
  cbn. destruct (collect rs); [done|]. by rewrite run_ret.
Qed.

Lemma perform_readable (folder : path) (o : op) (fs : FS) (p : path) :
  readable_at fs p -> readable_at (fs_of (run (perform folder o) fs)) p.
Proof.
  intros Hr. destruct o as [data file|file|file]; unfold perform.
  - rewrite run_writeData.
    destruct (JSON.stringify data BufferJSON.replacer) as [text|]; [|done].
    set (q := join folder (fixFileName file)).
    destruct (fs_writeFile fs q text) as [e|fs'] eqn:E; [done|]. cbn.
    destruct (decide (p = q)) as [->|Hpq].
    + unfold fs_writeFile in E. intros text' m'.
      destruct (fs !! q) as [[old m|m]|] eqn:Eq; try done.
      * destruct (can_write m); [|done]. injection E as <-.
        rewrite lookup_insert_eq. intros [= <- <-]. by eapply Hr.
      * destruct (fs !! parent q) as [[? ?|m]|]; try done.
        destruct (can_write m); [|done]. injection E as <-.
        rewrite lookup_insert_eq. by intros [= <- <-].
    + intros text' m'. rewrite (fs_writeFile_frame _ _ _ _ _ E Hpq). apply Hr.
  - by rewrite run_readData.
  - rewrite run_removeData.
    set (q := join folder (fixFileName file)).
    destruct (fs_unlink fs q) as [e|fs'] eqn:E; [done|]. cbn.
    unfold fs_unlink in E.
    destruct (fs !! q) as [[old m|m]|] eqn:Eq; try done.
    destruct (dir_writable fs (parent q)); [|done]. injection E as <-.
    intros text' m'. destruct (decide (p = q)) as [->|Hpq].
    + by rewrite lookup_delete_eq.
    + rewrite lookup_delete_ne by done. apply Hr.
Qed.


Lemma write_then_stored (folder : path) (file : string) (v a : value) (fs : FS) :
  let p := join folder (fixFileName file) in
  storable v = true ->
  result_of (run (writeData folder v file) fs) = Done a ->
  readable_at fs p ->
  readable_at (fs_of (run (writeData folder v file) fs)) p
  /\ exists m, fs_of (run (writeData folder v file) fs) !! p
               = Some (File (text_of (encode_buffers v)) m).
Proof.
  intros p Hv Hw Hr.
  split; [apply (perform_readable folder (OpWrite v file)), Hr|].
  revert Hw. rewrite run_writeData. fold p.
  destruct (stringify_parse v Hv) as [-> _].
  destruct (fs_writeFile fs p _) as [e|fs'] eqn:E; [done|]. intros _. cbn.
  unfold fs_writeFile in E.
  destruct (fs !! p) as [[old m|m]|] eqn:Eq; try done.
  - destruct (can_write m); [|done]. injection E as <-.
    rewrite lookup_insert_eq. by eexists.
  - destruct (fs !! parent p) as [[? ?|m]|]; try done.
    destruct (can_write m); [|done]. injection E as <-.
    rewrite lookup_insert_eq. by eexists.
Qed.

Lemma stored_value_file (fs : FS) (p : path) (v : value) (m : mode) :
  storable v = true ->
  fs !! p = Some (File (text_of (encode_buffers v)) m) ->
  readable_at fs p ->
  stored_value fs p = v.
Proof.
  intros Hv Hp Hr. unfold stored_value, fs_readFile. rewrite Hp.
  rewrite (Hr _ _ Hp). by destruct (stringify_parse v Hv) as [_ ->].
Qed.




(** ** Saving the credentials and opening again *)

(** X6: credentials that have been saved are the credentials of the session
    when it is opened again, whatever bundle [initAuthCreds] would give,
    and opening again changes nothing on disk. *)
Theorem X6_save_then_reopen (initAuthCreds : value) (folder : path)
  (name : option string) (c : value) (fs : FS) :
  let h := Handle folder (cred_file (sanitizeName name)) c in
  let saved := run (saveCreds h) fs in
  is_dir (fs !! folder) = true ->
  storable c = true ->
  truthy c = true ->
  result_of saved = Done VUndefined ->
  (forall text m, fs !! cred_path folder name = Some (File text m) ->
                  can_read m = true) ->
  result_of (run (useMultiFileAuthState initAuthCreds folder name) (fs_of saved))
    = Done h
  /\ fs_of (run (useMultiFileAuthState initAuthCreds folder name) (fs_of saved))
     = fs_of saved.
Proof.
  intros h saved Hdir Hc Ht Hok Hr. subst saved h. unfold saveCreds in *.
  cbn [h_folder h_credFileName creds] in *.
  set (file := cred_file (sanitizeName name)) in *.
  destruct (write_then_stored folder file c VUndefined fs Hc Hok Hr) as [Hr2 [m Hm]].
  pose proof (perform_frame folder (OpWrite c file) fs folder) as Hf.
  cbn [perform op_path] in Hf.
  set (fs' := fs_of (run (writeData folder c file) fs)) in *.
  assert (Hdir' : is_dir (fs' !! folder) = true).
  { rewrite Hf; [done|]. unfold join. intros H.
    apply (f_equal length) in H. rewrite length_app in H. cbn in H. lia. }
  rewrite run_open. destruct (fs' !! folder) as [[?|?]|]; try done.
  cbn. split; [|done]. do 2 f_equal. fold file.
  rewrite (stored_value_file fs' _ c m Hc Hm Hr2). unfold js_or. by rewrite Ht.
Qed.

Lemma X6_save_then_reopen_witness :
  let h := Handle ["s"] "auth.json" nested_payload in
  result_of (run (saveCreds h) fs_session_empty) = Done VUndefined
  /\ result_of (run (useMultiFileAuthState VNull ["s"] None)
                  (fs_of (run (saveCreds h) fs_session_empty)))
     = Done h.
Proof.
  cbn zeta.
  assert (H : result_of (run (saveCreds (Handle ["s"] "auth.json" nested_payload))
                           fs_session_empty) = Done VUndefined)
    by (vm_compute; reflexivity).
  split; [exact H|].
  refine (proj1 (X6_save_then_reopen VNull ["s"] None nested_payload
                   fs_session_empty eq_refl eq_refl eq_refl H _)).
  intros text m Hf. discriminate Hf.
Defined.

(** ** What opening a session changes *)

Lemma mkdir_from_changes (todo done : path) (fs fs' : FS) (q : path) :
  fs_mkdir_from fs done todo = inr fs' ->
  fs' !! q = fs !! q
  \/ (fs !! q = None /\ fs' !! q = Some (Dir rw)
      /\ exists k, (1 <= k <= length todo)%nat /\ q = done ++ take k todo).
Proof.
  revert done fs. induction todo as [|seg todo IH]; intros done fs H.
  - injection H as <-. by left.
  - cbn in H. destruct (fs !! (done ++ [seg])) as [[?|m]|] eqn:E; [done| |].
    + destruct (IH _ _ H) as [Hq|(Hq & Hq' & k & Hk & ->)]; [by left|right].
      split; [done|]. split; [done|]. exists (S k). split; [cbn; lia|].
      cbn. by rewrite <- app_assoc.
    + destruct (dir_writable fs done); [|done].
      destruct (IH _ _ H) as [Hq|(Hq & Hq' & k & Hk & ->)].
      * destruct (decide (q = done ++ [seg])) as [->|Hne].
        -- right. rewrite Hq, lookup_insert_eq. split; [done|]. split; [done|].
           exists 1%nat. split; [cbn; lia|]. cbn. by rewrite take_0.
        -- left. by rewrite Hq, lookup_insert_ne.
      * right. destruct (decide ((done ++ [seg]) ++ take k todo = done ++ [seg]))
          as [Heq|Hne].
        { rewrite Heq, lookup_insert_eq in Hq. done. }
        rewrite lookup_insert_ne in Hq by done.
        split; [done|]. split; [done|]. exists (S k). split; [cbn; lia|].
        cbn. by rewrite <- app_assoc.
Qed.

Lemma stored_value_lookup (fs fs' : FS) (p : path) :
  fs' !! p = fs !! p -> stored_value fs' p = stored_value fs p.
Proof. unfold stored_value, fs_readFile. by intros ->. Qed.

(** X7: opening a session writes no file and removes nothing: whatever it
    changes is a directory it has created on the way to the folder, where
    nothing was.  The credentials are read and not written: a bundle taken
    from [initAuthCreds] is not on disk after the opening, so that a second
    opening, which changes nothing, reads the same file and falls back on
    the bundle it is given itself. *)
Theorem X7_open_creates_directories_only (initAuthCreds : value) (folder : path)
  (name : option string) (fs : FS) :
  let opening := run (useMultiFileAuthState initAuthCreds folder name) fs in
  let credFileName := cred_file (sanitizeName name) in
  (forall q,
     fs_of opening !! q = fs !! q
     \/ (fs !! q = None /\ fs_of opening !! q = Some (Dir rw)
         /\ exists k, (1 <= k <= length folder)%nat /\ q = take k folder))
  /\ (forall q, is_file (fs_of opening !! q) = is_file (fs !! q))
  /\ fs_of opening !! cred_path folder name = fs !! cred_path folder name
  /\ (forall h other,
        result_of opening = Done h ->
        h = Handle folder credFileName
              (js_or (stored_value fs (cred_path folder name)) initAuthCreds)
        /\ result_of (run (useMultiFileAuthState other folder name) (fs_of opening))
           = Done (Handle folder credFileName
                     (js_or (stored_value fs (cred_path folder name)) other))
        /\ fs_of (run (useMultiFileAuthState other folder name) (fs_of opening))
           = fs_of opening).
Proof.
  intros opening credFileName.
  assert (H1 : forall q,
     fs_of opening !! q = fs !! q
     \/ (fs !! q = None /\ fs_of opening !! q = Some (Dir rw)
         /\ exists k, (1 <= k <= length folder)%nat /\ q = take k folder)).
  { intros q. subst opening. rewrite run_open.
    destruct (fs !! folder) as [[?|?]|]; [by left|by left|].
    destruct (fs_mkdir fs folder) as [e|fs'] eqn:E; [by left|].
    apply (mkdir_from_changes folder [] fs fs' q E). }
  assert (H3 : fs_of opening !! cred_path folder name = fs !! cred_path folder name).
  { destruct (H1 (cred_path folder name)) as [H|(_ & _ & k & Hk & H)]; [done|].
    apply (f_equal length) in H. unfold cred_path, join in H.
    rewrite length_app, length_take in H. cbn in H. lia. }
  split; [exact H1|]. split; [|split; [exact H3|]].
  - intros q. destruct (H1 q) as [->|(-> & -> & _)]; done.
  - intros h other. pose proof (stored_value_lookup _ _ _ H3) as Hs. revert Hs H3.
    subst opening. rewrite run_open. fold credFileName.
    destruct (fs !! folder) as [[?|m]|] eqn:Ef; [done| |].
    + unfold result_of, fs_of. cbn [fst snd]. intros _ _ [= <-]. split; [done|].
      rewrite run_open, Ef. done.
    + destruct (fs_mkdir fs folder) as [e|fs'] eqn:E; [done|].
      unfold result_of, fs_of. cbn [fst snd]. intros Hs H3 [= <-].
      unfold cred_path in Hs. fold credFileName in Hs.
      split; [by rewrite Hs|].
      rewrite run_open. fold credFileName.
      destruct (decide (folder = [])) as [->|Hne].
      * assert (fs' = fs) as -> by (unfold fs_mkdir in E; cbn in E; congruence).
        by rewrite Ef, E.
      * destruct (mkdir_from_spec folder [] fs fs' E) as [Hd _].
        specialize (Hd (length folder)). rewrite firstn_all in Hd.
        assert (Hdir : is_dir (fs' !! folder) = true).
        { apply Hd. destruct folder; [done|]. cbn. lia. }
        destruct (fs' !! folder) as [[?|?]|]; try done.
        by rewrite Hs.
Qed.

(** ** The object [keys.get] returns *)







(** ** How an update can fail *)

Lemma replace_walk_undefined (fuel : nat) (v : value) :
  JSON.replace_walk BufferJSON.replacer fuel v = VUndefined -> v = VUndefined.
Proof.
  destruct fuel; cbn; destruct v; cbn; done.
Qed.

Lemma stringify_undefined (v : value) :
  JSON.stringify v BufferJSON.replacer = None <-> v = VUndefined.
Proof.
  unfold JSON.stringify. split; [|by intros ->].
  intros H. apply (replace_walk_undefined (S (JSON.height v))).
  destruct (JSON.replace_walk _ _ v) as [| |[]| | | | |]; cbn in H; done.
Qed.

Lemma collect_inl {A : Type} (rs : list (exn + A)) (e : exn) :
  collect rs = inl e -> inl e ∈ rs.
Proof.
  induction rs as [|[e'|a] rs IH]; cbn; [done| |].
  - intros [= ->]. apply list_elem_of_here.
  - destruct (collect rs); [|done]. intros [= ->].
    apply list_elem_of_further. by apply IH.
Qed.

Lemma collect_all_inr {A : Type} (rs : list (exn + A)) :
  Forall (fun r => exists a, r = inr a) rs -> exists l, collect rs = inr l.
Proof.
  induction 1 as [|r rs [a ->] _ [l IH]]; cbn; [by eexists|].
  rewrite IH. by eexists.
Qed.

Lemma run_each_results (folder : path) (os : list op) (fs : FS) (r : exn + value) :
  r ∈ snd (fst (run_each (map (perform folder) os) fs)) ->
  exists o fs1, o ∈ os
    /\ r = match result_of (run (perform folder o) fs1) with
           | Done a => inr a
           | Raised e => inl e
           end.
Proof.
  revert fs. induction os as [|o os IH]; intros fs; cbn [map run_each].
  - cbn. by intros ?%elem_of_nil.
  - destruct (run (perform folder o) fs) as [[tr out] fs1] eqn:E.
    specialize (IH fs1).
    destruct (run_each (map (perform folder) os) fs1) as [[trs rs] fs2].
    cbn in *. intros [->|Hin]%elem_of_cons.
    + exists o, fs. split; [apply list_elem_of_here|]. by rewrite E.
    + destruct (IH Hin) as (o' & fs' & Ho' & ->). exists o', fs'.
      split; [by apply list_elem_of_further|done].
Qed.

(** X10: [writeData] throws a [TypeError] before any call to the file
    system exactly when it is given [undefined], which [keys.set] never
    passes on; so an update is rejected only with the error of a
    [writeFile] for one of its truthy values, and an update of falsy values
    only is never rejected. *)
Theorem X10_update_rejected_by_a_write_only (h : handle)
  (data : list (string * list (string * value))) (fs : FS) :
  (forall v file,
     let p := join (h_folder h) (fixFileName file) in
     (v = VUndefined <->
      run (writeData (h_folder h) v file) fs
        = ([EvAcquire p; EvRelease p], Raised TypeError, fs)))
  /\ (forall e,
        result_of (run (keys_set h data) fs) = Raised e ->
        exists category id v text err,
          (category, id, v) ∈ triples data
          /\ truthy v = true
          /\ JSON.stringify v BufferJSON.replacer = Some text
          /\ e = IOError err (WriteFile (key_path (h_folder h) category id) text))
  /\ (Forall (fun t => truthy (snd t) = false) (triples data) ->
        result_of (run (keys_set h data) fs) = Done tt).
Proof.
  split; [|split].
  - intros v file p. rewrite run_writeData. fold p. split.
    + intros ->. done.
    + destruct (JSON.stringify v BufferJSON.replacer) as [text|] eqn:E.
      * destruct (fs_writeFile fs p text); done.
      * intros _. by apply stringify_undefined.
  - intros e. rewrite result_of_keys_set, set_tasks_ops.
    destruct (collect _) as [e'|l] eqn:Ec; [|done]. intros [= ->].
    apply collect_inl, run_each_results in Ec as (o & fs1 & Ho & Hr).
    apply list_elem_of_fmap in Ho as [[[category id] v] [-> Ht]].
    exists category, id, v. revert Hr. cbn [set_op].
    destruct (truthy v) eqn:Etruthy; cbn [perform].
    + rewrite run_writeData.
      destruct (JSON.stringify v BufferJSON.replacer) as [text|] eqn:E.
      * destruct (fs_writeFile fs1 _ text) as [err|fs'] eqn:Ew; [|done].
        cbn. intros [= ->]. by exists text, err.
      * apply stringify_undefined in E as ->. done.
    + rewrite run_removeData. by destruct (fs_unlink fs1 _).
  - intros Hall. rewrite result_of_keys_set, set_tasks_ops.
    destruct (collect_all_inr
                (snd (fst (run_each (map (perform (h_folder h))
                                       (map set_op (triples data))) fs))))
      as [l ->]; [|done].
    apply Forall_forall. intros r (o & fs1 & Ho & ->)%run_each_results.
    apply list_elem_of_fmap in Ho as [[[category id] v] [-> Ht]].
    rewrite Forall_forall in Hall. specialize (Hall _ Ht). cbn in Hall.
    cbn [set_op]. rewrite Hall. cbn [perform]. rewrite run_removeData.
    destruct (fs_unlink fs1 _); by eexists.
Qed.

(** ** The calls of the facade and their locks *)










(** ** Locks are given back *)

Lemma held_step (i : nat) (st : state) : held_by_tasks st -> held_by_tasks (step i st).
Proof.
  intros H. destruct st as [fs locks tasks log]. unfold step.
  destruct (tasks !! i) as [[m|q k|c k|o]|] eqn:E; try done.
  - destruct m as [v|e|p k|p k|c k].
    + intros p j Hj. cbn. rewrite length_insert. by apply (H p j).
    + intros p j Hj. cbn. rewrite length_insert. by apply (H p j).
    + destruct (lock_of (State fs locks tasks log) p) as [[j0|] q] eqn:El.
      * intros p' j. cbn [st_tasks]. rewrite length_insert.
        rewrite (lock_of_insert (State fs locks tasks log) _ _ _ _ p p' _ eq_refl).
        destruct (decide (p = p')) as [<-|Hne]; [|apply (H p' j)].
        cbn. intros [= <-]. apply (H p j0). by rewrite El.
      * intros p' j. cbn [st_tasks]. rewrite length_insert.
        rewrite (lock_of_insert (State fs locks tasks log) _ _ _ _ p p' _ eq_refl).
        destruct (decide (p = p')) as [<-|Hne]; [|apply (H p' j)].
        cbn. intros [= <-]. by apply lookup_lt_Some in E.
    + destruct (lock_of (State fs locks tasks log) p) as [[j0|] q] eqn:El.
      * destruct (Nat.eqb j0 i).
        -- destruct q as [|next q'].
           ++ intros p' j. cbn [st_tasks]. rewrite length_insert.
              rewrite (lock_of_insert (State fs locks tasks log) _ _ _ _ p p' _ eq_refl).
              destruct (decide (p = p')) as [<-|Hne]; [done|apply (H p' j)].
           ++ destruct (tasks !! next) as [[?|p0 k'|? ?|?]|] eqn:En;
                intros p' j; cbn [st_tasks]; rewrite ?length_insert;
                rewrite (lock_of_insert (State fs locks tasks log) _ _ _ _ p p' _ eq_refl);
                (destruct (decide (p = p')) as [<-|Hne]; [|apply (H p' j)]);
                try done.
              cbn. intros [= <-]. by apply lookup_lt_Some in En.
        -- intros p' j Hj. cbn. rewrite length_insert. by apply (H p' j).
      * intros p' j Hj. cbn. rewrite length_insert. by apply (H p' j).
    + intros p j Hj. cbn. rewrite length_insert. by apply (H p j).
  - destruct (sys_exec c fs) as [r fs'].
    intros p j Hj. cbn. rewrite length_insert. by apply (H p j).
Qed.

Lemma held_exec (schedule : list nat) (st : state) :
  held_by_tasks st -> held_by_tasks (exec schedule st).
Proof.
  revert st. induction schedule as [|i s IH]; intros st H; [done|].
  cbn. by apply IH, held_step.
Qed.

Lemma held_init (fs : FS) (ms : list (prog value)) : held_by_tasks (init fs ms).
Proof. intros p j. unfold lock_of. cbn. by rewrite lookup_empty. Qed.

Lemma length_step (i : nat) (st : state) :
  length (st_tasks (step i st)) = length (st_tasks st).
Proof.
  destruct st as [fs locks tasks log]. unfold step.
  destruct (tasks !! i) as [[m|q k|c k|o]|]; try done.
  - destruct m as [v|e|p k|p k|c k]; cbn [st_tasks]; rewrite ?length_insert;
      try done.
    + by destruct (lock_of _ p) as [[j0|] q]; cbn; rewrite length_insert.
    + destruct (lock_of _ p) as [[j0|] q]; cbn; rewrite ?length_insert; [|done].
      destruct (Nat.eqb j0 i); cbn; rewrite ?length_insert; [|done].
      destruct q as [|next q']; cbn; rewrite ?length_insert; [done|].
      by destruct (tasks !! next) as [[?|p0 k'|? ?|?]|]; cbn;
        rewrite ?length_insert.
  - destruct (sys_exec c fs) as [r fs']. cbn. by rewrite length_insert.
Qed.

Lemma length_exec (schedule : list nat) (st : state) :
  length (st_tasks (exec schedule st)) = length (st_tasks st).
Proof.
  revert st. induction schedule as [|i s IH]; intros st; [done|].
  cbn. fold (exec s (step i st)). by rewrite IH, length_step.
Qed.

(** Who holds a lock is running or has a call under way. *)
Lemma holder_live (st : state) (p : path) (j : nat) :
  inv st -> held_by_tasks st ->
  holder (lock_of st p) = Some j ->
  exists t, st_tasks st !! j = Some t /\ live t = true.
Proof.
  intros Hinv Hheld Hj.
  destruct (lookup_lt_is_Some_2 _ _ (Hheld p j Hj)) as [t Ht].
  exists t. split; [done|].
  pose proof (inv_tasks st Hinv j t Ht) as Hok.
  destruct t as [m|q k|c k|o]; cbn in *; try done.
  - destruct Hok as (_ & Hno & _). by destruct (Hno p).
  - destruct Hok as (Hno & _). by destruct (Hno p).
Qed.

(** A task that waits, waits for a lock that is held. *)
Lemma waiting_for_holder (st : state) (i : nat) (p : path) (k : prog value) :
  inv st ->
  st_tasks st !! i = Some (Waiting p k) ->
  exists j, holder (lock_of st p) = Some j.
Proof.
  intros Hinv Hi.
  destruct (inv_tasks st Hinv i _ Hi) as (_ & _ & Hw).
  assert (Hq : waits st i p) by by apply Hw.
  destruct (inv_queue st Hinv p) as [_ Hfree].
  destruct (holder (lock_of st p)) as [j|]; [by exists j|].
  unfold waits in Hq. rewrite Hfree in Hq by done. by apply elem_of_nil in Hq.
Qed.

(** X12: while the operations run, a lock is held only by a task that is
    running or has a call under way, never by one that waits or has come
    to its end, with a value or with an exception; so there is no state in
    which every task that is left waits, and once every task has come to
    its end every lock is free and nobody waits for one.  The lock is the
    queue of waiting tasks the specification describes; [getFileLock] is
    not part of the source file. *)
Theorem X12_locks_are_given_back (fs : FS) (folder : path) (ops : list op)
  (schedule : list nat) :
  let st := exec schedule (init fs (map (perform folder) ops)) in
  (forall p j, holder (lock_of st p) = Some j ->
               exists t, st_tasks st !! j = Some t /\ live t = true)
  /\ (forall i t, st_tasks st !! i = Some t -> settled t = false ->
        exists j t', st_tasks st !! j = Some t' /\ live t' = true)
  /\ ((forall i t, st_tasks st !! i = Some t -> settled t = true) ->
      forall p, holder (lock_of st p) = None /\ queue (lock_of st p) = [])
  /\ length (st_tasks st) = length ops.
Proof.
  intros st.
  assert (Hinv : inv st) by apply inv_operations.
  assert (Hheld : held_by_tasks st) by apply held_exec, held_init.
  split; [intros p j; by apply holder_live|]. split; [|split].
  - intros i t Ht Hs. destruct (live t) eqn:El; [by exists i, t|].
    destruct t as [m|p k|c k|o]; try done.
    destruct (waiting_for_holder st i p k Hinv Ht) as [j Hj].
    destruct (holder_live st p j Hinv Hheld Hj) as [t' Ht']. by exists j, t'.
  - intros Hall p.
    assert (Hfree : holder (lock_of st p) = None).
    { destruct (holder (lock_of st p)) as [j|] eqn:Hj; [|done].
      destruct (holder_live st p j Hinv Hheld Hj) as (t & Ht & Hl).
      specialize (Hall j t Ht). by destruct t. }
    split; [done|]. by apply (inv_queue st Hinv p).
  - subst st. rewrite length_exec. cbn. by rewrite !length_map.
Qed.

(** ** Every operation comes to its end *)

Lemma within_perform (folder : path) (o : op) : within 5 (perform folder o).
Proof.
  destruct o as [data file|file|file]; unfold perform.
  - unfold writeData. cbn.
    destruct (JSON.stringify data BufferJSON.replacer) as [text|]; cbn.
    + split; [lia|]. split; [lia|]. intros [e|r]; cbn; lia.
    + lia.
  - unfold readData. cbn. split; [lia|]. split; [lia|].
    intros [e|[|data|d]]; cbn; try lia.
    destruct (JSON.parse data BufferJSON.reviver); cbn; lia.
  - unfold removeData. cbn. split; [lia|]. split; [lia|].
    intros [e|r]; cbn; lia.
Qed.

Lemma sum_list_insert (bs : list nat) (i b b' : nat) :
  bs !! i = Some b ->
  (sum_list (<[i := b']> bs) + b = sum_list bs + b')%nat.
Proof.
  revert i. induction bs as [|x bs IH]; intros i H; [done|].
  destruct i as [|i].
  - injection H as ->. cbn. lia.
  - specialize (IH i H).
    change (<[S i := b']> (x :: bs)) with (x :: <[i := b']> bs).
    cbn [sum_list sum_list_with]. lia.
Qed.

Lemma step_idle (i : nat) (st : state) : can_move st i = false -> step i st = st.
Proof.
  unfold can_move. destruct st as [fs locks tasks log]. cbn.
  by destruct (tasks !! i) as [[m|q k|c k|o]|].
Qed.

(** A step of a task that can move uses up some of what the tasks have
    left to do. *)
Lemma step_budget (i : nat) (st : state) (bs : list nat) :
  Forall2 task_within bs (st_tasks st) ->
  can_move st i = true ->
  exists bs', Forall2 task_within bs' (st_tasks (step i st))
              /\ (sum_list bs' < sum_list bs)%nat.
Proof.
  intros Hb. unfold can_move. destruct st as [fs locks tasks log]. cbn in *.
  destruct (tasks !! i) as [t|] eqn:E; [|done]. intros Hl.
  destruct (Forall2_lookup_r _ _ _ _ _ Hb E) as (b & Eb & Hw).
  assert (Hone : forall t' b',
            task_within b' t' -> (b' < b)%nat ->
            exists bs', Forall2 task_within bs' (<[i := t']> tasks)
                        /\ (sum_list bs' < sum_list bs)%nat).
  { intros t' b' Hw' Hlt. exists (<[i := b']> bs).
    split; [by apply Forall2_insert|].
    pose proof (sum_list_insert bs i b b' Eb). lia. }
  destruct t as [m|q k|c k|o]; try done; cbn in Hw.
  - destruct m as [v|e|p k|p k|c k]; cbn in Hw.
    + apply (Hone (Settled (Done v)) 0%nat); [done|lia].
    + apply (Hone (Settled (Raised e)) 0%nat); [done|lia].
    + destruct Hw as [Hn Hw].
      destruct (lock_of _ p) as [[j0|] q]; cbn;
        [apply (Hone (Waiting p k) (b - 1)%nat)
        |apply (Hone (Running k) (b - 1)%nat)]; done || lia.
    + destruct Hw as [Hn Hw].
      destruct (lock_of _ p) as [[j0|] q]; cbn;
        [|apply (Hone (Running k) (b - 1)%nat); done || lia].
      destruct (Nat.eqb j0 i); cbn;
        [|apply (Hone (Running k) (b - 1)%nat); done || lia].
      destruct q as [|next q']; cbn;
        [apply (Hone (Running k) (b - 1)%nat); done || lia|].
      destruct (tasks !! next) as [[?|p0 k'|? ?|?]|] eqn:En; cbn;
        try (apply (Hone (Running k) (b - 1)%nat); done || lia).
      destruct (Forall2_lookup_r _ _ _ _ _ Hb En) as (bn & Ebn & Hwn).
      exists (<[i := (b - 1)%nat]> (<[next := bn]> bs)). split.
      * apply Forall2_insert; [|done]. by apply Forall2_insert.
      * rewrite (list_insert_id bs next bn Ebn).
        pose proof (sum_list_insert bs i b (b - 1) Eb). lia.
    + destruct Hw as [Hn Hw].
      apply (Hone (InFlight c k) (b - 1)%nat); [|lia]. cbn. split; [lia|].
      intros r. specialize (Hw r). by replace (b - 1 - 1)%nat with (b - 2)%nat by lia.
  - destruct Hw as [Hn Hw]. destruct (sys_exec c fs) as [r fs']. cbn.
    apply (Hone (Running (k r)) (b - 1)%nat); [apply Hw|lia].
Qed.

Lemma moves_budget (schedule : list nat) (st : state) (bs : list nat) :
  Forall2 task_within bs (st_tasks st) ->
  (moves schedule st <= sum_list bs)%nat.
Proof.
  revert st bs. induction schedule as [|i s IH]; intros st bs Hb; cbn; [lia|].
  destruct (can_move st i) eqn:E.
  - destruct (step_budget i st bs Hb E) as (bs' & Hb' & Hlt).
    specialize (IH _ _ Hb'). lia.
  - rewrite (step_idle i st E). specialize (IH _ _ Hb). lia.
Qed.

Lemma budget_exec (schedule : list nat) (st : state) (bs : list nat) :
  Forall2 task_within bs (st_tasks st) ->
  exists bs', Forall2 task_within bs' (st_tasks (exec schedule st))
              /\ (sum_list bs' <= sum_list bs)%nat.
Proof.
  revert st bs. induction schedule as [|i s IH]; intros st bs Hb.
  - exists bs. by split.
  - cbn. fold (exec s (step i st)). destruct (can_move st i) eqn:E.
    + destruct (step_budget i st bs Hb E) as (bs1 & Hb1 & Hlt).
      destruct (IH _ _ Hb1) as (bs' & Hb' & Hle). exists bs'. split; [done|lia].
    + rewrite (step_idle i st E). by apply IH.
Qed.

Lemma budget_init (fs : FS) (folder : path) (ops : list op) :
  Forall2 task_within (replicate (length ops) 5%nat)
    (st_tasks (init fs (map (perform folder) ops)))
  /\ sum_list (replicate (length ops) 5%nat) = (5 * length ops)%nat.
Proof.
  cbn. induction ops as [|o ops [IH1 IH2]]; cbn; [by split|]. split.
  - constructor; [apply within_perform|done].
  - rewrite IH2. lia.
Qed.

Lemma exec_app (s1 s2 : list nat) (st : state) :
  exec (s1 ++ s2) st = exec s2 (exec s1 st).
Proof. apply fold_left_app. Qed.

Lemma unsettled_or_done (tasks : list task) :
  (forall i t, tasks !! i = Some t -> settled t = true)
  \/ exists i t, tasks !! i = Some t /\ settled t = false.
Proof.
  induction tasks as [|t tasks [IH|(i & t' & Hi & Ht')]].
  - left. by intros i t.
  - destruct (settled t) eqn:E.
    + left. intros [|i] t'; cbn; [by intros [= <-]|apply IH].
    + right. by exists 0%nat, t.
  - right. by exists (S i), t'.
Qed.

(** From a state in which no task waits for ever, the tasks can all be
    brought to their end. *)
Lemma can_finish (n : nat) (st : state) (bs : list nat) :
  inv st -> held_by_tasks st ->
  Forall2 task_within bs (st_tasks st) ->
  (sum_list bs <= n)%nat ->
  exists more,
    (length more <= n)%nat
    /\ forall i t, st_tasks (exec more st) !! i = Some t -> settled t = true.
Proof.
  revert st bs. induction n as [|n IH]; intros st bs Hinv Hheld Hb Hn.
  - destruct (unsettled_or_done (st_tasks st)) as [Hall|(i & t & Hi & Ht)];
      [exists []; by split|].
    assert (exists j, can_move st j = true) as [j Hj].
    { destruct (live t) eqn:El; [exists i; unfold can_move; by rewrite Hi|].
      destruct t as [m|p k|c k|o]; try done.
      destruct (waiting_for_holder st i p k Hinv Hi) as [j Hj].
      destruct (holder_live st p j Hinv Hheld Hj) as (t' & Ht' & Hl').
      exists j. unfold can_move. by rewrite Ht'. }
    destruct (step_budget j st bs Hb Hj) as (bs' & _ & Hlt). lia.
  - destruct (unsettled_or_done (st_tasks st)) as [Hall|(i & t & Hi & Ht)];
      [exists []; split; [cbn; lia|done]|].
    assert (exists j, can_move st j = true) as [j Hj].
    { destruct (live t) eqn:El; [exists i; unfold can_move; by rewrite Hi|].
      destruct t as [m|p k|c k|o]; try done.
      destruct (waiting_for_holder st i p k Hinv Hi) as [j Hj].
      destruct (holder_live st p j Hinv Hheld Hj) as (t' & Ht' & Hl').
      exists j. unfold can_move. by rewrite Ht'. }
    destruct (step_budget j st bs Hb Hj) as (bs' & Hb' & Hlt).
    destruct (IH (step j st) bs') as (more & Hlen & Hall);
      [by apply inv_step|by apply held_step|done|lia|].
    exists (j :: more). split; [cbn; lia|done].
Qed.

(** X13: the operations come to their end.  Whatever the schedule, the
    tasks move at most five times each, so none runs for ever; and from
    every state the operations can get into, some schedule of at most five
    turns for each operation brings every task to its end, so none is
    stuck behind a lock.  The lock is the queue of waiting tasks the
    specification describes. *)
Theorem X13_operations_come_to_an_end (fs : FS) (folder : path) (ops : list op)
  (schedule : list nat) :
  let st0 := init fs (map (perform folder) ops) in
  (moves schedule st0 <= 5 * length ops)%nat
  /\ exists more,
       (length more <= 5 * length ops)%nat
       /\ forall i t, st_tasks (exec (schedule ++ more) st0) !! i = Some t ->
                      settled t = true.
Proof.
  intros st0. destruct (budget_init fs folder ops) as [Hb Hsum]. fold st0 in Hb.
  split; [rewrite <- Hsum; by apply moves_budget|].
  destruct (budget_exec schedule st0 _ Hb) as (bs' & Hb' & Hle).
  destruct (can_finish (5 * length ops) (exec schedule st0) bs')
    as (more & Hlen & Hall); [apply inv_operations| |done|lia|].
  { apply held_exec, held_init. }
  exists more. split; [done|]. by rewrite exec_app.
Qed.

(** ** Operations on different files do not meet *)

Lemma sys_exec_local (p : path) (c : syscall) (fs1 fs2 : FS) :
  file_call p c -> parent p <> p -> agree p fs1 fs2 ->
  fst (sys_exec c fs1) = fst (sys_exec c fs2)
  /\ agree p (snd (sys_exec c fs1)) (snd (sys_exec c fs2))
  /\ (forall q, q <> p -> snd (sys_exec c fs1) !! q = fs1 !! q).
Proof.
  intros Hc Hp Ha. pose proof Ha as [H1 H2].
  assert (Hsame : forall (r : errno + sysret),
            fst (r, fs1) = fst (r, fs2)
            /\ agree p (snd (r, fs1)) (snd (r, fs2))
            /\ (forall q, q <> p -> snd (r, fs1) !! q = fs1 !! q)) by done.
  destruct c as [q|q|q|q text|q]; cbn in Hc; try done; subst q; cbn.
  - unfold fs_readFile. rewrite H1. apply Hsame.
  - unfold fs_writeFile. rewrite H1, H2.
    destruct (fs2 !! p) as [[old m|m]|]; [|apply Hsame|].
    + destruct (can_write m); [|apply Hsame]. cbn. split; [done|]. split.
      * split; [by rewrite !lookup_insert_eq|].
        rewrite !lookup_insert_ne by done. apply Ha.
      * intros q Hq. by rewrite lookup_insert_ne.
    + destruct (fs2 !! parent p) as [[? ?|m]|]; [apply Hsame| |apply Hsame].
      destruct (can_write m); [|apply Hsame]. cbn. split; [done|]. split.
      * split; [by rewrite !lookup_insert_eq|].
        rewrite !lookup_insert_ne by done. apply Ha.
      * intros q Hq. by rewrite lookup_insert_ne.
  - unfold fs_unlink, dir_writable. rewrite H1, H2.
    destruct (fs2 !! p) as [[old m|m]|]; [|apply Hsame|apply Hsame].
    destruct (fs2 !! parent p) as [[? ?|[? []]]|]; try apply Hsame.
    cbn. split; [done|]. split.
    + split; [by rewrite !lookup_delete_eq|].
      rewrite !lookup_delete_ne by done. apply Ha.
    + intros q Hq. by rewrite lookup_delete_ne.
Qed.

Lemma run_acquire {A : Type} (p : path) (k : prog A) (fs : FS) :
  result_of (run (Acquire p k) fs) = result_of (run k fs)
  /\ fs_of (run (Acquire p k) fs) = fs_of (run k fs).
Proof.
  change (run (Acquire p k) fs)
    with (let '(tr, o, fs') := run k fs in (EvAcquire p :: tr, o, fs')).
  by destruct (run k fs) as [[tr o] fs'].
Qed.

Lemma run_release {A : Type} (p : path) (k : prog A) (fs : FS) :
  result_of (run (Release p k) fs) = result_of (run k fs)
  /\ fs_of (run (Release p k) fs) = fs_of (run k fs).
Proof.
  change (run (Release p k) fs)
    with (let '(tr, o, fs') := run k fs in (EvRelease p :: tr, o, fs')).
  by destruct (run k fs) as [[tr o] fs'].
Qed.

Lemma run_sys {A : Type} (c : syscall) (k : errno + sysret -> prog A) (fs : FS) :
  result_of (run (Sys c k) fs)
    = result_of (run (k (fst (sys_exec c fs))) (snd (sys_exec c fs)))
  /\ fs_of (run (Sys c k) fs)
     = fs_of (run (k (fst (sys_exec c fs))) (snd (sys_exec c fs))).
Proof.
  change (run (Sys c k) fs)
    with (let '(r, fs1) := sys_exec c fs in
          let '(tr, o, fs2) := run (k r) fs1 in (EvSys c r :: tr, o, fs2)).
  destruct (sys_exec c fs) as [r fs1]. cbn [fst snd].
  by destruct (run (k r) fs1) as [[tr o] fs2].
Qed.

Lemma run_local (p : path) (m : prog value) (fs1 fs2 : FS) :
  confined p m -> parent p <> p -> agree p fs1 fs2 ->
  result_of (run m fs1) = result_of (run m fs2)
  /\ agree p (fs_of (run m fs1)) (fs_of (run m fs2))
  /\ (forall q, q <> p -> fs_of (run m fs1) !! q = fs1 !! q).
Proof.
  intros Hm Hp. revert fs1 fs2 Hm.
  induction m as [v|e|q k IH|q k IH|c k IH]; intros fs1 fs2 Hm Ha.
  - done.
  - done.
  - destruct (run_acquire q k fs1) as [-> ->], (run_acquire q k fs2) as [-> ->].
    by apply IH.
  - destruct (run_release q k fs1) as [-> ->], (run_release q k fs2) as [-> ->].
    by apply IH.
  - destruct Hm as [Hc Hk].
    destruct (run_sys c k fs1) as [-> ->], (run_sys c k fs2) as [-> ->].
    destruct (sys_exec_local p c fs1 fs2 Hc Hp Ha) as (Hr & Ha' & Hf).
    rewrite <- Hr.
    destruct (IH (fst (sys_exec c fs1)) _ _ (Hk _) Ha') as (Ho & Ha'' & Hf').
    split; [done|]. split; [done|].
    intros q Hq. by rewrite Hf', Hf.
Qed.

Lemma finish_local (p : path) (t : task) (fs1 fs2 : FS) :
  task_confined p t -> parent p <> p -> agree p fs1 fs2 ->
  fst (finish t fs1) = fst (finish t fs2)
  /\ snd (finish t fs1) !! p = snd (finish t fs2) !! p.
Proof.
  intros Ht Hp Ha. destruct t as [m|q m|c k|o]; cbn [finish task_confined] in *.
  - destruct (run_local p m fs1 fs2 Ht Hp Ha) as (H1 & [H2 _] & _). done.
  - destruct (run_local p m fs1 fs2 Ht Hp Ha) as (H1 & [H2 _] & _). done.
  - destruct Ht as [Hc Hk].
    destruct (sys_exec_local p c fs1 fs2 Hc Hp Ha) as (Hr & Ha' & Hf).
    destruct (sys_exec c fs1) as [r1 fs1'], (sys_exec c fs2) as [r2 fs2'].
    cbn [fst snd] in Hr, Ha', Hf. subst r2.
    destruct (run_local p (k r1) fs1' fs2' (Hk r1) Hp Ha') as (H1 & [H2 _] & _).
    done.
  - split; [done|]. apply Ha.
Qed.

Lemma confined_perform (folder : path) (o : op) :
  confined (op_path folder o) (perform folder o).
Proof.
  destruct o as [data file|file|file]; unfold perform, op_path.
  - unfold writeData. cbn.
    destruct (JSON.stringify data BufferJSON.replacer) as [text|]; cbn; [|done].
    split; [done|]. by intros [e|r].
  - unfold readData. cbn. split; [done|].
    intros [e|[|data|d]]; cbn; try done.
    by destruct (JSON.parse data BufferJSON.reviver).
  - unfold removeData. cbn. split; [done|]. by intros [e|r].
Qed.

Lemma op_path_parent (folder : path) (o : op) :
  parent (op_path folder o) = folder /\ folder <> op_path folder o.
Proof.
  assert (H : forall name, folder <> join folder name).
  { intros name H. apply (f_equal length) in H. unfold join in H.
    rewrite length_app in H. cbn in H. lia. }
  destruct o; cbn; by rewrite parent_join.
Qed.

Section Apart.

Variable folder : path.
Variable fs0 : FS.
Variable ops : list op.
Hypothesis apart : NoDup (map (op_path folder) ops).

Lemma on_course_init : on_course folder fs0 ops (init fs0 (map (perform folder) ops)).
Proof.
  split; [|split]; cbn.
  - intros i o t Ho. rewrite !list_lookup_fmap, Ho. cbn. intros [= <-].
    split; [apply confined_perform|]. done.
  - done.
  - by rewrite !length_map.
Qed.

(** A step that leaves the file system as it is, and what the task is
    about to yield. *)
Lemma on_course_update (st : state) (i : nat) (t' : task) locks' log' :
  on_course folder fs0 ops st ->
  (forall t, st_tasks st !! i = Some t ->
             (forall p, task_confined p t -> task_confined p t')
             /\ finish t' (st_fs st) = finish t (st_fs st)) ->
  on_course folder fs0 ops
    (State (st_fs st) locks' (<[i := t']> (st_tasks st)) log').
Proof.
  intros (H2 & H3 & Hlen) Hsame. split; [|split]; cbn.
  - intros j o t Ho Ht. destruct (decide (i = j)) as [<-|Hne].
    + assert (Hi : (i < length (st_tasks st))%nat).
      { apply lookup_lt_Some in Ht. by rewrite length_insert in Ht. }
      rewrite list_lookup_insert_eq in Ht by done. injection Ht as <-.
      destruct (lookup_lt_is_Some_2 _ _ Hi) as [t0 Ht0].
      destruct (Hsame t0 Ht0) as [Hc ->].
      destruct (H2 i o t0 Ho Ht0) as (Hc0 & Hr & Hf). split; [by apply Hc|done].
    + rewrite list_lookup_insert_ne in Ht by done. by apply (H2 j).
  - done.
  - by rewrite length_insert.
Qed.

(** The end of a call: only the file of the task that made it changes. *)
Lemma on_course_call (st : state) (i : nat) (c : syscall)
  (k : errno + sysret -> prog value) locks' log' :
  on_course folder fs0 ops st ->
  st_tasks st !! i = Some (InFlight c k) ->
  on_course folder fs0 ops
    (State (snd (sys_exec c (st_fs st))) locks'
       (<[i := Running (k (fst (sys_exec c (st_fs st))))]> (st_tasks st)) log').
Proof.
  intros (H2 & H3 & Hlen) Hi.
  assert (Hlt : (i < length ops)%nat).
  { rewrite <- Hlen. by apply lookup_lt_Some in Hi. }
  destruct (lookup_lt_is_Some_2 _ _ Hlt) as [oi Hoi].
  destruct (H2 i oi _ Hoi Hi) as ((Hc & Hk) & Hr & Hf).
  destruct (op_path_parent folder oi) as [Hpar Hfolder].
  assert (Hframe : forall q, q <> op_path folder oi ->
                             snd (sys_exec c (st_fs st)) !! q = st_fs st !! q).
  { apply (sys_exec_local _ c (st_fs st) (st_fs st) Hc); [|done].
    rewrite Hpar. done. }
  split; [|split]; cbn [st_tasks st_fs].
  - intros j o t Ho Ht. destruct (decide (i = j)) as [<-|Hne].
    + rewrite list_lookup_insert_eq in Ht by (eapply lookup_lt_Some; exact Hi).
      injection Ht as <-. rewrite Hoi in Ho. injection Ho as <-.
      split; [apply Hk|]. revert Hr Hf. cbn [finish].
      by destruct (sys_exec c (st_fs st)) as [r fs'].
    + rewrite list_lookup_insert_ne in Ht by done.
      destruct (H2 j o t Ho Ht) as (Hcj & Hrj & Hfj).
      destruct (op_path_parent folder o) as [Hparj Hfolderj].
      assert (Hpaths : op_path folder o <> op_path folder oi).
      { intros Heq. apply Hne.
        apply (NoDup_lookup _ i j (op_path folder oi) apart);
          rewrite list_lookup_fmap; [by rewrite Hoi|rewrite Ho; cbn; by rewrite Heq]. }
      destruct (finish_local (op_path folder o) t
                  (snd (sys_exec c (st_fs st))) (st_fs st) Hcj) as [E1 E2].
      { by rewrite Hparj. }
      { split; [by apply Hframe|]. rewrite Hparj. by apply Hframe. }
      split; [done|]. by rewrite E1, E2.
  - intros q Hq. rewrite Hframe; [by apply H3|].
    intros ->. apply Hq. apply list_elem_of_fmap. exists oi.
    split; [done|]. by eapply list_elem_of_lookup_2.
  - by rewrite length_insert.
Qed.

Lemma on_course_step (i : nat) (st : state) :
  on_course folder fs0 ops st -> on_course folder fs0 ops (step i st).
Proof.
  intros H. destruct st as [fs locks tasks log]. unfold step.
  destruct (tasks !! i) as [[m|q k|c k|o]|] eqn:E; try done.
  - destruct m as [v|e|p k|p k|c k].
    + apply (on_course_update (State fs locks tasks log)); [done|].
      cbn. intros t. rewrite E. by intros [= <-].
    + apply (on_course_update (State fs locks tasks log)); [done|].
      cbn. intros t. rewrite E. by intros [= <-].
    + destruct (lock_of _ p) as [[j0|] q];
        apply (on_course_update (State fs locks tasks log)); try done;
        cbn; intros t; rewrite E; intros [= <-];
        (split; [done|]); cbn [finish];
        by destruct (run_acquire p k fs) as [-> ->].
    + assert (Hown : on_course folder fs0 ops
                (State fs locks (<[i := Running k]> tasks) log)).
      { apply (on_course_update (State fs locks tasks log)); [done|].
        cbn. intros t. rewrite E. intros [= <-]. split; [done|].
        cbn [finish]. by destruct (run_release p k fs) as [-> ->]. }
      assert (Hany : forall locks' log',
                on_course folder fs0 ops
                  (State fs locks' (<[i := Running k]> tasks) log')).
      { intros locks' log'. destruct Hown as (H2 & H3 & Hlen).
        split; [exact H2|]. split; [exact H3|exact Hlen]. }
      destruct (lock_of _ p) as [[j0|] q]; [|apply Hany].
      destruct (Nat.eqb j0 i); [|apply Hany].
      destruct q as [|next q']; [apply Hany|].
      destruct (tasks !! next) as [[?|p0 k'|? ?|?]|] eqn:En; try apply Hany.
      apply (on_course_update
               (State fs locks (<[next := Running k']> tasks) log)).
      * apply (on_course_update (State fs locks tasks log)); [done|].
        cbn. intros t. rewrite En. by intros [= <-].
      * cbn [st_tasks st_fs]. intros t.
        destruct (decide (next = i)) as [->|Hne]; [congruence|].
        intros Ht.
        assert (Ht' : tasks !! i = Some t).
        { rewrite <- Ht. symmetry. by apply list_lookup_insert_ne. }
        rewrite E in Ht'. injection Ht' as <-.
        split; [done|]. cbn [finish]. by destruct (run_release p k fs) as [-> ->].
    + apply (on_course_update (State fs locks tasks log)); [done|].
      cbn. intros t. rewrite E. intros [= <-]. split; [done|].
      cbn [finish]. destruct (run_sys c k fs) as [-> ->].
      by destruct (sys_exec c fs) as [r fs'].
  - pose proof (on_course_call (State fs locks tasks log) i c k locks
                  (log ++ [Ended i c]) H E) as Hc.
    cbn [st_fs st_tasks] in Hc. by destruct (sys_exec c fs) as [r fs'].
Qed.

Lemma on_course_exec (schedule : list nat) (st : state) :
  on_course folder fs0 ops st -> on_course folder fs0 ops (exec schedule st).
Proof.
  revert st. induction schedule as [|i s IH]; intros st H; [done|].
  cbn. by apply IH, on_course_step.
Qed.

End Apart.

(** Run one after the other, operations on different files end as each
    would have ended alone, on a file system with the same file in the
    same directory. *)
Lemma run_each_alone (folder : path) (ref : op -> FS) (ops : list op) (fs1 : FS) :
  NoDup (map (op_path folder) ops) ->
  (forall o, o ∈ ops -> agree (op_path folder o) fs1 (ref o)) ->
  let all := run_each (map (perform folder) ops) fs1 in
  snd (fst all)
    = map (fun o => as_result (result_of (run (perform folder o) (ref o)))) ops
  /\ (forall o, o ∈ ops ->
        snd all !! op_path folder o
          = fs_of (run (perform folder o) (ref o)) !! op_path folder o)
  /\ (forall q, q ∉ map (op_path folder) ops -> snd all !! q = fs1 !! q).
Proof.
  revert fs1. induction ops as [|o ops IH]; intros fs1 Hnd Ha; cbn zeta.
  - split; [done|]. split; [|done]. by intros o ?%elem_of_nil.
  - cbn [map] in Hnd. apply NoDup_cons in Hnd as [Hout Hnd].
    destruct (op_path_parent folder o) as [Hpar Hfolder].
    destruct (run_local (op_path folder o) (perform folder o) fs1 (ref o))
      as (Hr & [Hp _] & Hf);
      [apply confined_perform|by rewrite Hpar|apply Ha, list_elem_of_here|].
    cbn [map run_each].
    destruct (run (perform folder o) fs1) as [[tr out] fs2].
    unfold result_of, fs_of in Hr, Hp, Hf. cbn [fst snd] in Hr, Hp, Hf.
    destruct (IH fs2 Hnd) as (IH1 & IH2 & IH3).
    { intros o' Ho'.
      destruct (op_path_parent folder o') as [Hpar' Hfolder'].
      assert (Hne : op_path folder o' <> op_path folder o).
      { intros Heq. apply Hout. rewrite <- Heq.
        apply list_elem_of_fmap. by exists o'. }
      destruct (Ha o' (list_elem_of_further _ _ _ Ho')) as [A1 A2].
      split; [by rewrite Hf|]. rewrite Hpar' in *. by rewrite Hf. }
    destruct (run_each (map (perform folder) ops) fs2) as [[trs rs] fs3].
    cbn [fst snd] in *. split; [|split].
    + rewrite Hr. by f_equal.
    + intros o' [->|Ho']%elem_of_cons; [|by apply IH2].
      rewrite IH3 by done. exact Hp.
    + intros q Hq. apply not_elem_of_cons in Hq as [Hq1 Hq2].
      rewrite IH3 by done. by apply Hf.
Qed.

Lemma forallb_lookup {A : Type} (f : A -> bool) (l : list A) (i : nat) (x : A) :
  forallb f l = true -> l !! i = Some x -> f x = true.
Proof.
  revert i. induction l as [|y l IH]; intros i; [done|]. cbn.
  intros [Hy Hl]%andb_prop. destruct i as [|i]; cbn.
  - by intros [= <-].
  - by apply IH.
Qed.

(** X14: operations on files that are all different do not meet: in
    whatever order their steps are taken, once every task has come to its
    end each has ended as it would have ended alone, and the file system
    is the one the tasks leave when they run one after the other, which is
    how [Promise.all] is run for [keys.get] and [keys.set].  The lock is
    the queue of waiting tasks the specification describes. *)
Theorem X14_interleaving_does_not_matter (fs : FS) (folder : path)
  (ops : list op) (schedule : list nat) :
  let st := exec schedule (init fs (map (perform folder) ops)) in
  let alone o := result_of (run (perform folder o) fs) in
  let in_turn := run_each (map (perform folder) ops) fs in
  NoDup (map (op_path folder) ops) ->
  forallb settled (st_tasks st) = true ->
  st_tasks st = map (fun o => Settled (alone o)) ops
  /\ st_fs st = snd in_turn
  /\ snd (fst in_turn) = map (fun o => as_result (alone o)) ops.
Proof.
  intros st alone in_turn Hnd Hall.
  destruct (on_course_exec folder fs ops Hnd schedule _
              (on_course_init folder fs ops)) as (H2 & H3 & Hlen).
  fold st in H2, H3, Hlen.
  destruct (run_each_alone folder (fun _ => fs) ops fs Hnd) as (S1 & S2 & S3);
    [done|].
  fold in_turn in S1, S2, S3.
  assert (Hsettled : forall i o t,
            ops !! i = Some o -> st_tasks st !! i = Some t ->
            t = Settled (alone o)
            /\ st_fs st !! op_path folder o
               = fs_of (run (perform folder o) fs) !! op_path folder o).
  { intros i o t Ho Ht. destruct (H2 i o t Ho Ht) as (_ & Hr & Hf).
    pose proof (forallb_lookup settled _ i t Hall Ht) as Hs.
    destruct t as [m|q m|c k|out]; try done. cbn in Hr, Hf. by subst out. }
  split; [|split; [|exact S1]].
  - apply list_eq. intros i. rewrite list_lookup_fmap.
    destruct (ops !! i) as [o|] eqn:Ho; cbn.
    + assert (Hi : (i < length (st_tasks st))%nat).
      { rewrite Hlen. by apply lookup_lt_Some in Ho. }
      destruct (lookup_lt_is_Some_2 _ _ Hi) as [t Ht].
      destruct (Hsettled i o t Ho Ht) as [-> _]. exact Ht.
    + apply lookup_ge_None. rewrite Hlen. by apply lookup_ge_None.
  - apply map_eq. intros q.
    destruct (decide (q ∈ map (op_path folder) ops)) as [Hin|Hout].
    + apply list_elem_of_fmap in Hin as (o & -> & Ho).
      pose proof Ho as [i Hi]%list_elem_of_lookup_1.
      assert (Hlt : (i < length (st_tasks st))%nat).
      { rewrite Hlen. by apply lookup_lt_Some in Hi. }
      destruct (lookup_lt_is_Some_2 _ _ Hlt) as [t Ht].
      destruct (Hsettled i o t Hi Ht) as [_ ->]. by rewrite S2.
    + by rewrite H3, S3.
Qed.

Lemma X14_interleaving_does_not_matter_witness :
  let schedule := [0; 1; 0; 1; 1; 1; 0; 0; 0; 1]%nat in
  st_fs (exec schedule two_files)
    = snd (run_each (map (perform ["s"])
                       [OpWrite (VNum 1) "a.json"; OpWrite (VNum 2) "b.json"])
             fs_session_empty).
Proof.
  cbn zeta.
  refine (proj1 (proj2 (X14_interleaving_does_not_matter fs_session_empty ["s"]
                   [OpWrite (VNum 1) "a.json"; OpWrite (VNum 2) "b.json"]
                   [0; 1; 0; 1; 1; 1; 0; 0; 0; 1]%nat _ _))).
  - vm_compute. apply NoDup_cons. split; [|apply NoDup_singleton].
    intros H%list_elem_of_singleton. discriminate H.
  - vm_compute. reflexivity.
Defined.

(** ** Doing an operation again *)



(** ** Records that share a file *)

Lemma append_inv_tail (a b s : string) : a +:+ s = b +:+ s -> a = b.
Proof.
  revert b. induction a as [|x a IH]; intros [|y b] H.
  - done.
  - apply (f_equal String.length) in H.
    rewrite append_nil_l, append_cons in H. cbn in H.
    rewrite length_append in H. lia.
  - apply (f_equal String.length) in H.
    rewrite append_nil_l, append_cons in H. cbn in H.
    rewrite length_append in H. lia.
  - rewrite !append_cons in H. injection H as -> H. by rewrite (IH b H).
Qed.

Lemma append_hyphen_inj (a b r s : string) :
  has_hyphen a = false -> has_hyphen b = false ->
  a +:+ "-" +:+ r = b +:+ "-" +:+ s -> a = b /\ r = s.
Proof.
  unfold has_hyphen. rewrite !negb_false_iff. revert b.
  induction a as [|x a IH]; intros [|y b]; cbn [Str.forallb].
  - intros _ _ H. rewrite !append_nil_l, !append_cons, !append_nil_l in H.
    by injection H.
  - intros _ [Hy _]%andb_prop H.
    rewrite append_nil_l, !append_cons, append_nil_l in H.
    injection H as <- _. done.
  - intros [Hx _]%andb_prop _ H.
    rewrite append_nil_l, !append_cons, append_nil_l in H.
    injection H as -> _. done.
  - intros [_ Ha]%andb_prop [_ Hb]%andb_prop H.
    rewrite !append_cons in H. injection H as -> H.
    destruct (IH b Ha Hb H) as [-> ->]. done.
Qed.

Lemma append_inv_head (a r s : string) : a +:+ r = a +:+ s -> r = s.
Proof.
  induction a as [|x a IH]; [by rewrite !append_nil_l|].
  rewrite !append_cons. intros [= H]. by apply IH.
Qed.

(** X15: which records share a file.  The file of a record is named after
    the text of the category, a hyphen and the id, so a hyphen can move
    from the category to the id without changing the file.  Within one
    category, ids without [/] and [:] have the same file only when they
    are the same id; across categories that holds for categories without
    hyphen, [/] and [:]. *)
Theorem X15_records_sharing_a_file (folder : path) :
  (forall category a b,
     key_path folder (category +:+ "-" +:+ a) b
       = key_path folder category (a +:+ "-" +:+ b))
  /\ (forall category id1 id2,
        plain_name id1 = true -> plain_name id2 = true ->
        key_path folder category id1 = key_path folder category id2 ->
        id1 = id2)
  /\ (forall category1 id1 category2 id2,
        has_hyphen category1 = false -> has_hyphen category2 = false ->
        plain_name category1 = true -> plain_name category2 = true ->
        plain_name id1 = true -> plain_name id2 = true ->
        key_path folder category1 id1 = key_path folder category2 id2 ->
        category1 = category2 /\ id1 = id2).
Proof.
  split; [|split].
  - intros category a b. unfold key_path, key_file. by rewrite !append_assoc.
  - intros c i1 i2 Q1 Q2. unfold key_path, key_file.
    intros H%join_inj. revert H. rewrite !fixFileName_append.
    rewrite !(fixFileName_plain _ Q1), !(fixFileName_plain _ Q2).
    intros H%append_inv_head%append_inv_head. by apply append_inv_tail in H.
  - intros c1 i1 c2 i2 H1 H2 P1 P2 Q1 Q2. unfold key_path, key_file.
    intros H%join_inj. revert H. rewrite !fixFileName_append.
    rewrite !(fixFileName_plain _ P1), !(fixFileName_plain _ P2),
      !(fixFileName_plain _ Q1), !(fixFileName_plain _ Q2).
    change (fixFileName "-") with "-"%string.
    change (fixFileName ".json") with ".json"%string.
    intros H.
    apply append_hyphen_inj in H as [-> H]; [|done|done].
    by apply append_inv_tail in H as ->.
Qed.
